(** * Boothintel: the electoral-roll extraction core

    A shallow embedding of [backend/electoral_roll_pipeline.py]: the text
    normaliser [clean], the house-number canonicaliser [normalize_house_no],
    the field extractor [parse_block], the scorer [completeness], the page
    parser [parse_page] and the cleaning loop of [json_to_csv], together with
    the part of Python's [str] and [re] they rely on.

    Python strings are sequences of Unicode code points, so a string is a
    list of code points here.  Operations that raise in Python return in the
    [result] monad. *)

From Stdlib Require Import NArith ZArith Lia List Bool.
From stdpp Require Import base list gmap strings.
Import ListNotations.

(* ================================================================== *)
(** ** Code points and strings *)
(* ================================================================== *)

Definition char := N.
Definition str := list char.

(** [lit "abc"] is the Python literal ["abc"] (ASCII literals only). *)
Fixpoint lit (s : string) : str :=
  match s with
  | EmptyString => []
  | String a r => Ascii.N_of_ascii a :: lit r
  end.
Arguments lit s%_string.

Definition LF : char := 10%N.
Definition TAB : char := 9%N.
Definition SPACE : char := 32%N.

Definition is_empty (s : str) : bool :=
  match s with [] => true | _ => false end.

(** Python truthiness of a string: the empty string is false. *)
Definition truthy (s : str) : bool := negb (is_empty s).

Definition str_eqb (a b : str) : bool := bool_decide (a = b).

(** [Py_UNICODE_ISSPACE]: the code points stripped by [str.strip()] and
    matched by [\s] in a [str] pattern. *)
Definition isspace (c : char) : bool :=
  ((9 <=? c) && (c <=? 13) || (28 <=? c) && (c <=? 32)
   || (c =? 0x85) || (c =? 0xA0) || (c =? 0x1680)
   || (0x2000 <=? c) && (c <=? 0x200A)
   || (c =? 0x2028) || (c =? 0x2029) || (c =? 0x202F)
   || (c =? 0x205F) || (c =? 0x3000))%N.

(** The tables of the Unicode database that the program reaches through
    [\d], [\w], [re.IGNORECASE], [str.upper] and [str.capitalize].  They
    belong to the Python runtime, not to the repository, and are taken as
    parameters. *)
Class unicode_tables := UnicodeTables {
  uni_decimal : char -> bool;    (* [\d] : Py_UNICODE_ISDECIMAL *)
  uni_word : char -> bool;       (* [\w] : alphanumeric or '_' *)
  uni_tolower : char -> char;    (* simple lower-case mapping, used by IGNORECASE *)
  uni_upper : char -> str;       (* full upper-case mapping of one code point *)
  uni_capitalize : str -> str    (* [str.capitalize] of a non-empty string *)
}.

(** The same tables cut down to the ASCII range, where they are exact. *)
Definition ascii_is_upper (c : char) : bool := ((65 <=? c) && (c <=? 90))%N.
Definition ascii_is_lower (c : char) : bool := ((97 <=? c) && (c <=? 122))%N.
Definition ascii_is_digit (c : char) : bool := ((48 <=? c) && (c <=? 57))%N.
Definition ascii_tolower (c : char) : char :=
  if ascii_is_upper c then (c + 32)%N else c.
Definition ascii_toupper (c : char) : char :=
  if ascii_is_lower c then (c - 32)%N else c.
Definition ascii_capitalize (s : str) : str :=
  match s with
  | [] => []
  | c :: t => ascii_toupper c :: map ascii_tolower t
  end.

Definition ascii_tables : unicode_tables := {|
  uni_decimal := ascii_is_digit;
  uni_word := fun c =>
    ascii_is_digit c || ascii_is_upper c || ascii_is_lower c || (c =? 95)%N;
  uni_tolower := ascii_tolower;
  uni_upper := fun c => [ascii_toupper c];
  uni_capitalize := ascii_capitalize
|}.

(** What the proofs below need of the real tables: on the ASCII letters
    they act as [ascii_tables] does. *)
Class ascii_exact (U : unicode_tables) : Prop := AsciiExact {
  upper_ascii_letter : forall c,
    ascii_is_upper c || ascii_is_lower c = true ->
    uni_upper c = [ascii_toupper c];
  capitalize_ascii : forall s,
    forallb (fun c => ascii_is_upper c || ascii_is_lower c) s = true ->
    uni_capitalize s = ascii_capitalize s
}.

(* ------------------------------------------------------------------ *)
(** *** [str] methods *)

Fixpoint drop_while (p : char -> bool) (s : str) : str :=
  match s with
  | [] => []
  | c :: t => if p c then drop_while p t else s
  end.

(** Removes the longest suffix whose code points all satisfy [p]. *)
Fixpoint rstrip_by (p : char -> bool) (s : str) : str :=
  match s with
  | [] => []
  | c :: t =>
      match rstrip_by p t with
      | [] => if p c then [] else [c]
      | r => c :: r
      end
  end.

Definition lstrip_by (p : char -> bool) (s : str) : str := drop_while p s.

(** [s.strip()] *)
Definition strip (s : str) : str := rstrip_by isspace (lstrip_by isspace s).

Definition char_in (chars : str) (c : char) : bool :=
  existsb (N.eqb c) chars.

(** [s.rstrip(chars)] *)
Definition rstrip_chars (chars : str) (s : str) : str :=
  rstrip_by (char_in chars) s.

Fixpoint is_prefix (p s : str) : bool :=
  match p, s with
  | [], _ => true
  | a :: p', b :: s' => (a =? b)%N && is_prefix p' s'
  | _ :: _, [] => false
  end.

(** [sub in s] *)
Fixpoint contains (sub s : str) : bool :=
  is_prefix sub s ||
  match s with
  | [] => false
  | _ :: t => contains sub t
  end.

Fixpoint replace_from (old new s : str) (skip : nat) : str :=
  match s with
  | [] => []
  | c :: t =>
      match skip with
      | S k => replace_from old new t k
      | O =>
          if is_prefix old s
          then new ++ replace_from old new t (length old - 1)
          else c :: replace_from old new t 0
      end
  end.

(** [s.replace(old, new)] *)
Definition replace (old new s : str) : str :=
  match old with
  | [] => new ++ flat_map (fun c => c :: new) s
  | _ => replace_from old new s 0
  end.

(** [s[a:b]] for [0 <= a], [0 <= b] *)
Definition slice (s : str) (a b : nat) : str := take (b - a) (drop a s).

(** [s.upper()] *)
Definition upper `{unicode_tables} (s : str) : str := flat_map uni_upper s.

(** [s.capitalize()]: the empty string is returned as it is. *)
Definition capitalize `{unicode_tables} (s : str) : str :=
  if is_empty s then [] else uni_capitalize s.

(* ================================================================== *)
(** ** Exceptions *)
(* ================================================================== *)

Inductive exn := AttributeError | IndexError | ValueError.

Inductive result (A : Type) :=
| Ok (a : A)
| Raise (e : exn).
Arguments Ok {A} a.
Arguments Raise {A} e.

Definition bind {A B} (m : result A) (k : A -> result B) : result B :=
  match m with
  | Ok a => k a
  | Raise e => Raise e
  end.

Notation "x <- m ;; k" := (bind m (fun x => k))
  (at level 100, m at next level, right associativity).

Fixpoint mapM {A B} (f : A -> result B) (l : list A) : result (list B) :=
  match l with
  | [] => Ok []
  | x :: t => y <- f x ;; ys <- mapM f t ;; Ok (y :: ys)
  end.

(** [l[i]] for [0 <= i] *)
Definition index {A} (l : list A) (i : nat) : result A :=
  match l !! i with
  | Some x => Ok x
  | None => Raise IndexError
  end.

(* ================================================================== *)
(** ** Regular expressions: the fragment of [re] the program uses *)
(* ================================================================== *)

(** Every quantifier of the program's patterns applies to a one-character
    item, [(?:'s)?] apart, so repetition is over atoms. *)
Inductive cset_item :=
| CChar (c : char)
| CRange (lo hi : char).

Inductive atom :=
| ALit (c : char)                              (* a literal character *)
| ASet (neg : bool) (items : list cset_item)   (* [...] and [^...] *)
| ADot                                         (* . (no DOTALL) *)
| ASpace                                       (* \s *)
| ADigit                                       (* \d *)
| AWord.                                       (* \w *)

Inductive regex :=
| RAtom (a : atom)
| REps
| RSeq (r1 r2 : regex)
| RAlt (r1 r2 : regex)
| ROpt (r : regex)                                       (* r? *)
| RRep (greedy : bool) (lo : nat) (hi : option nat) (a : atom)
                                   (* a{lo,hi}, lazy when not greedy *)
| RGroup (n : nat) (r : regex)                           (* capture group n *)
| RBol                                                   (* ^ *)
| REol.                                                  (* $ *)

Infix ">>" := RSeq (at level 41, right associativity).

Abbreviation RStar a := (RRep true 0 None a).
Abbreviation RPlus a := (RRep true 1 None a).
Abbreviation RPlusLazy a := (RRep false 1 None a).

(** The pattern that matches the literal text [s]. *)
Fixpoint re_lit (s : str) : regex :=
  match s with
  | [] => REps
  | c :: t => RAtom (ALit c) >> re_lit t
  end.

Fixpoint ngroups (r : regex) : nat :=
  match r with
  | RSeq r1 r2 | RAlt r1 r2 => ngroups r1 + ngroups r2
  | ROpt r => ngroups r
  | RGroup _ r => S (ngroups r)
  | _ => 0
  end.

Record mstate := MState {
  m_pos : nat;                  (* offset in the subject string *)
  m_rest : str;                 (* the subject from that offset on *)
  m_caps : list (nat * str)     (* closed groups, latest first *)
}.

Record match_obj := MatchObj {
  mo_start : nat;
  mo_end : nat;
  mo_text : str;                (* group 0 *)
  mo_caps : list (nat * str);
  mo_ngroups : nat
}.

Section Regex.
Context `{U : unicode_tables}.

Definition item_match (it : cset_item) (c : char) : bool :=
  match it with
  | CChar x => (c =? x)%N
  | CRange lo hi => ((lo <=? c) && (c <=? hi))%N
  end.

(** [ic] is [re.IGNORECASE].  Under it a cased literal matches every code
    point with the same simple lower case; a set without cased members
    (the only kind the program uses with the flag) is left as it is. *)
Definition atom_match (ic : bool) (a : atom) (c : char) : bool :=
  match a with
  | ALit l => if ic then (uni_tolower c =? uni_tolower l)%N else (c =? l)%N
  | ASet neg items => xorb neg (existsb (fun it => item_match it c) items)
  | ADot => negb (c =? LF)%N
  | ASpace => isspace c
  | ADigit => uni_decimal c
  | AWord => uni_word c
  end.

Definition hi_allows (hi : option nat) : bool :=
  match hi with Some O => false | _ => true end.

(** The ways [a{lo,hi}] can match at [rest], in the order the backtracking
    matcher tries them: longest first when greedy, shortest first when
    lazy.  Each is the offset and remainder after the repetition. *)
Fixpoint rep (greedy : bool) (p : char -> bool) (lo : nat) (hi : option nat)
    (pos : nat) (rest : str) : list (nat * str) :=
  let here := if Nat.eqb lo 0 then [(pos, rest)] else [] in
  let more :=
    match rest with
    | c :: t =>
        if p c && hi_allows hi
        then rep greedy p (pred lo) (option_map pred hi) (S pos) t
        else []
    | [] => []
    end in
  if greedy then more ++ here else here ++ more.

(** All the ways [r] can match at [st], in backtracking order: the head is
    the match Python reports. *)
Fixpoint run (ic : bool) (r : regex) (st : mstate) : list mstate :=
  match r with
  | RAtom a =>
      match m_rest st with
      | c :: t =>
          if atom_match ic a c then [MState (S (m_pos st)) t (m_caps st)]
          else []
      | [] => []
      end
  | REps => [st]
  | RSeq r1 r2 => flat_map (run ic r2) (run ic r1 st)
  | RAlt r1 r2 => run ic r1 st ++ run ic r2 st
  | ROpt r => run ic r st ++ [st]
  | RRep g lo hi a =>
      map (fun pr : nat * str => MState (fst pr) (snd pr) (m_caps st))
          (rep g (atom_match ic a) lo hi (m_pos st) (m_rest st))
  | RGroup n r =>
      map (fun st' =>
             MState (m_pos st') (m_rest st')
                    ((n, take (m_pos st' - m_pos st) (m_rest st)) :: m_caps st'))
          (run ic r st)
  | RBol => if Nat.eqb (m_pos st) 0 then [st] else []
  | REol =>
      match m_rest st with
      | [] => [st]
      | [c] => if (c =? LF)%N then [st] else []
      | _ => []
      end
  end.

(** The match that starts exactly at offset [pos], if any. *)
Definition match_at (ic : bool) (r : regex) (pos : nat) (rest : str)
    : option match_obj :=
  match run ic r (MState pos rest []) with
  | [] => None
  | st :: _ =>
      Some (MatchObj pos (m_pos st) (take (m_pos st - pos) rest)
                     (m_caps st) (ngroups r))
  end.

Fixpoint search_from (ic : bool) (r : regex) (pos : nat) (rest : str)
    : option match_obj :=
  match match_at ic r pos rest with
  | Some m => Some m
  | None =>
      match rest with
      | [] => None
      | _ :: t => search_from ic r (S pos) t
      end
  end.

(** [re.search(r, s)]: the leftmost match. *)
Definition re_search (ic : bool) (r : regex) (s : str) : option match_obj :=
  search_from ic r 0 s.

(** [re.match(r, s)]: the match at offset 0. *)
Definition re_match (ic : bool) (r : regex) (s : str) : option match_obj :=
  match_at ic r 0 s.

(** [re.sub(r, repl, s)] for a replacement without group references.
    [skip] counts the code points of the current match still to be passed
    over.  After an empty match one code point is copied (none of the
    program's patterns matches the empty string). *)
Fixpoint sub_from (ic : bool) (r : regex) (repl : str)
    (pos : nat) (rest : str) (skip : nat) : str :=
  match skip with
  | S k =>
      match rest with
      | [] => []
      | _ :: t => sub_from ic r repl (S pos) t k
      end
  | O =>
      match match_at ic r pos rest with
      | Some m =>
          repl ++
          match rest with
          | [] => []
          | c :: t =>
              match mo_end m - pos with
              | O => c :: sub_from ic r repl (S pos) t 0
              | S k => sub_from ic r repl (S pos) t k
              end
          end
      | None =>
          match rest with
          | [] => []
          | c :: t => c :: sub_from ic r repl (S pos) t 0
          end
      end
  end.

Definition re_sub (ic : bool) (r : regex) (repl s : str) : str :=
  sub_from ic r repl 0 s 0.

(** [r.finditer(s)]: the successive non-overlapping matches. *)
Fixpoint finditer_from (ic : bool) (r : regex)
    (pos : nat) (rest : str) (skip : nat) : list match_obj :=
  match skip with
  | S k =>
      match rest with
      | [] => []
      | _ :: t => finditer_from ic r (S pos) t k
      end
  | O =>
      match match_at ic r pos rest with
      | Some m =>
          m ::
          match rest with
          | [] => []
          | _ :: t => finditer_from ic r (S pos) t (pred (mo_end m - pos))
          end
      | None =>
          match rest with
          | [] => []
          | _ :: t => finditer_from ic r (S pos) t 0
          end
      end
  end.

Definition re_finditer (ic : bool) (r : regex) (s : str) : list match_obj :=
  finditer_from ic r 0 s 0.
End Regex.

(** *** Match objects *)

Definition is_some {A} (o : option A) : bool :=
  match o with Some _ => true | None => false end.

Fixpoint cap_lookup (n : nat) (caps : list (nat * str)) : option str :=
  match caps with
  | [] => None
  | (k, v) :: t => if Nat.eqb k n then Some v else cap_lookup n t
  end.

(** [m.group(n)].  On [None] Python raises AttributeError; a group number
    the pattern does not have raises IndexError.  A group that took no part
    in the match yields Python's [None], on which every string operation the
    program applies next would raise: it is reported here as a raise. *)
Definition group (m : option match_obj) (n : nat) : result str :=
  match m with
  | None => Raise AttributeError
  | Some mo =>
      match n with
      | O => Ok (mo_text mo)
      | _ =>
          if mo_ngroups mo <? n then Raise IndexError
          else match cap_lookup n (mo_caps mo) with
               | Some v => Ok v
               | None => Raise AttributeError
               end
      end
  end.

(** [m.groups()] *)
Definition groups (m : option match_obj) : result (list str) :=
  match m with
  | None => Raise AttributeError
  | Some mo => mapM (group m) (seq 1 (mo_ngroups mo))
  end.

(** [a, b = t] *)
Definition unpack2 {A} (t : list A) : result (A * A) :=
  match t with
  | [a; b] => Ok (a, b)
  | _ => Raise ValueError
  end.

(* ================================================================== *)
(** ** The program's patterns *)
(* ================================================================== *)

(** [code "x"] is the code point of the one-character literal ["x"]. *)
Definition code (s : string) : char :=
  match s with
  | String a _ => Ascii.N_of_ascii a
  | EmptyString => 0%N
  end.
Arguments code s%_string.

(** The separator set [:+!] shared by the labelled-field patterns. *)
Definition SEP : atom := ASet false [CChar (code ":"); CChar (code "+"); CChar (code "!")].

(** [^\n] *)
Definition NOT_LF : atom := ASet true [CChar LF].

(** The common tail of a label: \s*[:+!]\s* *)
Definition label_sep : regex := RStar ASpace >> RAtom SEP >> RStar ASpace.

(** normalize_house_no:  /+  *)
Definition RE_SLASHES : regex := RPlus (ALit (code "/")).

(** [0-9/] and [A-Za-z] *)
Definition HOUSE_NUM : atom :=
  ASet false [CRange (code "0") (code "9"); CChar (code "/")].
Definition HOUSE_SUF : atom :=
  ASet false [CRange (code "A") (code "Z"); CRange (code "a") (code "z")].

(** normalize_house_no:  ^([0-9/]+)([A-Za-z]?)$  *)
Definition RE_HOUSE_SHAPE : regex :=
  RBol
  >> RGroup 1 (RPlus HOUSE_NUM)
  >> RGroup 2 (RRep true 0 (Some 1) HOUSE_SUF)
  >> REol.

(** VOTER_ID_PAT:  ([A-Z]{2,3}\d{7})  *)
Definition VOTER_ID_PAT : regex :=
  RGroup 1 (RRep true 2 (Some 3) (ASet false [CRange (code "A") (code "Z")])
            >> RRep true 7 (Some 7) ADigit).

Definition BAD_NAMES : list str :=
  [ lit "26-VELACHERY"; lit "VELACHERY"; lit "3-CHENNAI SOUTH";
    lit "CHENNAI SOUTH"; lit "ELECTORAL ROLL"; lit "ASSEMBLY CONSTITUENCY" ].

(** clean:  \s+  *)
Definition RE_WS : regex := RPlus ASpace.

(** clean:  \s*(Name\s*[:+!].* )  with re.IGNORECASE (written here with a
    blank before the closing parenthesis) *)
Definition RE_NAME_TAIL : regex :=
  RStar ASpace
  >> RGroup 1 (re_lit (lit "Name") >> RStar ASpace >> RAtom SEP >> RStar ADot).

(** parse_block:  Name\s*[:+!]\s*([^\n]+)  *)
Definition RE_NAME : regex :=
  re_lit (lit "Name") >> label_sep >> RGroup 1 (RPlus NOT_LF).

(** parse_block:  Father(?:'s)? Name\s*[:+!]\s*([^\n]+)  and its siblings *)
Definition relation_pat (who : str) : regex :=
  re_lit who >> ROpt (re_lit (lit "'s")) >> re_lit (lit " Name")
  >> label_sep >> RGroup 1 (RPlus NOT_LF).

Definition RE_FATHER : regex := relation_pat (lit "Father").
Definition RE_HUSBAND : regex := relation_pat (lit "Husband").
Definition RE_MOTHER : regex := relation_pat (lit "Mother").

(** parse_block:  House\s*Number\s*[:+!]\s*([^\n ]+)  *)
Definition RE_HOUSE : regex :=
  re_lit (lit "House") >> RStar ASpace >> re_lit (lit "Number")
  >> label_sep >> RGroup 1 (RPlus (ASet true [CChar LF; CChar SPACE])).

(** parse_block:  Age\s*[:+!]\s*(\d+)  *)
Definition RE_AGE : regex :=
  re_lit (lit "Age") >> label_sep >> RGroup 1 (RPlus ADigit).

(** The two Tamil gender tokens, U+0B86 U+0BA3 U+0BCD (male) and
    U+0BAA U+0BC6 U+0BA3 U+0BCD (female). *)
Definition TAMIL_MALE : str := [0x0B86; 0x0BA3; 0x0BCD]%N.
Definition TAMIL_FEMALE : str := [0x0BAA; 0x0BC6; 0x0BA3; 0x0BCD]%N.

(** parse_block:  Gender\s*[:+!]\s*(Male|Female|<male>|<female>)  *)
Definition RE_GENDER : regex :=
  re_lit (lit "Gender") >> label_sep
  >> RGroup 1 (RAlt (re_lit (lit "Male"))
              (RAlt (re_lit (lit "Female"))
              (RAlt (re_lit TAMIL_MALE) (re_lit TAMIL_FEMALE)))).

(** parse_block:  ^\d  *)
Definition RE_LEADING_DIGIT : regex := RBol >> RAtom ADigit.

(** parse_page:  [ \t]+  *)
Definition RE_BLANKS : regex := RPlus (ASet false [CChar SPACE; CChar TAB]).

(** parse_page:  Part No\.:(\w+)  *)
Definition RE_PART : regex := re_lit (lit "Part No.:") >> RGroup 1 (RPlus AWord).

(** parse_page:  Section No and Name\s+(.+?)(?:\n|Part No)  *)
Definition RE_SECTION : regex :=
  re_lit (lit "Section No and Name") >> RPlus ASpace
  >> RGroup 1 (RPlusLazy ADot)
  >> RAlt (RAtom (ALit LF)) (re_lit (lit "Part No")).

(* ================================================================== *)
(** ** The data model *)
(* ================================================================== *)

(** The dictionary returned by [parse_block]. *)
Record partial_record := PartialRecord {
  name : str;
  relation_type : str;
  relation_name : str;
  house_number : str;
  age : str;
  gender : str
}.

(** The dictionary built by [parse_page] for one anchor; [best] holds the
    six keys spliced in by [**best]. *)
Record voter_record := VoterRecord {
  voter_id : str;
  best : partial_record;
  part_no : str;
  section : str;
  page : Z;
  constituency : str;
  parliamentary_constituency : str
}.

(** One entry of [data["pages"]]. *)
Record page_record := PageRecord {
  pg_page : Z;
  pg_text : str
}.

(* ================================================================== *)
(** ** The program *)
(* ================================================================== *)

Section Program.
Context `{U : unicode_tables}.

Definition normalize_house_no (h : str) : result str :=
  if negb (truthy h) then Ok [] else
  let h := replace (lit ",") [] (strip h) in
  let h := replace (lit "-") (lit "/") h in
  let h := re_sub false RE_SLASHES (lit "/") h in
  let m := re_match false RE_HOUSE_SHAPE h in
  if negb (is_some m) then Ok [] else
  gs <- groups m ;;
  ns <- unpack2 gs ;;
  Ok (fst ns ++ upper (snd ns)).

Definition clean (s : str) : str :=
  if negb (truthy s) then [] else
  let s := strip (rstrip_chars (lit "-~") (strip (re_sub false RE_WS (lit " ") s))) in
  let s := strip (re_sub true RE_NAME_TAIL [] s) in
  s.

Definition str_in (s : str) (l : list str) : bool := existsb (str_eqb s) l.

Definition parse_block (block : str) : result partial_record :=
  let name_m := re_search false RE_NAME block in
  let father_m := re_search false RE_FATHER block in
  let husband_m := re_search false RE_HUSBAND block in
  let mother_m := re_search false RE_MOTHER block in
  let house_m := re_search false RE_HOUSE block in
  let age_m := re_search false RE_AGE block in
  let gender_m := re_search false RE_GENDER block in
  (* NAME *)
  name <- (if is_some name_m then g <- group name_m 1 ;; Ok (clean g) else Ok []) ;;
  let name :=
    if contains (lit "NAME") (upper name) || contains (lit "-") name
       || contains (lit "=") name
    then [] else name in
  let name :=
    if str_in (upper name) BAD_NAMES
       || is_some (re_match false RE_LEADING_DIGIT name)
    then [] else name in
  (* RELATION *)
  rel <- (if is_some father_m then
            g <- group father_m 1 ;; Ok (lit "S/O", clean g)
          else if is_some husband_m then
            g <- group husband_m 1 ;; Ok (lit "W/O", clean g)
          else if is_some mother_m then
            g <- group mother_m 1 ;; Ok (lit "C/O", clean g)
          else Ok ([], [])) ;;
  (* HOUSE NUMBER *)
  house <- (if is_some house_m then
              g <- group house_m 1 ;; normalize_house_no (clean g)
            else Ok []) ;;
  (* GENDER *)
  gender_raw <- (if is_some gender_m then group gender_m 1 else Ok []) ;;
  let gender :=
    if str_eqb gender_raw TAMIL_MALE then lit "Male"
    else if str_eqb gender_raw TAMIL_FEMALE then lit "Female"
    else capitalize gender_raw in
  (* AGE *)
  age <- (if is_some age_m then group age_m 1 else Ok []) ;;
  Ok {| name := name;
        relation_type := fst rel;
        relation_name := snd rel;
        house_number := house;
        age := age;
        gender := gender |}.

Definition completeness (f : partial_record) : nat :=
  length (List.filter truthy [name f; age f; gender f; house_number f]).

(** [max(l, key=key)]: the first element with the largest key; raises
    ValueError on an empty list. *)
Fixpoint max_from {A} (key : A -> nat) (cur : A) (l : list A) : A :=
  match l with
  | [] => cur
  | x :: t => if key cur <? key x then max_from key x t else max_from key cur t
  end.

Definition py_max {A} (key : A -> nat) (l : list A) : result A :=
  match l with
  | [] => Raise ValueError
  | x :: t => Ok (max_from key x t)
  end.

(** [enumerate(l, start)] *)
Fixpoint enumerate_from {A} (start : nat) (l : list A) : list (nat * A) :=
  match l with
  | [] => []
  | x :: t => (start, x) :: enumerate_from (S start) t
  end.

Definition enumerate {A} (l : list A) : list (nat * A) := enumerate_from 0 l.

(** The body of the loop of [parse_page] for the [i]-th anchor. *)
Definition parse_anchor (text_clean : str) (id_positions : list (nat * str))
    (part_no section : str) (page_num : Z) (ia : nat * (nat * str))
    : result voter_record :=
  let i := fst ia in
  let pos := fst (snd ia) in
  let vid := snd (snd ia) in
  prev_pos <- (if 0 <? i then p <- index id_positions (i - 1) ;; Ok (fst p)
               else Ok 0) ;;
  next_pos <- (if i + 1 <? length id_positions
               then p <- index id_positions (i + 1) ;; Ok (fst p)
               else Ok (length text_clean)) ;;
  let after_block := slice text_clean pos next_pos in
  let before_block := slice text_clean prev_pos pos in
  c_after <- parse_block after_block ;;
  c_before <- parse_block before_block ;;
  c_both <- parse_block (before_block ++ [LF] ++ after_block) ;;
  let candidates := [c_after; c_before; c_both] in
  best <- py_max completeness candidates ;;
  Ok {| voter_id := vid;
        best := best;
        part_no := part_no;
        section := section;
        page := page_num;
        constituency := lit "26-VELACHERY";
        parliamentary_constituency := lit "3-CHENNAI SOUTH" |}.

(** The anchors of a page: offset and text of every identifier match. *)
Definition find_id_positions (text_clean : str) : list (nat * str) :=
  map (fun m => (mo_start m, mo_text m))
      (re_finditer false VOTER_ID_PAT text_clean).

Definition parse_page (text : str) (page_num : Z) : result (list voter_record) :=
  let text_clean := re_sub false RE_BLANKS (lit " ") text in
  let part_m := re_search false RE_PART text_clean in
  let section_m := re_search false RE_SECTION text_clean in
  part_no <- (if is_some part_m then group part_m 1 else Ok []) ;;
  section <- (if is_some section_m then g <- group section_m 1 ;; Ok (clean g)
              else Ok []) ;;
  let id_positions := find_id_positions text_clean in
  mapM (parse_anchor text_clean id_positions part_no section page_num)
       (enumerate id_positions).

(** json_to_csv: the records of every page, in page order. *)
Fixpoint all_voters (pages : list page_record) : result (list voter_record) :=
  match pages with
  | [] => Ok []
  | p :: t =>
      vs <- parse_page (pg_text p) (pg_page p) ;;
      rest <- all_voters t ;;
      Ok (vs ++ rest)
  end.

(** json_to_csv: the cleaning loop, with its [seen] set and [cleaned] list. *)
Fixpoint cleaning_loop (rows : list voter_record) (seen : gset (str * str))
    (cleaned : list voter_record) : list voter_record :=
  match rows with
  | [] => cleaned
  | row :: t =>
      let name := strip (name (best row)) in
      let house := strip (house_number (best row)) in
      if negb (truthy name) || negb (truthy house) then cleaning_loop t seen cleaned
      else
        let key := (upper name, house) in
        if bool_decide (key ∈ seen) then cleaning_loop t seen cleaned
        else cleaning_loop t ({[ key ]} ∪ seen) (cleaned ++ [row])
  end.

Definition cleaning (all_voters : list voter_record) : list voter_record :=
  cleaning_loop all_voters ∅ [].
End Program.

(* ================================================================== *)
(** ** Specification-side definitions *)
(* ================================================================== *)

(** *** The matcher *)

(** [pre] is a run of [lo] to [hi] code points satisfying [p] at the head
    of [rest], leaving [rest'] at offset [pos']. *)
Definition rep_split (p : char -> bool) (lo : nat) (hi : option nat)
    (pos : nat) (rest : str) (pos' : nat) (rest' : str) (pre : str) : Prop :=
  rest = pre ++ rest' /\ pos' = pos + length pre /\
  forallb p pre = true /\ lo <= length pre /\
  (forall h, hi = Some h -> length pre <= h).

(** A match consumes a prefix of the subject and advances the offset by
    its length. *)
Definition consumed (st st' : mstate) (pre : str) : Prop :=
  m_rest st = pre ++ m_rest st' /\ m_pos st' = m_pos st + length pre.

(** [closes n r]: every match of [r] goes through group [n]. *)
Fixpoint closes (n : nat) (r : regex) : bool :=
  match r with
  | RSeq r1 r2 => closes n r1 || closes n r2
  | RAlt r1 r2 => closes n r1 && closes n r2
  | RGroup k r => Nat.eqb k n || closes n r
  | _ => false
  end.

(** [P] holds of the first result, the one the matcher reports. *)
Definition head_has (P : mstate -> Prop) (l : list mstate) : Prop :=
  match l with
  | [] => True
  | h :: _ => P h
  end.

(** [anchor_free r]: [r] uses neither ^ nor $. *)
Fixpoint anchor_free (r : regex) : bool :=
  match r with
  | RSeq r1 r2 | RAlt r1 r2 => anchor_free r1 && anchor_free r2
  | ROpt r | RGroup _ r => anchor_free r
  | RBol | REol => false
  | _ => true
  end.

Section SpecDefinitions.
Context `{U : unicode_tables}.

(** [lang ic r w]: the pattern [r] can match exactly the text [w]. *)
Fixpoint lang (ic : bool) (r : regex) (w : str) : Prop :=
  match r with
  | RAtom a => exists c, w = [c] /\ atom_match ic a c = true
  | REps => w = []
  | RSeq r1 r2 =>
      exists w1 w2, w = w1 ++ w2 /\ lang ic r1 w1 /\ lang ic r2 w2
  | RAlt r1 r2 => lang ic r1 w \/ lang ic r2 w
  | ROpt r => lang ic r w \/ w = []
  | RRep _ lo hi a =>
      forallb (atom_match ic a) w = true /\ lo <= length w /\
      (forall h, hi = Some h -> length w <= h)
  | RGroup _ r => lang ic r w
  | RBol | REol => False
  end.

(** *** Candidate selection *)

(** [x] is the first element of [l] with the largest key. *)
Definition first_max {A} (key : A -> nat) (l : list A) (x : A) : Prop :=
  exists k, l !! k = Some x /\
    (forall y, In y l -> key y <= key x) /\
    (forall j y, j < k -> l !! j = Some y -> key y < key x).

(** The windows of the [i]-th anchor, as the specification words them. *)
Definition prev_pos_of (ids : list (nat * str)) (i : nat) : nat :=
  match i with
  | O => 0
  | S j => nth j (map fst ids) 0
  end.

Definition next_pos_of (text_clean : str) (ids : list (nat * str)) (i : nat) : nat :=
  nth (S i) (map fst ids) (length text_clean).

Definition after_window (text_clean : str) (ids : list (nat * str)) (i pos : nat) : str :=
  slice text_clean pos (next_pos_of text_clean ids i).

Definition before_window (text_clean : str) (ids : list (nat * str)) (i pos : nat) : str :=
  slice text_clean (prev_pos_of ids i) pos.

Definition combined_window (text_clean : str) (ids : list (nat * str)) (i pos : nat) : str :=
  before_window text_clean ids i pos ++ [LF] ++ after_window text_clean ids i pos.

(** *** Field extraction *)

(** What [parse_block] puts in each field, read off the seven searches. *)
Definition name_field (block : str) (r : partial_record) : Prop :=
  match re_search false RE_NAME block with
  | Some m => exists g, group (Some m) 1 = Ok g /\
                        (name r = clean g \/ name r = [])
  | None => name r = []
  end.

Definition relation_fields (block : str) (r : partial_record) : Prop :=
  match re_search false RE_FATHER block, re_search false RE_HUSBAND block,
        re_search false RE_MOTHER block with
  | Some m, _, _ =>
      exists g, group (Some m) 1 = Ok g /\
        relation_type r = lit "S/O" /\ relation_name r = clean g
  | None, Some m, _ =>
      exists g, group (Some m) 1 = Ok g /\
        relation_type r = lit "W/O" /\ relation_name r = clean g
  | None, None, Some m =>
      exists g, group (Some m) 1 = Ok g /\
        relation_type r = lit "C/O" /\ relation_name r = clean g
  | None, None, None => relation_type r = [] /\ relation_name r = []
  end.

Definition house_field (block : str) (r : partial_record) : Prop :=
  match re_search false RE_HOUSE block with
  | Some m => exists g, group (Some m) 1 = Ok g /\
                        normalize_house_no (clean g) = Ok (house_number r)
  | None => house_number r = []
  end.

Definition gender_field (block : str) (r : partial_record) : Prop :=
  match re_search false RE_GENDER block with
  | Some m =>
      exists g, group (Some m) 1 = Ok g /\
        gender r = (if str_eqb g TAMIL_MALE then lit "Male"
                    else if str_eqb g TAMIL_FEMALE then lit "Female"
                    else capitalize g)
  | None => gender r = []
  end.

Definition age_field (block : str) (r : partial_record) : Prop :=
  match re_search false RE_AGE block with
  | Some m => group (Some m) 1 = Ok (age r)
  | None => age r = []
  end.

(** *** Labelled fields *)

(** The window holds, somewhere, a label accepted by [label_ok], optional
    whitespace, one of the separators [:], [+], [!], optional whitespace
    and a value accepted by [value_ok]. *)
Definition labelled (label_ok value_ok : str -> Prop) (window : str) : Prop :=
  exists x lab ws1 sep ws2 v y,
    window = x ++ lab ++ ws1 ++ [sep] ++ ws2 ++ v ++ y /\
    label_ok lab /\ forallb isspace ws1 = true /\
    In sep [code ":"; code "+"; code "!"] /\
    forallb isspace ws2 = true /\ value_ok v.

(** The label of a relation: the word, an optional ['s], a blank, [Name]. *)
Definition relation_label (who : str) (lab : str) : Prop :=
  lab = who ++ lit " Name" \/ lab = who ++ lit "'s Name".

(** The house label: [House], optional whitespace, [Number]. *)
Definition house_label (lab : str) : Prop :=
  exists ws, forallb isspace ws = true /\ lab = lit "House" ++ ws ++ lit "Number".

(** Values: a non-empty run of code points satisfying [p]. *)
Definition run_of (p : char -> bool) (v : str) : Prop :=
  v <> [] /\ forallb p v = true.

Definition not_LF (c : char) : bool := negb (c =? LF)%N.
Definition not_LF_blank (c : char) : bool :=
  negb ((c =? LF)%N || (c =? SPACE)%N).

Definition is_gender_token (v : str) : Prop :=
  In v [lit "Male"; lit "Female"; TAMIL_MALE; TAMIL_FEMALE].

(** *** Cleaning *)

(** The cleaning stage as the specification words it: records whose trimmed
    name and trimmed house number are both non-empty, and among those the
    first record of each key (upper-cased trimmed name, trimmed house
    number). *)
Definition dedup_key (row : voter_record) : str * str :=
  (upper (strip (name (best row))), strip (house_number (best row))).

Definition has_name_and_house (row : voter_record) : bool :=
  truthy (strip (name (best row))) && truthy (strip (house_number (best row))).

Definition other_key (r x : voter_record) : bool :=
  negb (bool_decide (dedup_key x = dedup_key r)).

Fixpoint first_per_key (rows : list voter_record) : list voter_record :=
  match rows with
  | [] => []
  | r :: t => r :: List.filter (other_key r) (first_per_key t)
  end.

Definition spec_cleaned (rows : list voter_record) : list voter_record :=
  first_per_key (List.filter has_name_and_house rows).

(** *** House numbers *)

Fixpoint take_while (p : char -> bool) (s : str) : str :=
  match s with
  | [] => []
  | c :: t => if p c then c :: take_while p t else []
  end.

Definition digit_or_slash (c : char) : bool :=
  ascii_is_digit c || (c =? code "/")%N.

Definition ascii_letter (c : char) : bool :=
  ascii_is_upper c || ascii_is_lower c.

(** One or more digits and slashes, then at most one code point, which
    satisfies [letter]. *)
Definition house_shape (letter : char -> bool) (s : str) : bool :=
  negb (is_empty (take_while digit_or_slash s)) &&
  match drop_while digit_or_slash s with
  | [] => true
  | [c] => letter c
  | _ => false
  end.

(** The string [normalize_house_no] validates: trimmed, commas removed,
    hyphens turned into slashes, runs of slashes collapsed. *)
Definition house_prepared (raw : str) : str :=
  re_sub false RE_SLASHES (lit "/")
    (replace (lit "-") (lit "/") (replace (lit ",") [] (strip raw))).

(** What a match of the validation pattern says about the subject. *)
Definition house_parts (h num suf tail : str) : Prop :=
  h = num ++ suf ++ tail /\ num <> [] /\
  forallb digit_or_slash num = true /\
  forallb ascii_letter suf = true /\ length suf <= 1 /\
  (tail = [] \/ tail = [LF]).

(** *** Normalised text *)

(** Every whitespace code point of [s] is a blank that does not follow
    another whitespace code point; [prev_ws] says whether the code point
    before [s] was whitespace. *)
Fixpoint ws_normal_from (prev_ws : bool) (s : str) : bool :=
  match s with
  | [] => true
  | c :: t =>
      if isspace c
      then (c =? SPACE)%N && negb prev_ws && ws_normal_from true t
      else ws_normal_from false t
  end.

Definition ws_normal (s : str) : bool := ws_normal_from false s.

(** [s] neither starts nor ends with a code point satisfying [p]. *)
Definition starts_clear (p : char -> bool) (s : str) : Prop :=
  match s with
  | [] => True
  | c :: _ => p c = false
  end.

Definition ends_clear (p : char -> bool) (s : str) : Prop :=
  match last s with
  | None => True
  | Some c => p c = false
  end.

(** [s] holds no line feed. *)
Definition no_LF (s : str) : bool := forallb (fun c => negb (c =? LF)%N) s.

(** [clean] up to its second substitution. *)
Definition clean_trimmed (s : str) : str :=
  strip (rstrip_chars (lit "-~") (strip (re_sub false RE_WS (lit " ") s))).

(** No suffix of [s] starts with a match of the trailing-label pattern of
    [clean]. *)
Definition no_label (s : str) : Prop :=
  forall j, is_some (match_at true RE_NAME_TAIL 0 (drop j s)) = false.

(** The text before the first match of the trailing-label pattern. *)
Fixpoint name_tail_cut (s : str) : str :=
  match s with
  | [] => []
  | c :: t =>
      if is_some (match_at true RE_NAME_TAIL 0 s) then []
      else c :: name_tail_cut t
  end.
End SpecDefinitions.

(** *** The scenarios of the specification, on the ASCII tables *)

Section ScenarioDefinitions.
#[local] Existing Instance ascii_tables.

Definition page1_text : str :=
  lit "Part No.:12 Section No and Name Ward 5 Part No.:12 AB1234567 Name:RAMESH KUMAR Age:34 Gender:Male House Number:45A".

(** Page 2: the voter block of page 1 with the other identifier. *)
Definition page2_text : str :=
  lit "CD7654321 Name:RAMESH KUMAR Age:34 Gender:Male House Number:45A".

(** Page 2 read as the whole of page 1 with the other identifier. *)
Definition page2_full_text : str :=
  lit "Part No.:12 Section No and Name Ward 5 Part No.:12 CD7654321 Name:RAMESH KUMAR Age:34 Gender:Male House Number:45A".

Definition scenario : list page_record :=
  [PageRecord 1 page1_text; PageRecord 2 page2_text].

Definition scenario_full : list page_record :=
  [PageRecord 1 page1_text; PageRecord 2 page2_full_text].

(** The end-to-end claim as the specification states it. *)
Definition end_to_end_as_stated (pages : list page_record) : Prop :=
  exists raw, all_voters pages = Ok raw /\ length raw = 2 /\
    length (cleaning raw) = 1 /\ cleaning raw = take 1 raw /\
    Forall (fun v => house_number (best v) = lit "45A" /\
                     name (best v) = lit "RAMESH KUMAR") raw.

Definition captured_name : str :=
  lit "RAMESH KUMAR Age:34 Gender:Male House Number:45A".

Definition end_to_end_amended (pages : list page_record) : Prop :=
  exists v1 v2, all_voters pages = Ok [v1; v2] /\ cleaning [v1; v2] = [v1] /\
    voter_id v1 = lit "AB1234567" /\ page v1 = 1%Z /\
    voter_id v2 = lit "CD7654321" /\ page v2 = 2%Z /\
    Forall (fun v => house_number (best v) = lit "45A" /\
                     name (best v) = captured_name /\
                     age (best v) = lit "34" /\ gender (best v) = lit "Male")
           [v1; v2].

(** The house-number claim read to the letter. *)
Definition house_claim_as_stated (raw : str) : Prop :=
  exists v, normalize_house_no raw = Ok v /\
    (v = [] \/ house_shape ascii_is_upper v = true) /\
    (house_shape ascii_is_upper (house_prepared raw) = false -> v = []).
End ScenarioDefinitions.

(* ================================================================== *)
(** ** Anchors and windows of a page *)
(* ================================================================== *)

Section PageDefinitions.
Context `{U : unicode_tables}.

(** The shape accepted by [VOTER_ID_PAT]: two or three ASCII capitals, then
    seven decimal digits (of any script, as [\d] has it). *)
Definition is_voter_id (v : str) : Prop :=
  exists letters digits, v = letters ++ digits /\
    2 <= length letters <= 3 /\ forallb ascii_is_upper letters = true /\
    length digits = 7 /\ forallb uni_decimal digits = true.

(** [parse_page]: the page text after its runs of blanks and tabs are
    collapsed. *)
Definition text_clean_of (text : str) : str :=
  re_sub false RE_BLANKS (lit " ") text.

(** The after-windows of all the anchors, in anchor order. *)
Definition after_windows (text_clean : str) (ids : list (nat * str)) : list str :=
  map (fun ia => after_window text_clean ids (fst ia) (fst (snd ia)))
      (enumerate ids).
End PageDefinitions.

(* ================================================================== *)
(** ** Fields of a block *)
(* ================================================================== *)

Section BlockDefinitions.
Context `{U : unicode_tables}.

(** What the two guards of [parse_block] leave of a name. *)
Definition name_guarded (n : str) : Prop :=
  ~ In (code "-") n /\ ~ In (code "=") n /\
  contains (lit "NAME") (upper n) = false /\
  ~ In (upper n) BAD_NAMES /\
  match n with [] => True | c :: _ => uni_decimal c = false end.

(** The text is trimmed and its whitespace is single blanks. *)
Definition tidy (s : str) : Prop :=
  ws_normal s = true /\ strip s = s.

Definition empty_record : partial_record :=
  {| name := []; relation_type := []; relation_name := [];
     house_number := []; age := []; gender := [] |}.

Definition is_separator (c : char) : bool :=
  (c =? code ":")%N || (c =? code "+")%N || (c =? code "!")%N.
End BlockDefinitions.

(* ================================================================== *)
(** ** Collapsed runs *)
(* ================================================================== *)

(** Every code point of [s] that satisfies [p] is [x] and does not follow
    another one that satisfies [p]; [prev] says whether the code point
    before [s] satisfied [p]. *)
Fixpoint run_normal_from (p : char -> bool) (x : char) (prev : bool) (s : str) : bool :=
  match s with
  | [] => true
  | c :: t =>
      if p c then (c =? x)%N && negb prev && run_normal_from p x true t
      else run_normal_from p x false t
  end.

Definition run_normal (p : char -> bool) (x : char) (s : str) : bool :=
  run_normal_from p x false s.

Definition is_blank (c : char) : bool := (c =? SPACE)%N || (c =? TAB)%N.
Definition is_slash (c : char) : bool := (c =? code "/")%N.

(* ================================================================== *)
(** ** Canonical house numbers *)
(* ================================================================== *)

(** A canonical house number: digits and slashes without a repeated slash,
    then at most one ASCII capital. *)
Definition canonical_house (v : str) : bool :=
  house_shape ascii_is_upper v && run_normal is_slash (code "/") v.

(** The code points [normalize_house_no] can let through or remove. *)
Definition house_input_char (c : char) : bool :=
  digit_or_slash c || ascii_letter c || isspace c
  || (c =? code ",")%N || (c =? code "-")%N.

(* ================================================================== *)
(** ** The whole document *)
(* ================================================================== *)

Section DocumentDefinitions.
Context `{U : unicode_tables}.


(** What holds of every record that [parse_page] builds. *)
Definition record_ok (v : voter_record) : Prop :=
  is_voter_id (voter_id v) /\
  name_guarded (name (best v)) /\ tidy (name (best v)) /\
  tidy (relation_name (best v)) /\
  (house_number (best v) = [] \/ canonical_house (house_number (best v)) = true) /\
  (age (best v) = [] \/ run_of uni_decimal (age (best v))) /\
  In (gender (best v)) [lit "Male"; lit "Female"; []] /\
  constituency v = lit "26-VELACHERY" /\
  parliamentary_constituency v = lit "3-CHENNAI SOUTH".
End DocumentDefinitions.

(* ================================================================== *)
(** ** From the PDF to the pages *)
(* ================================================================== *)

(** pdf_to_json.  The PDF reader and the OCR engine are outside the
    program and are taken as given: [embedded] is what the reader yields, a
    failure to open the file or, for every page, what [extract_text()] returns
    (a string or None) or raises; [scanned] is the same for the OCR engine,
    per page image.  The file is read twice by the program; both readings are
    taken to give the same.  The metadata of the result is left out. *)
Definition embedded_text := result (list (result (option str))).
Definition scanned_text := result (list (result str)).

(** [x or ""] for the result of [extract_text()] *)
Definition or_empty (t : option str) : str :=
  match t with
  | Some s => s
  | None => []
  end.

Record document := Document {
  doc_total_pages : Z;
  doc_pages : list page_record
}.

Definition has_text (embedded : embedded_text) : bool :=
  match embedded with
  | Ok pages =>
      match mapM (fun t : result (option str) => t) (take 3 pages) with
      | Ok ts => 100 <? length (concat (map or_empty ts))
      | Raise _ => false
      end
  | Raise _ => false
  end.

Definition pdf_to_json (embedded : embedded_text) (scanned : scanned_text)
    : result document :=
  pages <- (if has_text embedded then
              pdf_pages <- embedded ;;
              mapM (fun it : nat * result (option str) =>
                      t <- snd it ;;
                      Ok {| pg_page := Z.of_nat (fst it) + 1;
                            pg_text := or_empty t |})
                   (enumerate pdf_pages)
            else
              images <- scanned ;;
              mapM (fun it : nat * result str =>
                      text <- snd it ;;
                      Ok {| pg_page := Z.of_nat (fst it) + 1;
                            pg_text := strip text |})
                   (enumerate images)) ;;
  Ok {| doc_total_pages := Z.of_nat (length pages); doc_pages := pages |}.

(** The page numbers 1, 2, ..., n. *)
Definition page_numbers (n : nat) : list Z :=
  map (fun i => (Z.of_nat i + 1)%Z) (seq 0 n).

(** No element of the list is followed, anywhere later, by a smaller one. *)
Fixpoint ascending (l : list Z) : Prop :=
  match l with
  | [] => True
  | a :: t => Forall (Z.le a) t /\ ascending t
  end.

(* ================================================================== *)
(** ** Facts about the matcher *)
(* ================================================================== *)

Section RegexFacts.
Context `{U : unicode_tables}.

Lemma rep_here p lo hi pos rest pos' rest' :
  In (pos', rest') (if Nat.eqb lo 0 then [(pos, rest)] else []) <->
  rep_split p lo hi pos rest pos' rest' [].
Proof.
  unfold rep_split. destruct (Nat.eqb_spec lo 0) as [->|Hlo]; cbn.
  - split.
    + intros [[= <- <-]|[]]. repeat split; try (intros; cbn; lia).
    + intros (-> & -> & _). left. f_equal. lia.
  - split; [tauto|]. intros (_ & _ & _ & Hlo' & _). lia.
Qed.

Lemma rep_split_cons p lo hi pos c t pos' rest' pre :
  rep_split p lo hi pos (c :: t) pos' rest' (c :: pre) <->
  p c = true /\ hi_allows hi = true /\
  rep_split p (pred lo) (option_map pred hi) (S pos) t pos' rest' pre.
Proof.
  unfold rep_split. cbn [app length forallb]. split.
  - intros (Heq & -> & Hall & Hlo & Hhi). injection Heq as ->.
    apply andb_prop in Hall as [Hc Hall]. repeat split; auto; try lia.
    + destruct hi as [[|h]|]; auto. specialize (Hhi 0 eq_refl). lia.
    + intros h Hh. destruct hi as [h0|]; [|discriminate]. cbn in Hh.
      injection Hh as <-. specialize (Hhi h0 eq_refl). lia.
  - intros (Hc & Hal & -> & -> & Hall & Hlo & Hhi). rewrite Hc, Hall.
    repeat split; auto; try lia. intros h ->. cbn in Hal, Hhi.
    destruct h as [|h]; [discriminate|]. specialize (Hhi h eq_refl). lia.
Qed.

(** Repetition: the results are exactly the splits of the subject after a
    run of [lo] to [hi] code points that satisfy [p]. *)
Lemma rep_spec (g : bool) (p : char -> bool) (rest : str) :
  forall lo hi pos pos' rest',
    In (pos', rest') (rep g p lo hi pos rest) <->
    exists pre, rep_split p lo hi pos rest pos' rest' pre.
Proof.
  induction rest as [|c t IH]; intros lo hi pos pos' rest'.
  - cbn [rep].
    assert (Hor : In (pos', rest')
       (if g then [] ++ (if Nat.eqb lo 0 then [(pos, [])] else [])
        else (if Nat.eqb lo 0 then [(pos, [])] else []) ++ []) <->
       In (pos', rest') (if Nat.eqb lo 0 then [(pos, [])] else [])).
    { destruct g; rewrite ?app_nil_r; cbn [app]; tauto. }
    rewrite Hor, (rep_here p lo hi). split; [eauto|].
    intros (pre & H). destruct pre; [exact H|].
    destruct H as (Heq & _). discriminate.
  - cbn [rep].
    set (more := if p c && hi_allows hi then _ else _).
    set (here := if Nat.eqb lo 0 then _ else _).
    assert (Hor : In (pos', rest') (if g then more ++ here else here ++ more)
                  <-> In (pos', rest') more \/ In (pos', rest') here).
    { destruct g; rewrite in_app_iff; tauto. }
    rewrite Hor. subst here. rewrite (rep_here p lo hi).
    assert (Hmore : In (pos', rest') more <->
       exists pre, rep_split p lo hi pos (c :: t) pos' rest' (c :: pre)).
    { subst more. destruct (p c) eqn:Hc, (hi_allows hi) eqn:Hal; cbn [andb].
      - rewrite IH. split; intros (pre & H); exists pre.
        + apply rep_split_cons. tauto.
        + apply rep_split_cons in H. tauto.
      - split; [intros []|]. intros (pre & H).
        apply rep_split_cons in H. destruct H as (_ & H & _). congruence.
      - split; [intros []|]. intros (pre & H).
        apply rep_split_cons in H. destruct H as (H & _). congruence.
      - split; [intros []|]. intros (pre & H).
        apply rep_split_cons in H. destruct H as (H & _). congruence. }
    rewrite Hmore. split.
    + intros [(pre & H)|H]; eauto.
    + intros (pre & H). destruct pre as [|c' pre]; [tauto|].
      left. exists pre. assert (c' = c) as ->; [|exact H].
      destruct H as (Heq & _). now injection Heq.
Qed.

(** *** Inversion of [run], one lemma per constructor *)

Lemma mstate_eta (st : mstate) : MState (m_pos st) (m_rest st) (m_caps st) = st.
Proof. now destruct st. Qed.

Lemma in_run_atom ic a st st' :
  In st' (run ic (RAtom a) st) <->
  exists c, m_rest st = c :: m_rest st' /\ atom_match ic a c = true /\
            m_pos st' = S (m_pos st) /\ m_caps st' = m_caps st.
Proof.
  cbn [run]. destruct (m_rest st) as [|c t] eqn:Hr.
  - split; [intros []|]. intros (c & Hc & _). discriminate.
  - destruct (atom_match ic a c) eqn:Hm; cbn [In].
    + split.
      * intros [<-|[]]. exists c. cbn. auto.
      * intros (c' & [= <- ->] & _ & Hp & Hc). left.
        rewrite <- Hp, <- Hc. apply mstate_eta.
    + split; [intros []|]. intros (c' & [= <- ->] & Hm' & _). congruence.
Qed.

Lemma in_run_seq ic r1 r2 st st' :
  In st' (run ic (r1 >> r2) st) <->
  exists mid, In mid (run ic r1 st) /\ In st' (run ic r2 mid).
Proof. cbn [run]. apply in_flat_map. Qed.

Lemma in_run_alt ic r1 r2 st st' :
  In st' (run ic (RAlt r1 r2) st) <->
  In st' (run ic r1 st) \/ In st' (run ic r2 st).
Proof. cbn [run]. apply in_app_iff. Qed.

Lemma in_run_opt ic r st st' :
  In st' (run ic (ROpt r) st) <-> In st' (run ic r st) \/ st' = st.
Proof. cbn [run]. rewrite in_app_iff. cbn. intuition congruence. Qed.

Lemma in_run_eps ic st st' : In st' (run ic REps st) <-> st' = st.
Proof. cbn. intuition congruence. Qed.

Lemma in_run_rep ic g lo hi a st st' :
  In st' (run ic (RRep g lo hi a) st) <->
  m_caps st' = m_caps st /\
  exists pre, rep_split (atom_match ic a) lo hi (m_pos st) (m_rest st)
                        (m_pos st') (m_rest st') pre.
Proof.
  cbn [run]. rewrite in_map_iff. split.
  - intros ([p t] & <- & Hin). cbn. split; [reflexivity|].
    now apply rep_spec in Hin.
  - intros (Hc & Hpre). exists (m_pos st', m_rest st'). cbn. split.
    + rewrite <- Hc. apply mstate_eta.
    + now apply rep_spec.
Qed.

Lemma in_run_group ic n r st st' :
  In st' (run ic (RGroup n r) st) <->
  exists inner, In inner (run ic r st) /\
    m_pos st' = m_pos inner /\ m_rest st' = m_rest inner /\
    m_caps st' = (n, take (m_pos inner - m_pos st) (m_rest st)) :: m_caps inner.
Proof.
  cbn [run]. rewrite in_map_iff. split.
  - intros (inner & <- & Hin). exists inner. cbn. auto.
  - intros (inner & Hin & Hp & Hr & Hc). exists inner. split; [|exact Hin].
    rewrite <- (mstate_eta st'), Hp, Hr, Hc. reflexivity.
Qed.

Lemma in_run_bol ic st st' :
  In st' (run ic RBol st) <-> st' = st /\ m_pos st = 0.
Proof.
  cbn [run]. destruct (Nat.eqb_spec (m_pos st) 0); cbn; intuition congruence.
Qed.

Lemma in_run_eol ic st st' :
  In st' (run ic REol st) <-> st' = st /\ (m_rest st = [] \/ m_rest st = [LF]).
Proof.
  cbn [run]. destruct (m_rest st) as [|c [|c' t]]; cbn.
  - intuition congruence.
  - destruct (N.eqb_spec c LF) as [->|Hne]; cbn; [intuition congruence|].
    split; [tauto|]. intros (_ & [H|H]); congruence.
  - split; [tauto|]. intros (_ & [H|H]); congruence.
Qed.

Lemma consumed_refl st : consumed st st [].
Proof. split; cbn; [reflexivity|lia]. Qed.

Lemma consumed_trans st1 st2 st3 p1 p2 :
  consumed st1 st2 p1 -> consumed st2 st3 p2 -> consumed st1 st3 (p1 ++ p2).
Proof.
  intros [H1 H1'] [H2 H2']. split.
  - now rewrite H1, H2, app_assoc.
  - rewrite H2', H1', length_app. lia.
Qed.

Lemma run_consumed ic r : forall st st',
  In st' (run ic r st) -> exists pre, consumed st st' pre.
Proof.
  induction r; intros st st' Hin.
  - apply in_run_atom in Hin as (c & Hr & _ & Hp & _). exists [c].
    split; cbn; [exact Hr|lia].
  - apply in_run_eps in Hin as ->. exists []. apply consumed_refl.
  - apply in_run_seq in Hin as (mid & H1 & H2).
    apply IHr1 in H1 as (p1 & H1). apply IHr2 in H2 as (p2 & H2).
    exists (p1 ++ p2). eapply consumed_trans; eauto.
  - apply in_run_alt in Hin as [H|H]; eauto.
  - apply in_run_opt in Hin as [H| ->]; eauto. exists []. apply consumed_refl.
  - apply in_run_rep in Hin as (_ & pre & Hr & Hp & _). exists pre. now split.
  - apply in_run_group in Hin as (inner & Hin & Hp & Hr & _).
    apply IHr in Hin as (pre & H1 & H2). exists pre. split; congruence.
  - apply in_run_bol in Hin as [-> _]. exists []. apply consumed_refl.
  - apply in_run_eol in Hin as [-> _]. exists []. apply consumed_refl.
Qed.

(** *** Capture groups *)

Lemma run_keeps_cap ic n r : forall st st',
  In st' (run ic r st) ->
  is_some (cap_lookup n (m_caps st)) = true ->
  is_some (cap_lookup n (m_caps st')) = true.
Proof.
  induction r; intros st st' Hin Hcap.
  - apply in_run_atom in Hin as (c & _ & _ & _ & Hc). now rewrite Hc.
  - apply in_run_eps in Hin as ->. exact Hcap.
  - apply in_run_seq in Hin as (mid & H1 & H2). eauto.
  - apply in_run_alt in Hin as [H|H]; eauto.
  - apply in_run_opt in Hin as [H| ->]; eauto.
  - apply in_run_rep in Hin as (Hc & _). now rewrite Hc.
  - apply in_run_group in Hin as (inner & Hin & _ & _ & Hc). rewrite Hc.
    cbn [cap_lookup]. destruct (Nat.eqb n0 n); [reflexivity|]. eauto.
  - apply in_run_bol in Hin as [-> _]. exact Hcap.
  - apply in_run_eol in Hin as [-> _]. exact Hcap.
Qed.

Lemma run_closes ic n r : forall st st',
  closes n r = true -> In st' (run ic r st) ->
  is_some (cap_lookup n (m_caps st')) = true.
Proof.
  induction r; intros st st' Hcl Hin; cbn [closes] in Hcl; try discriminate.
  - apply in_run_seq in Hin as (mid & H1 & H2).
    apply orb_prop in Hcl as [Hcl|Hcl].
    + eapply run_keeps_cap; eauto.
    + eauto.
  - apply andb_prop in Hcl as [Hc1 Hc2].
    apply in_run_alt in Hin as [H|H]; eauto.
  - apply in_run_group in Hin as (inner & Hin & _ & _ & Hc). rewrite Hc.
    cbn [cap_lookup]. destruct (Nat.eqb n0 n) eqn:E; [reflexivity|].
    cbn in Hcl. eauto.
Qed.

(** *** [match_at], [re_search] *)

Lemma match_at_some ic r pos rest mo :
  match_at ic r pos rest = Some mo ->
  exists st' l, run ic r (MState pos rest []) = st' :: l /\
    mo = MatchObj pos (m_pos st') (take (m_pos st' - pos) rest)
                  (m_caps st') (ngroups r).
Proof.
  unfold match_at. destruct (run ic r _) as [|st' l]; [discriminate|].
  intros [= <-]. eauto.
Qed.

Lemma match_at_none ic r pos rest :
  match_at ic r pos rest = None <-> run ic r (MState pos rest []) = [].
Proof.
  unfold match_at. destruct (run ic r _); split; congruence.
Qed.

Lemma search_from_some ic r : forall rest pos mo,
  search_from ic r pos rest = Some mo ->
  exists k, k <= length rest /\
    match_at ic r (pos + k) (drop k rest) = Some mo /\
    forall j, j < k -> match_at ic r (pos + j) (drop j rest) = None.
Proof.
  induction rest as [|c t IH]; intros pos mo; cbn [search_from].
  - destruct (match_at ic r pos []) eqn:Hm; [|discriminate].
    intros [= <-]. exists 0. rewrite Nat.add_0_r. cbn. repeat split; auto; lia.
  - destruct (match_at ic r pos (c :: t)) eqn:Hm.
    + intros [= <-]. exists 0. rewrite Nat.add_0_r. cbn.
      repeat split; auto; lia.
    + intros H. apply IH in H as (k & Hk & Hmk & Hlt). exists (S k).
      cbn [length drop]. replace (pos + S k) with (S pos + k) by lia.
      repeat split; [lia|exact Hmk|]. intros [|j] Hj.
      * now rewrite Nat.add_0_r.
      * replace (pos + S j) with (S pos + j) by lia. cbn. apply Hlt. lia.
Qed.

Lemma search_from_none ic r : forall rest pos,
  search_from ic r pos rest = None <->
  forall k, k <= length rest -> match_at ic r (pos + k) (drop k rest) = None.
Proof.
  induction rest as [|c t IH]; intros pos; cbn [search_from].
  - destruct (match_at ic r pos []) eqn:Hm.
    + split; [discriminate|]. intros H. specialize (H 0 (Nat.le_refl _)).
      rewrite Nat.add_0_r in H. cbn in H. congruence.
    + split; [|reflexivity]. intros _ k Hk. cbn in Hk.
      assert (k = 0) as -> by lia. now rewrite Nat.add_0_r.
  - destruct (match_at ic r pos (c :: t)) eqn:Hm.
    + split; [discriminate|]. intros H. specialize (H 0 (Nat.le_0_l _)).
      rewrite Nat.add_0_r in H. cbn in H. congruence.
    + rewrite IH. split.
      * intros H [|k] Hk; [now rewrite Nat.add_0_r|].
        replace (pos + S k) with (S pos + k) by lia. cbn. apply H.
        cbn in Hk. lia.
      * intros H k Hk. specialize (H (S k)).
        replace (pos + S k) with (S pos + k) in H by lia. apply H. cbn. lia.
Qed.

(** A group that every match goes through can be read off any match
    object of [re_search] or [re_match]. *)
Lemma match_at_group ic r n pos rest mo :
  closes n r = true -> 1 <= n <= ngroups r ->
  match_at ic r pos rest = Some mo ->
  exists v, group (Some mo) n = Ok v.
Proof.
  intros Hcl Hn Hm. apply match_at_some in Hm as (st' & l & Hrun & ->).
  assert (Hin : In st' (run ic r (MState pos rest []))) by (rewrite Hrun; now left).
  apply (run_closes ic n r _ _ Hcl) in Hin.
  unfold group. cbn [mo_ngroups mo_caps]. destruct n as [|n]; [lia|].
  destruct (Nat.ltb_spec (ngroups r) (S n)); [lia|].
  destruct (cap_lookup (S n) (m_caps st')); [eauto|discriminate].
Qed.

Lemma search_group ic r n s mo :
  closes n r = true -> 1 <= n <= ngroups r ->
  re_search ic r s = Some mo ->
  exists v, group (Some mo) n = Ok v.
Proof.
  intros Hcl Hn Hs. apply search_from_some in Hs as (k & _ & Hm & _).
  eapply match_at_group; eauto.
Qed.
End RegexFacts.

(* ================================================================== *)
(** ** Facts about the program: loops, max, totality *)
(* ================================================================== *)

(** Reads group 1 off a successful search of a program pattern. *)
Ltac group_of H :=
  match type of H with
  | re_search ?ic ?r ?s = Some ?mo =>
      let v := fresh "g" in
      let Hv := fresh "Hg" in
      destruct (search_group ic r 1 s mo eq_refl ltac:(cbn; lia) H) as [v Hv];
      rewrite Hv; cbn [bind]
  end.

Section ProgramFacts.
Context `{U : unicode_tables}.

Lemma bind_ok {A B} (m : result A) (k : A -> result B) a :
  m = Ok a -> bind m k = k a.
Proof. now intros ->. Qed.

Lemma mapM_total {A B} (f : A -> result B) (l : list A) :
  (forall x, In x l -> exists y, f x = Ok y) -> exists ys, mapM f l = Ok ys.
Proof.
  induction l as [|x t IH]; intros H; cbn [mapM]; [eauto|].
  destruct (H x (or_introl eq_refl)) as [y ->].
  destruct IH as [ys ->]; [intros; apply H; now right|]. cbn. eauto.
Qed.

Lemma mapM_lookup {A B} (f : A -> result B) : forall (l : list A) ys,
  mapM f l = Ok ys ->
  length ys = length l /\
  forall i x, l !! i = Some x -> exists y, ys !! i = Some y /\ f x = Ok y.
Proof.
  induction l as [|x t IH]; intros ys; cbn [mapM].
  - intros [= <-]. split; [reflexivity|]. intros i x Hx. discriminate.
  - destruct (f x) as [y|e] eqn:Hy; [|discriminate]. cbn [bind].
    destruct (mapM f t) as [ys'|e] eqn:Ht; [|discriminate]. cbn [bind].
    intros [= <-]. destruct (IH _ eq_refl) as [Hlen Hl]. split.
    + cbn. now rewrite Hlen.
    + intros [|i] x' Hx'; cbn in *.
      * injection Hx' as <-. eauto.
      * apply Hl, Hx'.
Qed.

Lemma enumerate_from_lookup {A} (l : list A) : forall start i ia,
  enumerate_from start l !! i = Some ia ->
  fst ia = start + i /\ l !! i = Some (snd ia).
Proof.
  induction l as [|x t IH]; intros start i ia; cbn [enumerate_from].
  - discriminate.
  - destruct i as [|i]; cbn.
    + intros [= <-]. cbn. split; [lia|reflexivity].
    + intros H. apply IH in H as [H1 H2]. split; [lia|exact H2].
Qed.

Lemma enumerate_from_lookup_Some {A} (l : list A) : forall start i x,
  l !! i = Some x -> enumerate_from start l !! i = Some (start + i, x).
Proof.
  induction l as [|y t IH]; intros start i x; [discriminate|].
  destruct i as [|i]; cbn.
  - intros [= <-]. now rewrite Nat.add_0_r.
  - intros H. replace (start + S i) with (S start + i) by lia. apply IH, H.
Qed.

Lemma enumerate_from_length {A} (l : list A) : forall start,
  length (enumerate_from start l) = length l.
Proof. induction l; intros; cbn; auto. Qed.

Lemma index_ok {A} (l : list A) i : i < length l -> exists x, index l i = Ok x /\ l !! i = Some x.
Proof.
  intros Hi. unfold index. destruct (l !! i) as [x|] eqn:E; [eauto|].
  apply lookup_ge_None in E. lia.
Qed.

(** *** [max] *)

Lemma max_from_first_max {A} (key : A -> nat) : forall (l : list A) cur,
  first_max key (cur :: l) (max_from key cur l).
Proof.
  induction l as [|x t IH]; intros cur; cbn [max_from].
  - exists 0. cbn. split; [reflexivity|]. split.
    + intros y [<-|[]]. lia.
    + intros j y Hj. lia.
  - destruct (Nat.ltb_spec (key cur) (key x)) as [Hlt|Hge].
    + destruct (IH x) as (k & Hk & Hall & Hfirst). exists (S k). cbn.
      split; [exact Hk|]. split.
      * intros y [<-|Hy]; [|now apply Hall].
        specialize (Hall x (or_introl eq_refl)). lia.
      * intros [|j] y Hj; cbn.
        -- intros [= <-]. specialize (Hall x (or_introl eq_refl)). lia.
        -- intros Hy. eapply Hfirst; [|exact Hy]. lia.
    + destruct (IH cur) as (k & Hk & Hall & Hfirst).
      assert (Hcur : key cur <= key (max_from key cur t))
        by (apply Hall; now left).
      destruct k as [|k].
      * exists 0. cbn in *. split; [exact Hk|]. split.
        -- intros y [<-|[<-|Hy]]; [lia|lia|]. apply Hall. now right.
        -- intros j y Hj. lia.
      * exists (S (S k)). cbn in *. split; [exact Hk|]. split.
        -- intros y [<-|[<-|Hy]]; [lia|lia|]. apply Hall. now right.
        -- assert (Hc : key cur < key (max_from key cur t)).
           { apply (Hfirst 0 cur); [lia|reflexivity]. }
           intros [|[|j]] y Hj; cbn.
           ++ intros [= <-]. exact Hc.
           ++ intros [= <-]. lia.
           ++ intros Hy. apply (Hfirst (S j) y); [lia|exact Hy].
Qed.

Lemma py_max_first_max {A} (key : A -> nat) (l : list A) x :
  py_max key l = Ok x -> first_max key l x.
Proof.
  destruct l as [|y t]; cbn; [discriminate|]. intros [= <-].
  apply max_from_first_max.
Qed.

Lemma completeness_le_4 (f : partial_record) : completeness f <= 4.
Proof.
  unfold completeness. cbn [List.filter].
  repeat match goal with |- context [truthy ?s] => destruct (truthy s) end;
    cbn; lia.
Qed.

Lemma completeness_count (f : partial_record) :
  completeness f =
  Nat.b2n (truthy (name f)) + Nat.b2n (truthy (age f))
  + Nat.b2n (truthy (gender f)) + Nat.b2n (truthy (house_number f)).
Proof.
  unfold completeness. cbn [List.filter].
  repeat match goal with |- context [truthy ?s] => destruct (truthy s) end;
    reflexivity.
Qed.

(** *** Totality of the extraction functions *)

Lemma house_shape_groups h mo :
  re_match false RE_HOUSE_SHAPE h = Some mo ->
  exists num suf, group (Some mo) 1 = Ok num /\ group (Some mo) 2 = Ok suf /\
                  groups (Some mo) = Ok [num; suf].
Proof.
  intros Hm. unfold re_match in Hm.
  destruct (match_at_group false RE_HOUSE_SHAPE 1 0 h mo eq_refl
              ltac:(cbn; lia) Hm) as [num Hnum].
  destruct (match_at_group false RE_HOUSE_SHAPE 2 0 h mo eq_refl
              ltac:(cbn; lia) Hm) as [suf Hsuf].
  exists num, suf. repeat split; auto.
  apply match_at_some in Hm as (st' & l & _ & Hmo).
  unfold groups. replace (mo_ngroups mo) with 2 by (now subst mo).
  cbn [seq mapM]. rewrite Hnum, Hsuf. reflexivity.
Qed.

Lemma normalize_house_no_total h : exists v, normalize_house_no h = Ok v.
Proof.
  unfold normalize_house_no. destruct (truthy h); cbn [negb]; [|eauto].
  match goal with |- context [re_match false RE_HOUSE_SHAPE ?x] =>
    destruct (re_match false RE_HOUSE_SHAPE x) as [mo|] eqn:Hm end;
    cbn [is_some negb]; [|eauto].
  destruct (house_shape_groups _ _ Hm) as (num & suf & _ & _ & ->).
  cbn. eauto.
Qed.

(** The record [parse_block] builds, field by field. *)
Lemma parse_block_total block : exists r, parse_block block = Ok r.
Proof.
  unfold parse_block.
  destruct (re_search false RE_NAME block) as [m1|] eqn:H1; cbn [is_some];
    [group_of H1|cbn [bind]].
  all: destruct (re_search false RE_FATHER block) as [m2|] eqn:H2; cbn [is_some];
    [group_of H2|
     destruct (re_search false RE_HUSBAND block) as [m3|] eqn:H3; cbn [is_some];
     [group_of H3|
      destruct (re_search false RE_MOTHER block) as [m4|] eqn:H4; cbn [is_some];
      [group_of H4|cbn [bind]]]].
  all: destruct (re_search false RE_HOUSE block) as [m5|] eqn:H5; cbn [is_some];
    [group_of H5;
     match goal with |- context [normalize_house_no ?x] =>
       destruct (normalize_house_no_total x) as [hv ->] end; cbn [bind]
    |cbn [bind]].
  all: destruct (re_search false RE_GENDER block) as [m6|] eqn:H6; cbn [is_some];
    [group_of H6|cbn [bind]].
  all: destruct (re_search false RE_AGE block) as [m7|] eqn:H7; cbn [is_some];
    [group_of H7|cbn [bind]].
  all: eauto.
Qed.
End ProgramFacts.

Section BlockFacts.
Context `{U : unicode_tables}.

Lemma parse_block_fields block :
  exists r, parse_block block = Ok r /\
    name_field block r /\ relation_fields block r /\ house_field block r /\
    gender_field block r /\ age_field block r.
Proof.
  unfold parse_block, name_field, relation_fields, house_field, gender_field,
    age_field.
  destruct (re_search false RE_NAME block) as [m1|] eqn:H1; cbn [is_some];
    [group_of H1|cbn [bind]].
  all: destruct (re_search false RE_FATHER block) as [m2|] eqn:H2; cbn [is_some];
    [group_of H2|
     destruct (re_search false RE_HUSBAND block) as [m3|] eqn:H3; cbn [is_some];
     [group_of H3|
      destruct (re_search false RE_MOTHER block) as [m4|] eqn:H4; cbn [is_some];
      [group_of H4|cbn [bind]]]].
  all: destruct (re_search false RE_HOUSE block) as [m5|] eqn:H5; cbn [is_some];
    [group_of H5;
     match goal with |- context [normalize_house_no ?x] =>
       destruct (normalize_house_no_total x) as [hv Hhv]; rewrite Hhv end;
     cbn [bind]
    |cbn [bind]].
  all: destruct (re_search false RE_GENDER block) as [m6|] eqn:H6; cbn [is_some];
    [group_of H6|cbn [bind]].
  all: destruct (re_search false RE_AGE block) as [m7|] eqn:H7; cbn [is_some];
    [group_of H7|cbn [bind]].
  all: eexists; split; [reflexivity|]; cbn [name relation_type relation_name
         house_number gender age fst snd].
  all: repeat split; eauto.
  all: try (eexists; split; [reflexivity|];
            repeat match goal with |- context [if ?b then _ else _] =>
                     destruct b end; auto).
  all: repeat match goal with |- context [if ?b then _ else _] =>
                     destruct b end; auto.
Qed.
End BlockFacts.

(* ================================================================== *)
(** ** Pages and candidate selection *)
(* ================================================================== *)

Section PageFacts.
Context `{U : unicode_tables}.

Lemma nth_fst_lookup (ids : list (nat * str)) j p d :
  ids !! j = Some p -> nth j (map fst ids) d = fst p.
Proof.
  intros H. rewrite nth_lookup, list_lookup_fmap, H. reflexivity.
Qed.

Lemma parse_anchor_spec text_clean ids part sect page_num i pos vid :
  ids !! i = Some (pos, vid) ->
  exists v c1 c2 c3,
    parse_anchor text_clean ids part sect page_num (i, (pos, vid)) = Ok v /\
    voter_id v = vid /\ part_no v = part /\ section v = sect /\
    page v = page_num /\
    constituency v = lit "26-VELACHERY" /\
    parliamentary_constituency v = lit "3-CHENNAI SOUTH" /\
    parse_block (after_window text_clean ids i pos) = Ok c1 /\
    parse_block (before_window text_clean ids i pos) = Ok c2 /\
    parse_block (combined_window text_clean ids i pos) = Ok c3 /\
    first_max completeness [c1; c2; c3] (best v).
Proof.
  intros Hi. assert (Hlt : i < length ids) by (eapply lookup_lt_Some; eauto).
  unfold parse_anchor. cbn [fst snd].
  assert (Hprev : (if 0 <? i then p <- index ids (i - 1) ;; Ok (fst p) else Ok 0)
                  = Ok (prev_pos_of ids i)).
  { destruct i as [|j]; [reflexivity|]. cbn [Nat.ltb Nat.leb].
    replace (S j - 1) with j by lia.
    destruct (index_ok ids j ltac:(lia)) as (p & -> & Hp). cbn [bind].
    unfold prev_pos_of. now rewrite (nth_fst_lookup _ _ _ _ Hp). }
  assert (Hnext : (if i + 1 <? length ids then p <- index ids (i + 1) ;; Ok (fst p)
                   else Ok (length text_clean))
                  = Ok (next_pos_of text_clean ids i)).
  { unfold next_pos_of. replace (i + 1) with (S i) by lia.
    destruct (Nat.ltb_spec (S i) (length ids)) as [Hl|Hl].
    - destruct (index_ok ids (S i) Hl) as (p & -> & Hp). cbn [bind].
      now rewrite (nth_fst_lookup _ _ _ _ Hp).
    - rewrite nth_overflow; [reflexivity|]. rewrite length_map. lia. }
  rewrite Hprev, Hnext. cbn [bind].
  fold (after_window text_clean ids i pos).
  fold (before_window text_clean ids i pos).
  destruct (parse_block_total (after_window text_clean ids i pos)) as [c1 H1].
  destruct (parse_block_total (before_window text_clean ids i pos)) as [c2 H2].
  destruct (parse_block_total (combined_window text_clean ids i pos)) as [c3 H3].
  unfold combined_window in H3. rewrite H1, H2, H3. cbn [bind py_max].
  eexists _, c1, c2, c3. split; [reflexivity|].
  cbn [voter_id best part_no section page constituency
       parliamentary_constituency].
  repeat split; auto. apply max_from_first_max.
Qed.

Lemma parse_page_spec text page_num :
  let text_clean := re_sub false RE_BLANKS (lit " ") text in
  let ids := find_id_positions text_clean in
  exists voters, parse_page text page_num = Ok voters /\
    length voters = length ids /\
    forall i pos vid, ids !! i = Some (pos, vid) ->
      exists v c1 c2 c3,
        voters !! i = Some v /\ voter_id v = vid /\ page v = page_num /\
        parse_block (after_window text_clean ids i pos) = Ok c1 /\
        parse_block (before_window text_clean ids i pos) = Ok c2 /\
        parse_block (combined_window text_clean ids i pos) = Ok c3 /\
        first_max completeness [c1; c2; c3] (best v).
Proof.
  intros text_clean ids. unfold parse_page. fold text_clean. fold ids.
  set (part := if is_some (re_search false RE_PART text_clean) then _ else _).
  assert (Hpart : exists p, part = Ok p).
  { subst part. destruct (re_search false RE_PART text_clean) as [m|] eqn:Hm;
      cbn [is_some]; [|eauto].
    exact (search_group false RE_PART 1 _ m eq_refl ltac:(cbn; lia) Hm). }
  destruct Hpart as [p ->]. cbn [bind].
  set (sect := if is_some (re_search false RE_SECTION text_clean) then _ else _).
  assert (Hsect : exists s, sect = Ok s).
  { subst sect. destruct (re_search false RE_SECTION text_clean) as [m|] eqn:Hm;
      cbn [is_some]; [|eauto].
    destruct (search_group false RE_SECTION 1 _ m eq_refl ltac:(cbn; lia) Hm)
      as [g ->]. cbn. eauto. }
  destruct Hsect as [s ->]. cbn [bind].
  destruct (mapM_total (parse_anchor text_clean ids p s page_num) (enumerate ids))
    as [voters Hv].
  { intros [i [pos vid]] Hin. apply list_elem_of_In, list_elem_of_lookup in Hin.
    destruct Hin as [k Hk]. apply enumerate_from_lookup in Hk as [Hk1 Hk2].
    cbn in Hk1, Hk2. subst i.
    destruct (parse_anchor_spec text_clean ids p s page_num k pos vid Hk2)
      as (v & _ & _ & _ & Hpa & _). eauto. }
  exists voters. split; [exact Hv|].
  apply mapM_lookup in Hv as [Hlen Hl]. split.
  - rewrite Hlen. apply enumerate_from_length.
  - intros i pos vid Hi.
    destruct (Hl i (i, (pos, vid))) as (v & Hvi & Hpa).
    { apply (enumerate_from_lookup_Some ids 0 i (pos, vid) Hi). }
    destruct (parse_anchor_spec text_clean ids p s page_num i pos vid Hi)
      as (v' & c1 & c2 & c3 & Hpa' & Hid & _ & _ & Hpg & _ & _ & H1 & H2 & H3 & Hmax).
    rewrite Hpa in Hpa'. injection Hpa' as <-.
    exists v, c1, c2, c3. repeat split; auto.
Qed.

(** C3. For every anchor of every page, the record kept is the first of
    maximal completeness among the extractions from the after-window, the
    before-window and the combined window (before, line feed, after), taken
    in that order; and a completeness score is the number of non-empty
    values among name, age, gender and house number, hence at most 4. *)
Theorem C3_candidate_selection (text : str) (page_num : Z) :
  let text_clean := re_sub false RE_BLANKS (lit " ") text in
  let ids := find_id_positions text_clean in
  (exists voters, parse_page text page_num = Ok voters /\
    length voters = length ids /\
    forall i pos vid, ids !! i = Some (pos, vid) ->
      exists v c_after c_before c_both,
        voters !! i = Some v /\ voter_id v = vid /\
        parse_block (after_window text_clean ids i pos) = Ok c_after /\
        parse_block (before_window text_clean ids i pos) = Ok c_before /\
        parse_block (combined_window text_clean ids i pos) = Ok c_both /\
        first_max completeness [c_after; c_before; c_both] (best v)) /\
  (forall f : partial_record,
     completeness f =
       Nat.b2n (truthy (name f)) + Nat.b2n (truthy (age f))
       + Nat.b2n (truthy (gender f)) + Nat.b2n (truthy (house_number f)) /\
     0 <= completeness f <= 4).
Proof.
  intros text_clean ids. split.
  - destruct (parse_page_spec text page_num) as (voters & Hp & Hlen & Hall).
    exists voters. repeat split; auto. intros i pos vid Hi.
    destruct (Hall i pos vid Hi) as (v & c1 & c2 & c3 & H).
    exists v, c1, c2, c3. tauto.
  - intros f. split; [apply completeness_count|].
    split; [lia|apply completeness_le_4].
Qed.
End PageFacts.

(* ================================================================== *)
(** ** Literals and captured text *)
(* ================================================================== *)

Section LiteralFacts.
Context `{U : unicode_tables}.

(** A literal pattern consumes code points that match it one by one. *)
Lemma in_run_lit ic (s : str) : forall st st',
  In st' (run ic (re_lit s) st) <->
  m_caps st' = m_caps st /\
  exists pre, consumed st st' pre /\
    Forall2 (fun c l => atom_match ic (ALit l) c = true) pre s.
Proof.
  induction s as [|l s IH]; intros st st'; cbn [re_lit].
  - rewrite in_run_eps. split.
    + intros ->. split; [reflexivity|]. exists []. split; [apply consumed_refl|constructor].
    + intros (Hc & pre & [Hr Hp] & Hall). inversion Hall; subst. cbn in *.
      rewrite <- (mstate_eta st'), <- (mstate_eta st). f_equal; auto. lia.
  - rewrite in_run_seq. split.
    + intros (mid & H1 & H2). apply in_run_atom in H1 as (c & Hr & Hm & Hp & Hc).
      apply IH in H2 as (Hc2 & pre & Hcons & Hall). split; [congruence|].
      exists (c :: pre). split; [|now constructor].
      apply (consumed_trans st mid st' [c] pre); [|exact Hcons].
      split; cbn; [exact Hr|lia].
    + intros (Hc & pre & [Hr Hp] & Hall). inversion Hall as [|c l' pre' s' Hm Hall']; subst.
      exists (MState (S (m_pos st)) (pre' ++ m_rest st') (m_caps st)). split.
      * apply in_run_atom. exists c. cbn. auto.
      * apply IH. cbn. split; [exact Hc|]. exists pre'. split; [|exact Hall'].
        split; cbn; [reflexivity|]. cbn in Hp. lia.
Qed.

Lemma Forall2_eqb_eq (pre s : str) :
  Forall2 (fun c l => atom_match false (ALit l) c = true) pre s -> pre = s.
Proof.
  induction 1 as [|c l pre s Hm _ IH]; [reflexivity|].
  cbn in Hm. apply N.eqb_eq in Hm. congruence.
Qed.

Lemma Forall2_eqb_refl (s : str) :
  Forall2 (fun c l => atom_match false (ALit l) c = true) s s.
Proof. induction s; constructor; auto. cbn. apply N.eqb_refl. Qed.

(** Without IGNORECASE a literal pattern consumes exactly its text. *)
Lemma in_run_lit_exact (s : str) st st' :
  In st' (run false (re_lit s) st) <->
  m_caps st' = m_caps st /\ consumed st st' s.
Proof.
  rewrite in_run_lit. split.
  - intros (Hc & pre & Hcons & Hall). apply Forall2_eqb_eq in Hall. now subst.
  - intros (Hc & Hcons). split; [exact Hc|]. exists s. split; [exact Hcons|].
    apply Forall2_eqb_refl.
Qed.

Lemma consumed_take st st' pre :
  consumed st st' pre -> take (m_pos st' - m_pos st) (m_rest st) = pre.
Proof.
  intros [Hr Hp]. rewrite Hr, Hp.
  replace (m_pos st + length pre - m_pos st) with (length pre) by lia.
  now rewrite take_app_length.
Qed.

(** The text a group captures is the text its body consumed. *)
Lemma in_run_group_text ic n r st st' :
  In st' (run ic (RGroup n r) st) ->
  exists pre, consumed st st' pre /\ cap_lookup n (m_caps st') = Some pre.
Proof.
  intros Hin. apply in_run_group in Hin as (inner & Hin & Hp & Hr & Hc).
  destruct (run_consumed ic r _ _ Hin) as [pre Hcons]. exists pre. split.
  - destruct Hcons as [H1 H2]. split; congruence.
  - rewrite Hc. cbn [cap_lookup]. rewrite Nat.eqb_refl.
    now rewrite (consumed_take _ _ _ Hcons).
Qed.

Lemma group_of_caps mo n v :
  group (Some mo) (S n) = Ok v -> cap_lookup (S n) (mo_caps mo) = Some v.
Proof.
  cbn [group]. destruct (mo_ngroups mo <? S n); [discriminate|].
  destruct (cap_lookup (S n) (mo_caps mo)); [|discriminate]. congruence.
Qed.

(** Every match found by [re_search] is one of the results of [run] at some
    offset of the subject. *)
Lemma search_some_run ic r s mo :
  re_search ic r s = Some mo ->
  exists k st', k <= length s /\
    In st' (run ic r (MState k (drop k s) [])) /\
    mo_start mo = k /\ mo_end mo = m_pos st' /\ mo_caps mo = m_caps st' /\
    mo_ngroups mo = ngroups r.
Proof.
  intros Hs. apply search_from_some in Hs as (k & Hk & Hm & _). cbn in Hm.
  apply match_at_some in Hm as (st' & l & Hrun & ->). exists k, st'.
  rewrite Hrun. cbn. repeat split; auto.
Qed.

(** The gender pattern captures one of its four tokens. *)
Lemma gender_token block mo g :
  re_search false RE_GENDER block = Some mo ->
  group (Some mo) 1 = Ok g ->
  In g [lit "Male"; lit "Female"; TAMIL_MALE; TAMIL_FEMALE].
Proof.
  intros Hs Hg. apply group_of_caps in Hg.
  apply search_some_run in Hs as (k & st' & _ & Hin & _ & _ & Hc & _).
  rewrite Hc in Hg. clear Hc. unfold RE_GENDER in Hin.
  apply in_run_seq in Hin as (mid1 & _ & Hin).
  apply in_run_seq in Hin as (mid2 & _ & Hin).
  apply in_run_group in Hin as (inner & Hin & _ & _ & Hc).
  rewrite Hc in Hg. cbn [cap_lookup Nat.eqb] in Hg. injection Hg as <-.
  assert (Htok : forall tok, In inner (run false (re_lit tok) mid2) ->
            take (m_pos inner - m_pos mid2) (m_rest mid2) = tok).
  { intros tok H. apply in_run_lit_exact in H as [_ H].
    now apply consumed_take. }
  apply in_run_alt in Hin as [H|Hin]; [rewrite (Htok _ H); cbn; auto|].
  apply in_run_alt in Hin as [H|Hin]; [rewrite (Htok _ H); cbn; auto|].
  apply in_run_alt in Hin as [H|H]; rewrite (Htok _ H); cbn; auto.
Qed.
End LiteralFacts.

(* ================================================================== *)
(** ** Fields of a parsed block *)
(* ================================================================== *)

Lemma ascii_tables_exact : ascii_exact ascii_tables.
Proof. split; reflexivity. Qed.

Section SubstringFacts.
Context `{U : unicode_tables}.

Lemma is_prefix_app (p s : str) : is_prefix p (p ++ s) = true.
Proof. induction p; cbn; [reflexivity|]. now rewrite N.eqb_refl. Qed.

Lemma is_prefix_inv (p : str) : forall s,
  is_prefix p s = true -> exists t, s = p ++ t.
Proof.
  induction p as [|a p IH]; intros s H; cbn in H; [eauto|].
  destruct s as [|b s]; [discriminate|]. apply andb_prop in H as [Hab H].
  apply N.eqb_eq in Hab as ->. apply IH in H as [t ->]. eauto.
Qed.

Lemma contains_app (p x y : str) : contains p (x ++ p ++ y) = true.
Proof.
  induction x as [|c x IH]; cbn [app].
  - destruct (p ++ y) eqn:E; cbn [contains]; rewrite <- E, is_prefix_app; reflexivity.
  - cbn [contains]. rewrite IH. apply orb_true_r.
Qed.

Lemma contains_inv (p : str) : forall s,
  contains p s = true -> exists x y, s = x ++ p ++ y.
Proof.
  induction s as [|c s IH]; cbn [contains]; intros H.
  - rewrite orb_false_r in H. apply is_prefix_inv in H as [t ->]. now exists [], t.
  - apply orb_prop in H as [H|H].
    + apply is_prefix_inv in H as [t ->]. now exists [], t.
    + apply IH in H as (x & y & ->). now exists (c :: x), y.
Qed.

(** Whatever [run] consumed from an offset of [s] is a substring of [s]. *)
Lemma consumed_contains (s : str) k st st' pre :
  m_rest st = drop k s -> consumed st st' pre -> contains pre s = true.
Proof.
  intros Hr [Hc _]. rewrite <- (take_drop k s), <- Hr, Hc. apply contains_app.
Qed.

Lemma consumed_suffix (s : str) k st st' pre :
  m_rest st = drop k s -> consumed st st' pre ->
  exists k', m_rest st' = drop k' s.
Proof.
  intros Hr [Hc _]. exists (k + length pre).
  rewrite <- drop_drop, <- Hr, Hc. now rewrite drop_app_length.
Qed.

(** The gender token is spelled out in the window, in that very case. *)
Lemma gender_token_present block mo g :
  re_search false RE_GENDER block = Some mo ->
  group (Some mo) 1 = Ok g ->
  contains (lit "Gender") block = true /\ contains g block = true.
Proof.
  intros Hs Hg. apply group_of_caps in Hg.
  apply search_some_run in Hs as (k & st' & _ & Hin & _ & _ & Hc & _).
  rewrite Hc in Hg. clear Hc. unfold RE_GENDER in Hin.
  apply in_run_seq in Hin as (mid1 & H1 & Hin).
  apply in_run_seq in Hin as (mid2 & H2 & Hin).
  apply in_run_lit_exact in H1 as [_ H1]. split.
  - eapply (consumed_contains block k); [|exact H1]. reflexivity.
  - assert (Hk1 : exists k1, m_rest mid1 = drop k1 block).
    { eapply (consumed_suffix block k); [|exact H1]. reflexivity. }
    destruct Hk1 as [k1 Hk1].
    destruct (run_consumed _ _ _ _ H2) as [p2 Hp2].
    destruct (consumed_suffix block k1 _ _ _ Hk1 Hp2) as [k2 Hk2].
    destruct (in_run_group_text _ _ _ _ _ Hin) as (pre & Hcons & Hcap).
    rewrite Hcap in Hg. injection Hg as <-.
    eapply consumed_contains; eauto.
Qed.
End SubstringFacts.

Section BlockTheorems.
Context `{U : unicode_tables}.

(** C7 (amended). For every window [parse_block] returns a record whose
    relation type is S/O, W/O, C/O or empty, and whose relation name is
    empty whenever the type is: there is never a relation name without a
    type.  (A type without a name is possible: see the counterexample.) *)
Theorem C7_relation_name_needs_type (window : str) :
  exists r, parse_block window = Ok r /\
    In (relation_type r) [lit "S/O"; lit "W/O"; lit "C/O"; []] /\
    (relation_type r = [] -> relation_name r = []) /\
    (relation_name r <> [] -> relation_type r <> []).
Proof.
  destruct (parse_block_fields window) as (r & Hr & _ & Hrel & _).
  exists r. split; [exact Hr|]. unfold relation_fields in Hrel.
  destruct (re_search false RE_FATHER window);
    [|destruct (re_search false RE_HUSBAND window);
      [|destruct (re_search false RE_MOTHER window)]].
  1-3: destruct Hrel as (g & _ & Ht & _); rewrite Ht; cbn;
       repeat split; auto; discriminate.
  destruct Hrel as [Ht Hn]. rewrite Ht, Hn. cbn. repeat split; auto; congruence.
Qed.

(** C9. The extraction functions return on every string and never raise:
    [normalize_house_no], [parse_block] and [parse_page] always produce
    [Ok]; [clean] and [completeness] hold no raising operation at all.  A
    field whose label is absent from the window is empty, and a page
    without anchors yields the empty sequence. *)
Theorem C9_extraction_is_total :
  (forall s, exists v, clean s = v) /\
  (forall h, exists v, normalize_house_no h = Ok v) /\
  (forall f, exists n, completeness f = n) /\
  (forall block, exists r, parse_block block = Ok r /\
     (re_search false RE_NAME block = None -> name r = []) /\
     (re_search false RE_FATHER block = None ->
      re_search false RE_HUSBAND block = None ->
      re_search false RE_MOTHER block = None ->
      relation_type r = [] /\ relation_name r = []) /\
     (re_search false RE_HOUSE block = None -> house_number r = []) /\
     (re_search false RE_AGE block = None -> age r = []) /\
     (re_search false RE_GENDER block = None -> gender r = [])) /\
  (forall text page_num, exists voters, parse_page text page_num = Ok voters /\
     (find_id_positions (re_sub false RE_BLANKS (lit " ") text) = [] ->
      voters = [])).
Proof.
  split; [eauto|]. split; [apply normalize_house_no_total|].
  split; [eauto|]. split.
  - intros block.
    destruct (parse_block_fields block) as (r & Hr & Hn & Hrel & Hh & Hg & Ha).
    exists r. split; [exact Hr|].
    unfold name_field, relation_fields, house_field, gender_field, age_field in *.
    repeat split.
    + intros H. now rewrite H in Hn.
    + rewrite H, H0, H1 in Hrel. tauto.
    + rewrite H, H0, H1 in Hrel. tauto.
    + intros H. now rewrite H in Hh.
    + intros H. now rewrite H in Ha.
    + intros H. now rewrite H in Hg.
  - intros text page_num.
    destruct (parse_page_spec text page_num) as (voters & Hp & Hlen & _).
    exists voters. split; [exact Hp|]. intros Hnil. rewrite Hnil in Hlen.
    now destruct voters.
Qed.
End BlockTheorems.

Section GenderTheorem.
Context `{U : unicode_tables} `{!ascii_exact U}.

Lemma capitalize_Male : capitalize (lit "Male") = lit "Male".
Proof. unfold capitalize. cbn [is_empty lit]. now rewrite capitalize_ascii. Qed.

Lemma capitalize_Female : capitalize (lit "Female") = lit "Female".
Proof. unfold capitalize. cbn [is_empty lit]. now rewrite capitalize_ascii. Qed.

(** C6 (amended). For every window the extracted gender is Male, Female or
    empty.  It is empty when the gender pattern finds nothing; otherwise the
    pattern has captured one of the two English tokens or the two Tamil
    tokens, spelled in the window exactly so (the match is case-sensitive):
    the Tamil male token and Male give Male, the Tamil female token and
    Female give Female. *)
Theorem C6_gender_values (window : str) :
  exists r, parse_block window = Ok r /\
    (gender r = lit "Male" \/ gender r = lit "Female" \/ gender r = []) /\
    match re_search false RE_GENDER window with
    | None => gender r = []
    | Some m =>
        exists tok, group (Some m) 1 = Ok tok /\
          contains (lit "Gender") window = true /\
          contains tok window = true /\
          (tok = lit "Male" /\ gender r = lit "Male" \/
           tok = TAMIL_MALE /\ gender r = lit "Male" \/
           tok = lit "Female" /\ gender r = lit "Female" \/
           tok = TAMIL_FEMALE /\ gender r = lit "Female")
    end.
Proof.
  destruct (parse_block_fields window) as (r & Hr & _ & _ & _ & Hg & _).
  exists r. split; [exact Hr|]. unfold gender_field in Hg.
  destruct (re_search false RE_GENDER window) as [m|] eqn:Hs; [|auto].
  destruct Hg as (tok & Htok & Hgen).
  destruct (gender_token_present _ _ _ Hs Htok) as [Hlab Hpres].
  pose proof (gender_token _ _ _ Hs Htok) as Hin.
  assert (Hcases :
    tok = lit "Male" /\ gender r = lit "Male" \/
    tok = TAMIL_MALE /\ gender r = lit "Male" \/
    tok = lit "Female" /\ gender r = lit "Female" \/
    tok = TAMIL_FEMALE /\ gender r = lit "Female").
  { destruct Hin as [<-|[<-|[<-|[<-|[]]]]]; rewrite Hgen.
    - left. split; [reflexivity|]. cbn [str_eqb]. 
      change (str_eqb (lit "Male") TAMIL_MALE) with false.
      change (str_eqb (lit "Male") TAMIL_FEMALE) with false.
      cbv iota. apply capitalize_Male.
    - right; right; left. split; [reflexivity|].
      change (str_eqb (lit "Female") TAMIL_MALE) with false.
      change (str_eqb (lit "Female") TAMIL_FEMALE) with false.
      cbv iota. apply capitalize_Female.
    - right; left. split; reflexivity.
    - right; right; right. split; reflexivity. }
  split.
  - destruct Hcases as [[_ ->]|[[_ ->]|[[_ ->]|[_ ->]]]]; auto.
  - exists tok. auto.
Qed.
End GenderTheorem.

(* ================================================================== *)
(** ** The cleaning loop *)
(* ================================================================== *)

Section CleaningFacts.
Context `{U : unicode_tables}.

Lemma filter_filter_and {A} (p q : A -> bool) (l : list A) :
  List.filter p (List.filter q l) = List.filter (fun x => p x && q x) l.
Proof.
  induction l as [|x t IH]; cbn; [reflexivity|].
  destruct (q x); cbn; rewrite ?andb_true_r, ?andb_false_r.
  - destruct (p x); now rewrite IH.
  - exact IH.
Qed.

Lemma filter_sublist {A} (p : A -> bool) (l : list A) :
  sublist (List.filter p l) l.
Proof.
  induction l as [|x t IH]; cbn; [constructor|].
  destruct (p x); now constructor.
Qed.

Lemma map_sublist {A B} (f : A -> B) (l k : list A) :
  sublist l k -> sublist (map f l) (map f k).
Proof. induction 1; cbn; now constructor. Qed.

Lemma first_per_key_sublist rows : sublist (first_per_key rows) rows.
Proof.
  induction rows as [|r t IH]; cbn; [constructor|]. constructor.
  etrans; [apply filter_sublist|exact IH].
Qed.

Lemma spec_cleaned_sublist rows : sublist (spec_cleaned rows) rows.
Proof.
  unfold spec_cleaned. etrans; [apply first_per_key_sublist|apply filter_sublist].
Qed.

Lemma first_per_key_keys_nodup rows : NoDup (map dedup_key (first_per_key rows)).
Proof.
  induction rows as [|r t IH]; cbn [first_per_key map]; [constructor|].
  constructor.
  - intros Hin. apply list_elem_of_In, in_map_iff in Hin as (x & Hk & Hx).
    apply filter_In in Hx as [_ Hx]. unfold other_key in Hx.
    rewrite bool_decide_eq_true_2 in Hx by exact Hk. discriminate.
  - eapply sublist_NoDup; [exact IH|apply map_sublist, filter_sublist].
Qed.

Lemma first_per_key_covers rows r :
  In r rows -> exists r', In r' (first_per_key rows) /\ dedup_key r' = dedup_key r.
Proof.
  induction rows as [|x t IH]; [intros []|]. intros [->|Hin].
  - exists r. split; [now left|reflexivity].
  - destruct (IH Hin) as (r' & Hr' & Hk). cbn [first_per_key].
    destruct (decide (dedup_key r' = dedup_key x)) as [He|Hne].
    + exists x. split; [now left|congruence].
    + exists r'. split; [|exact Hk]. right. apply filter_In. split; [exact Hr'|].
      unfold other_key. now rewrite bool_decide_eq_false_2.
Qed.

(** The loop keeps, of what the specification keeps, the records whose key
    has not been seen yet. *)
Lemma cleaning_loop_spec rows : forall seen cleaned,
  cleaning_loop rows seen cleaned =
  cleaned ++ List.filter (fun x => negb (bool_decide (dedup_key x ∈ seen)))
                         (spec_cleaned rows).
Proof.
  induction rows as [|r t IH]; intros seen cleaned; cbn [cleaning_loop].
  - cbn. now rewrite app_nil_r.
  - unfold spec_cleaned. cbn [List.filter]. unfold has_name_and_house at 1.
    destruct (truthy (strip (name (best r)))); cbn [negb orb andb];
      [|apply IH].
    destruct (truthy (strip (house_number (best r)))); cbn [negb orb andb];
      [|apply IH].
    cbn [first_per_key List.filter]. fold (dedup_key r). fold (spec_cleaned t).
    rewrite filter_filter_and.
    destruct (bool_decide (dedup_key r ∈ seen)) eqn:Hseen; cbn [negb].
    + rewrite IH. f_equal. apply filter_ext. intros x. unfold other_key.
      apply bool_decide_eq_true in Hseen.
      destruct (bool_decide (dedup_key x ∈ seen)) eqn:Hx; cbn; [reflexivity|].
      apply bool_decide_eq_false in Hx. rewrite bool_decide_eq_false_2; [reflexivity|].
      intros He. rewrite He in Hx. contradiction.
    + rewrite IH, <- app_assoc. cbn [app]. do 2 f_equal.
      apply filter_ext. intros x. unfold other_key.
      destruct (decide (dedup_key x = dedup_key r)) as [He|Hne].
      * rewrite (bool_decide_eq_true_2 _ He), andb_false_r.
        rewrite bool_decide_eq_true_2; [reflexivity|]. rewrite He.
        apply elem_of_union. left. now apply elem_of_singleton.
      * rewrite (bool_decide_eq_false_2 _ Hne), andb_true_r. f_equal.
        apply bool_decide_ext. rewrite elem_of_union, elem_of_singleton. tauto.
Qed.

Lemma strip_nil : strip [] = [].
Proof. reflexivity. Qed.

(** C2. For every sequence of parsed records the cleaned output is the
    specification's: the records with non-empty trimmed name and house
    number, first of each key (upper-cased trimmed name, trimmed house
    number) only, whatever the voter_id or page of the later ones.  It is a
    subsequence of the input in encounter order, no two of its records share
    a key, every key of a complete input record is represented, and no
    record in it has an empty name or house number. *)
Theorem C2_cleaning_keeps_first_complete_per_key (rows : list voter_record) :
  cleaning rows = spec_cleaned rows /\
  sublist (cleaning rows) rows /\
  NoDup (map dedup_key (cleaning rows)) /\
  (forall r, In r rows -> has_name_and_house r = true ->
     exists r', In r' (cleaning rows) /\ dedup_key r' = dedup_key r) /\
  (forall r, In r (cleaning rows) ->
     strip (name (best r)) <> [] /\ strip (house_number (best r)) <> [] /\
     name (best r) <> [] /\ house_number (best r) <> []).
Proof.
  assert (Heq : cleaning rows = spec_cleaned rows).
  { unfold cleaning. rewrite cleaning_loop_spec. cbn [app].
    rewrite <- (filter_ext (fun _ => true)).
    - clear. induction (spec_cleaned rows); cbn; congruence.
    - intros x. rewrite bool_decide_eq_false_2; [reflexivity|].
      apply not_elem_of_empty. }
  rewrite Heq. split; [reflexivity|]. split; [apply spec_cleaned_sublist|].
  split; [apply first_per_key_keys_nodup|]. split.
  - intros r Hin Hc. apply first_per_key_covers, filter_In. auto.
  - intros r Hin.
    assert (Hr : In r (List.filter has_name_and_house rows)).
    { apply list_elem_of_In.
      apply (sublist_subseteq _ _ (first_per_key_sublist _)).
      now apply list_elem_of_In. }
    apply filter_In in Hr as [_ Hc]. unfold has_name_and_house in Hc.
    apply andb_prop in Hc as [Hn Hh]. unfold truthy in Hn, Hh.
    repeat split; intros He; rewrite ?He in *; cbn in *; discriminate.
Qed.
End CleaningFacts.

(* ================================================================== *)
(** ** House numbers *)
(* ================================================================== *)

Section HouseFacts.
Context `{U : unicode_tables}.

Lemma take_drop_while (p : char -> bool) (s : str) :
  take_while p s ++ drop_while p s = s.
Proof. induction s as [|c t IH]; cbn; [reflexivity|]. destruct (p c); cbn; congruence. Qed.

Lemma take_while_all (p : char -> bool) (s : str) :
  forallb p (take_while p s) = true.
Proof. induction s as [|c t IH]; cbn; [reflexivity|]. destruct (p c) eqn:E; cbn; [now rewrite E|reflexivity]. Qed.

Lemma span_unique (p : char -> bool) (a : str) : forall b,
  forallb p a = true ->
  match b with [] => True | c :: _ => p c = false end ->
  take_while p (a ++ b) = a /\ drop_while p (a ++ b) = b.
Proof.
  induction a as [|x a IH]; intros b Ha Hb; cbn [app].
  - destruct b as [|c b]; cbn; [auto|]. now rewrite Hb.
  - cbn in Ha. apply andb_prop in Ha as [Hx Ha]. cbn. rewrite Hx.
    destruct (IH b Ha Hb) as [-> ->]. auto.
Qed.

(** A group around a repetition captures what the repetition consumed. *)
Lemma in_run_group_rep ic n g lo hi a st st' :
  In st' (run ic (RGroup n (RRep g lo hi a)) st) <->
  exists pre, consumed st st' pre /\
    forallb (atom_match ic a) pre = true /\ lo <= length pre /\
    (forall h, hi = Some h -> length pre <= h) /\
    m_caps st' = (n, pre) :: m_caps st.
Proof.
  rewrite in_run_group. split.
  - intros (inner & Hin & Hp & Hr & Hc).
    apply in_run_rep in Hin as (Hci & pre & H1 & H2 & H3 & H4 & H5).
    exists pre. assert (Hcons : consumed st st' pre) by (split; congruence).
    repeat split; auto; try apply Hcons.
    rewrite Hc, Hci, <- Hp. now rewrite (consumed_take _ _ _ Hcons).
  - intros (pre & Hcons & Hall & Hlo & Hhi & Hc).
    exists (MState (m_pos st') (m_rest st') (m_caps st)). cbn.
    repeat split; auto.
    + apply in_run_rep. cbn. split; [reflexivity|]. exists pre.
      destruct Hcons. repeat split; auto.
    + now rewrite Hc, (consumed_take _ _ _ Hcons).
Qed.

Lemma house_num_match c : atom_match false HOUSE_NUM c = digit_or_slash c.
Proof.
  unfold digit_or_slash, ascii_is_digit. cbn.
  now rewrite orb_false_r.
Qed.

Lemma house_suf_match c : atom_match false HOUSE_SUF c = ascii_letter c.
Proof.
  unfold ascii_letter, ascii_is_upper, ascii_is_lower. cbn.
  now rewrite orb_false_r.
Qed.

Lemma forallb_ext_eq {A} (p q : A -> bool) (l : list A) :
  (forall x, p x = q x) -> forallb p l = forallb q l.
Proof. intros H. induction l; cbn; [reflexivity|]. now rewrite H, IHl. Qed.

(** The matches of the validation pattern at offset 0. *)
Lemma house_shape_run h st' :
  In st' (run false RE_HOUSE_SHAPE (MState 0 h [])) <->
  exists num suf tail,
    h = num ++ suf ++ tail /\ num <> [] /\
    forallb digit_or_slash num = true /\
    forallb ascii_letter suf = true /\ length suf <= 1 /\
    (tail = [] \/ tail = [LF]) /\
    m_caps st' = [(2, suf); (1, num)] /\
    m_rest st' = tail /\ m_pos st' = length num + length suf.
Proof.
  unfold RE_HOUSE_SHAPE. split.
  - intros Hin. apply in_run_seq in Hin as (m0 & H0 & Hin).
    apply in_run_bol in H0 as [-> _].
    apply in_run_seq in Hin as (m1 & H1 & Hin).
    apply in_run_seq in Hin as (m2 & H2 & Hin).
    apply in_run_eol in Hin as [-> Hend].
    apply in_run_group_rep in H1 as (num & [Hr1 Hp1] & Ha1 & Hl1 & _ & Hc1).
    apply in_run_group_rep in H2 as (suf & [Hr2 Hp2] & Ha2 & _ & Hh2 & Hc2).
    cbn in Hr1, Hp1, Hc1. exists num, suf, (m_rest m2).
    rewrite (forallb_ext_eq _ _ _ house_num_match) in Ha1.
    rewrite (forallb_ext_eq _ _ _ house_suf_match) in Ha2.
    repeat split; auto.
    + now rewrite Hr1, Hr2.
    + intros ->. cbn in Hl1. lia.
    + rewrite Hc2, Hc1. reflexivity.
    + lia.
  - intros (num & suf & tail & -> & Hne & Ha1 & Ha2 & Hl2 & Hend & Hc & Hr & Hp).
    apply in_run_seq. exists (MState 0 (num ++ suf ++ tail) []). split.
    { apply in_run_bol. auto. }
    apply in_run_seq. exists (MState (length num) (suf ++ tail) [(1, num)]). split.
    { apply in_run_group_rep. exists num. cbn.
      rewrite (forallb_ext_eq _ _ _ house_num_match).
      repeat split; auto; try discriminate.
      destruct num; [congruence|cbn; lia]. }
    apply in_run_seq. exists st'. split.
    { apply in_run_group_rep. exists suf. cbn.
      rewrite (forallb_ext_eq _ _ _ house_suf_match).
      repeat split; auto; try lia; try congruence.
      cbn. now rewrite Hr. }
    apply in_run_eol. split; [reflexivity|]. rewrite Hr. exact Hend.
Qed.
End HouseFacts.

Section HouseTheorem.
Context `{U : unicode_tables}.

Lemma house_match_some h mo :
  re_match false RE_HOUSE_SHAPE h = Some mo ->
  exists num suf tail, house_parts h num suf tail /\
    groups (Some mo) = Ok [num; suf].
Proof.
  intros Hm. apply match_at_some in Hm as (st' & l & Hrun & ->).
  assert (Hin : In st' (run false RE_HOUSE_SHAPE (MState 0 h [])))
    by (rewrite Hrun; now left).
  apply house_shape_run in Hin
    as (num & suf & tail & H1 & H2 & H3 & H4 & H5 & H6 & Hc & _).
  exists num, suf, tail. split; [repeat split; assumption|].
  unfold groups. cbn [mo_ngroups]. change (ngroups RE_HOUSE_SHAPE) with 2.
  cbn [seq mapM group mo_ngroups mo_caps]. rewrite Hc. reflexivity.
Qed.

Lemma house_match_none h num suf tail :
  re_match false RE_HOUSE_SHAPE h = None -> ~ house_parts h num suf tail.
Proof.
  intros Hm (H1 & H2 & H3 & H4 & H5 & H6). apply match_at_none in Hm.
  assert (Hin : In (MState (length num + length suf) tail [(2, suf); (1, num)])
                   (run false RE_HOUSE_SHAPE (MState 0 h []))).
  { apply house_shape_run. exists num, suf, tail. cbn. repeat split; auto. }
  rewrite Hm in Hin. exact Hin.
Qed.

Lemma letter_not_digit_or_slash (c : N) :
  ascii_letter c = true -> digit_or_slash c = false.
Proof.
  unfold ascii_letter, digit_or_slash, ascii_is_upper, ascii_is_lower,
    ascii_is_digit. change (code "/") with 47%N.
  destruct (N.leb_spec 48 c), (N.leb_spec c 57), (N.eqb_spec c 47),
    (N.leb_spec 65 c), (N.leb_spec c 90), (N.leb_spec 97 c), (N.leb_spec c 122);
    cbn; intros Hletter; try reflexivity; try discriminate; exfalso; lia.
Qed.

Lemma toupper_is_upper (c : N) :
  ascii_letter c = true -> ascii_is_upper (ascii_toupper c) = true.
Proof.
  unfold ascii_letter, ascii_toupper, ascii_is_upper, ascii_is_lower.
  destruct (N.leb_spec 97 c), (N.leb_spec c 122); cbn [andb]; intros Hletter.
  - apply andb_true_intro. split; apply N.leb_le; lia.
  - now rewrite orb_false_r in Hletter.
  - now rewrite orb_false_r in Hletter.
  - now rewrite orb_false_r in Hletter.
Qed.

Lemma upper_is_letter c : ascii_is_upper c = true -> ascii_letter c = true.
Proof. unfold ascii_letter. now intros ->. Qed.

(** The parts of a matching subject are its leading run of digits and
    slashes and what follows it. *)
Lemma house_parts_span h num suf tail :
  house_parts h num suf tail ->
  take_while digit_or_slash h = num /\ drop_while digit_or_slash h = suf ++ tail.
Proof.
  intros (-> & _ & Hn & Hs & Hl & Ht). apply span_unique; [exact Hn|].
  destruct suf as [|c suf]; cbn.
  - destruct Ht as [->| ->]; cbn; auto.
  - cbn in Hs. apply andb_prop in Hs as [Hc _].
    now apply letter_not_digit_or_slash.
Qed.

Lemma last_app_LF (a : str) : last (a ++ [LF]) = Some LF.
Proof. apply last_snoc. Qed.

Lemma house_shape_parts h :
  house_shape ascii_letter h = true ->
  house_parts h (take_while digit_or_slash h) (drop_while digit_or_slash h) [].
Proof.
  unfold house_shape. intros H. apply andb_prop in H as [Hn Hs].
  unfold house_parts. rewrite app_nil_r, take_drop_while.
  split; [reflexivity|]. split.
  { intros He. rewrite He in Hn. discriminate. }
  split; [apply take_while_all|].
  destruct (drop_while digit_or_slash h) as [|c [|c' t]]; cbn;
    [auto| |discriminate].
  rewrite Hs. auto.
Qed.

Lemma house_parts_shape letter h num suf :
  house_parts h num suf [] -> forallb letter suf = true ->
  house_shape letter h = true.
Proof.
  intros Hp Hl. destruct (house_parts_span _ _ _ _ Hp) as [Ht Hd].
  unfold house_shape. rewrite Ht, Hd, app_nil_r.
  destruct Hp as (_ & Hne & _ & _ & Hlen & _).
  destruct num as [|d0 num]; [congruence|]. cbn [is_empty negb andb].
  destruct suf as [|c [|c' t]]; cbn in *; [reflexivity| |lia].
  now rewrite andb_true_r in Hl.
Qed.

Context `{!ascii_exact U}.

Lemma upper_letters (s : str) :
  forallb ascii_letter s = true -> upper s = map ascii_toupper s.
Proof.
  unfold upper. induction s as [|c t IH]; cbn; [reflexivity|]. intros H.
  apply andb_prop in H as [Hc Ht]. rewrite (upper_ascii_letter c Hc), IH by exact Ht.
  reflexivity.
Qed.

Lemma normalize_house_no_cases raw :
  (raw = [] /\ normalize_house_no raw = Ok []) \/
  (raw <> [] /\ re_match false RE_HOUSE_SHAPE (house_prepared raw) = None /\
   normalize_house_no raw = Ok []) \/
  (raw <> [] /\ exists num suf tail,
     house_parts (house_prepared raw) num suf tail /\
     normalize_house_no raw = Ok (num ++ map ascii_toupper suf)).
Proof.
  unfold normalize_house_no. destruct raw as [|c raw]; [left; auto|].
  right. cbn [truthy is_empty negb]. fold (house_prepared (c :: raw)).
  destruct (re_match false RE_HOUSE_SHAPE (house_prepared (c :: raw)))
    as [mo|] eqn:Hm; cbn [is_some negb].
  - right. split; [discriminate|].
    destruct (house_match_some _ _ Hm) as (num & suf & tail & Hp & ->).
    exists num, suf, tail. split; [exact Hp|]. cbn [bind unpack2 fst snd].
    destruct Hp as (_ & _ & _ & Hs & _). now rewrite (upper_letters _ Hs).
  - left. repeat split; auto; discriminate.
Qed.

(** C5 (amended). For every input, [normalize_house_no] returns the empty
    string or one or more digits and slashes followed by at most one
    upper-case letter.  An input whose prepared form (trimmed, commas
    removed, hyphens turned into slashes, slashes collapsed) does not end in
    a line feed and is not made of one or more digits and slashes followed
    by at most one ASCII letter of either case is rejected to the empty
    string; a non-empty input whose prepared form has that shape yields its
    digits and slashes followed by the letter in upper case. *)
Theorem C5_house_number_shape (raw : str) :
  exists v, normalize_house_no raw = Ok v /\
    (v = [] \/ house_shape ascii_is_upper v = true) /\
    (last (house_prepared raw) <> Some LF ->
     house_shape ascii_letter (house_prepared raw) = false -> v = []) /\
    (raw <> [] -> house_shape ascii_letter (house_prepared raw) = true ->
     v = take_while digit_or_slash (house_prepared raw)
         ++ map ascii_toupper (drop_while digit_or_slash (house_prepared raw))).
Proof.
  destruct (normalize_house_no_cases raw)
    as [[-> Hv]|[(Hne & Hm & Hv)|(Hne & num & suf & tail & Hp & Hv)]].
  - exists []. split; [exact Hv|]. repeat split; auto; congruence.
  - exists []. split; [exact Hv|]. split; [auto|]. split; [auto|].
    intros _ Hs. exfalso.
    exact (house_match_none _ _ _ _ Hm (house_shape_parts _ Hs)).
  - exists (num ++ map ascii_toupper suf). split; [exact Hv|].
    destruct (house_parts_span _ _ _ _ Hp) as [Ht Hd].
    pose proof Hp as (Hh & Hnum & Hn & Hs & Hl & Hend).
    assert (Hsuf : forallb ascii_is_upper (map ascii_toupper suf) = true).
    { clear -Hs. induction suf as [|c t IH]; cbn in *; [reflexivity|].
      apply andb_prop in Hs as [Hc Ht]. now rewrite (toupper_is_upper c Hc), IH. }
    split; [|split].
    + right. apply (house_parts_shape _ _ num (map ascii_toupper suf)); [|exact Hsuf].
      unfold house_parts. rewrite app_nil_r. repeat split; auto.
      * clear -Hsuf. induction (map ascii_toupper suf) as [|c t IH]; cbn in *;
          [reflexivity|]. apply andb_prop in Hsuf as [Hc Ht].
        now rewrite (upper_is_letter c Hc), IH.
      * now rewrite length_map.
    + intros Hlast Hshape. exfalso.
      destruct Hend as [->| ->].
      * rewrite (house_parts_shape ascii_letter _ num suf Hp Hs) in Hshape.
        discriminate.
      * apply Hlast. rewrite Hh, !app_assoc. apply last_app_LF.
    + intros _ Hshape. rewrite Ht. f_equal. f_equal.
      apply house_shape_parts in Hshape.
      destruct (house_parts_span _ _ _ _ Hshape) as [_ Hd'].
      rewrite app_nil_r in Hd'. rewrite Hd in Hd'.
      destruct Hend as [->| ->]; [now rewrite app_nil_r in Hd|].
      (* a line feed after the letter cannot be part of the shape *)
      destruct Hshape as (_ & _ & _ & Hs' & Hl' & _).
      rewrite Hd in Hs', Hl'. rewrite forallb_app in Hs'.
      apply andb_prop in Hs' as [_ Hlf]. cbn in Hlf. discriminate.
Qed.
End HouseTheorem.

(** ** The matcher and the language of a pattern *)

Section Language.
Context `{U : unicode_tables}.

Lemma consumed_unique st st' w w' :
  consumed st st' w -> consumed st st' w' -> w = w'.
Proof.
  intros [H1 H2] [H3 H4]. rewrite H1 in H3. apply app_inv_tail in H3. exact H3.
Qed.

(** The backtracking matcher finds exactly the prefixes of the subject that
    belong to the language of the pattern. *)
Theorem run_lang ic r : anchor_free r = true -> forall st w,
  (exists st', In st' (run ic r st) /\ consumed st st' w) <->
  (lang ic r w /\ exists rest', m_rest st = w ++ rest').
Proof.
  induction r; intros Haf st w; cbn [anchor_free lang] in *; try discriminate.
  - (* atom *)
    split.
    + intros (st' & Hin & Hc). apply in_run_atom in Hin as (c & Hr & Hm & Hp & _).
      assert (w = [c]) as ->.
      { apply (consumed_unique st st'); [exact Hc|]. split; cbn; [exact Hr|lia]. }
      split; [eauto|]. exists (m_rest st'). exact Hr.
    + intros ((c & -> & Hm) & rest' & Hr).
      exists (MState (S (m_pos st)) rest' (m_caps st)). split.
      * apply in_run_atom. exists c. cbn. auto.
      * split; cbn; [exact Hr|lia].
  - (* eps *)
    split.
    + intros (st' & Hin & Hc). apply in_run_eps in Hin as ->.
      assert (w = []) as -> by (apply (consumed_unique st st); [exact Hc|apply consumed_refl]).
      split; [reflexivity|]. now exists (m_rest st).
    + intros (-> & _). exists st. split; [now apply in_run_eps|apply consumed_refl].
  - (* seq *)
    apply andb_prop in Haf as [Ha1 Ha2]. split.
    + intros (st' & Hin & Hc). apply in_run_seq in Hin as (mid & H1 & H2).
      destruct (run_consumed _ _ _ _ H1) as [w1 Hc1].
      destruct (run_consumed _ _ _ _ H2) as [w2 Hc2].
      assert (w = w1 ++ w2) as ->.
      { apply (consumed_unique st st'); [exact Hc|]. eapply consumed_trans; eauto. }
      split.
      * exists w1, w2. split; [reflexivity|]. split.
        -- apply (IHr1 Ha1 st w1). eauto.
        -- apply (IHr2 Ha2 mid w2). eauto.
      * exists (m_rest st'). apply Hc.
    + intros ((w1 & w2 & -> & L1 & L2) & rest' & Hr).
      destruct (proj2 (IHr1 Ha1 st w1)) as (mid & H1 & Hc1).
      { split; [exact L1|]. exists (w2 ++ rest'). now rewrite Hr, app_assoc. }
      destruct (proj2 (IHr2 Ha2 mid w2)) as (st' & H2 & Hc2).
      { split; [exact L2|]. exists rest'. destruct Hc1 as [Hc1 _].
        rewrite Hr, <- app_assoc in Hc1. now apply app_inv_head in Hc1. }
      exists st'. split; [apply in_run_seq; eauto|]. eapply consumed_trans; eauto.
  - (* alt *)
    apply andb_prop in Haf as [Ha1 Ha2]. split.
    + intros (st' & Hin & Hc). apply in_run_alt in Hin as [H|H].
      * destruct (proj1 (IHr1 Ha1 st w)) as [L Hr]; eauto.
      * destruct (proj1 (IHr2 Ha2 st w)) as [L Hr]; eauto.
    + intros ([L|L] & Hr).
      * destruct (proj2 (IHr1 Ha1 st w)) as (st' & H & Hc); [auto|].
        exists st'. split; [apply in_run_alt; auto|exact Hc].
      * destruct (proj2 (IHr2 Ha2 st w)) as (st' & H & Hc); [auto|].
        exists st'. split; [apply in_run_alt; auto|exact Hc].
  - (* opt *)
    split.
    + intros (st' & Hin & Hc). apply in_run_opt in Hin as [H| ->].
      * destruct (proj1 (IHr Haf st w)) as [L Hr]; eauto.
      * assert (w = []) as -> by (apply (consumed_unique st st); [exact Hc|apply consumed_refl]).
        split; [auto|]. now exists (m_rest st).
    + intros ([L| ->] & Hr).
      * destruct (proj2 (IHr Haf st w)) as (st' & H & Hc); [auto|].
        exists st'. split; [apply in_run_opt; auto|exact Hc].
      * exists st. split; [apply in_run_opt; auto|apply consumed_refl].
  - (* repetition *)
    split.
    + intros (st' & Hin & Hc).
      apply in_run_rep in Hin as (_ & pre & Hr & Hp & Hall & Hlo & Hhi).
      assert (w = pre) as -> by (apply (consumed_unique st st'); [exact Hc|now split]).
      repeat split; auto. now exists (m_rest st').
    + intros ((Hall & Hlo & Hhi) & rest' & Hr).
      exists (MState (m_pos st + length w) rest' (m_caps st)). split.
      * apply in_run_rep. cbn. split; [reflexivity|]. exists w. repeat split; auto.
      * split; cbn; auto.
  - (* group *)
    split.
    + intros (st' & Hin & Hc). apply in_run_group in Hin as (inner & Hin & Hp & Hr & _).
      apply (IHr Haf st w). exists inner. split; [exact Hin|].
      destruct Hc as [H1 H2]. split; congruence.
    + intros H. apply (IHr Haf st w) in H as (inner & Hin & Hc).
      exists (MState (m_pos inner) (m_rest inner)
                ((n, take (m_pos inner - m_pos st) (m_rest st)) :: m_caps inner)).
      split; [|exact Hc]. apply in_run_group. exists inner. cbn. auto.
Qed.

(** A match at an offset exists exactly when a prefix of the remaining
    subject is in the language. *)
Lemma match_at_lang ic r pos rest :
  anchor_free r = true ->
  (is_some (match_at ic r pos rest) = true <->
   exists w rest', rest = w ++ rest' /\ lang ic r w).
Proof.
  intros Haf. unfold match_at. split.
  - destruct (run ic r (MState pos rest [])) as [|st' l] eqn:Hrun; [discriminate|].
    intros _. assert (Hin : In st' (run ic r (MState pos rest []))) by (rewrite Hrun; now left).
    destruct (run_consumed _ _ _ _ Hin) as [w Hc].
    destruct (proj1 (run_lang ic r Haf (MState pos rest []) w))
      as [L [rest' Hr]]; [eauto|].
    exists w, rest'. auto.
  - intros (w & rest' & -> & L).
    destruct (proj2 (run_lang ic r Haf (MState pos (w ++ rest') []) w))
      as (st' & Hin & _); [split; [exact L|now exists rest']|].
    destruct (run ic r _); [destruct Hin|reflexivity].
Qed.

Lemma match_at_pos_irrelevant ic r pos pos' rest :
  anchor_free r = true ->
  is_some (match_at ic r pos rest) = is_some (match_at ic r pos' rest).
Proof.
  intros Haf. apply eq_true_iff_eq. now rewrite !match_at_lang.
Qed.

Lemma match_at_extend ic r pos pos' rest more :
  anchor_free r = true ->
  is_some (match_at ic r pos rest) = true ->
  is_some (match_at ic r pos' (rest ++ more)) = true.
Proof.
  intros Haf. rewrite !match_at_lang by exact Haf.
  intros (w & rest' & -> & L). exists w, (rest' ++ more). now rewrite app_assoc.
Qed.

(** [re_search] succeeds exactly when some substring is in the language. *)
Lemma search_lang ic r s :
  anchor_free r = true ->
  (is_some (re_search ic r s) = true <->
   exists x w y, s = x ++ w ++ y /\ lang ic r w).
Proof.
  intros Haf. unfold re_search. split.
  - destruct (search_from ic r 0 s) as [mo|] eqn:Hs; [|discriminate]. intros _.
    apply search_from_some in Hs as (k & Hk & Hm & _).
    assert (Hsome : is_some (match_at ic r (0 + k) (drop k s)) = true) by now rewrite Hm.
    apply match_at_lang in Hsome as (w & y & Hd & L); [|exact Haf].
    exists (take k s), w, y. split; [|exact L]. now rewrite <- Hd, take_drop.
  - intros (x & w & y & -> & L).
    destruct (search_from ic r 0 (x ++ w ++ y)) as [mo|] eqn:Hs; [reflexivity|].
    exfalso. rewrite search_from_none in Hs.
    specialize (Hs (length x)). rewrite drop_app_length in Hs.
    assert (Hsome : is_some (match_at ic r (0 + length x) (w ++ y)) = true).
    { apply match_at_lang; [exact Haf|]. eauto. }
    rewrite Hs in Hsome; [discriminate|]. rewrite length_app. lia.
Qed.
End Language.

(* ================================================================== *)
(** ** Normalised text: stripping, collapsing, trailing labels *)
(* ================================================================== *)

Section StripFacts.

Lemma drop_while_suffix (p : char -> bool) (s : str) :
  exists w, s = w ++ drop_while p s /\ forallb p w = true.
Proof.
  induction s as [|c t (w & Hw & Hall)]; cbn; [now exists []|].
  destruct (p c) eqn:Hc.
  - exists (c :: w). cbn. rewrite Hc, Hall. split; [congruence|reflexivity].
  - now exists [].
Qed.

Lemma drop_while_starts_clear (p : char -> bool) (s : str) :
  starts_clear p (drop_while p s).
Proof.
  induction s as [|c t IH]; cbn; [exact I|]. destruct (p c) eqn:Hc; [exact IH|exact Hc].
Qed.

Lemma drop_while_clear (p : char -> bool) (s : str) :
  starts_clear p s -> drop_while p s = s.
Proof. destruct s as [|c t]; cbn; [reflexivity|]. now intros ->. Qed.

Lemma rstrip_by_prefix (p : char -> bool) (s : str) :
  exists w, s = rstrip_by p s ++ w /\ forallb p w = true.
Proof.
  induction s as [|c t (w & Hw & Hall)]; cbn [rstrip_by]; [now exists []|].
  destruct (rstrip_by p t) as [|d r] eqn:Hr.
  - destruct (p c) eqn:Hc.
    + exists (c :: t). cbn in Hw. subst w. cbn. now rewrite Hc, Hall.
    + exists w. cbn. split; [now rewrite Hw at 1|exact Hall].
  - exists w. split; [|exact Hall]. cbn. now rewrite Hw at 1.
Qed.

Lemma last_cons_cons {A} (a b : A) (l : list A) : last (a :: b :: l) = last (b :: l).
Proof. reflexivity. Qed.

Lemma rstrip_by_ends_clear (p : char -> bool) (s : str) :
  ends_clear p (rstrip_by p s).
Proof.
  unfold ends_clear. induction s as [|c t IH]; cbn [rstrip_by]; [exact I|].
  destruct (rstrip_by p t) as [|d r] eqn:Hr.
  - destruct (p c) eqn:Hc; cbn; [exact I|exact Hc].
  - rewrite last_cons_cons. exact IH.
Qed.

Lemma rstrip_by_clear (p : char -> bool) (s : str) :
  ends_clear p s -> rstrip_by p s = s.
Proof.
  unfold ends_clear. induction s as [|c t IH]; cbn [rstrip_by]; [reflexivity|].
  destruct t as [|d t'].
  - cbn. now intros ->.
  - rewrite last_cons_cons. intros H. rewrite (IH H). reflexivity.
Qed.

Lemma rstrip_by_starts_clear (p : char -> bool) (s : str) :
  starts_clear p s -> starts_clear p (rstrip_by p s).
Proof.
  destruct s as [|c t]; cbn [rstrip_by starts_clear]; [auto|]. intros Hc.
  destruct (rstrip_by p t); [rewrite Hc|]; exact Hc.
Qed.

Lemma strip_clear (s : str) :
  starts_clear isspace (strip s) /\ ends_clear isspace (strip s).
Proof.
  unfold strip, lstrip_by. split.
  - apply rstrip_by_starts_clear, drop_while_starts_clear.
  - apply rstrip_by_ends_clear.
Qed.

Lemma strip_id (s : str) :
  starts_clear isspace s -> ends_clear isspace s -> strip s = s.
Proof.
  intros H1 H2. unfold strip, lstrip_by. rewrite (drop_while_clear _ _ H1).
  now apply rstrip_by_clear.
Qed.

Lemma strip_strip (s : str) : strip (strip s) = strip s.
Proof. destruct (strip_clear s). now apply strip_id. Qed.

(** [strip] and [rstrip] cut a substring out of their argument. *)
Lemma strip_substring (s : str) : exists x y, s = x ++ strip s ++ y.
Proof.
  unfold strip, lstrip_by.
  destruct (drop_while_suffix isspace s) as (x & Hx & _).
  destruct (rstrip_by_prefix isspace (drop_while isspace s)) as (y & Hy & _).
  exists x, y. now rewrite <- Hy.
Qed.

Lemma strip_length (s : str) : length (strip s) <= length s.
Proof.
  destruct (strip_substring s) as (x & y & H). rewrite H at 2.
  rewrite !length_app. lia.
Qed.
End StripFacts.

Section NormalFacts.

Lemma ws_normal_from_weaken b (s : str) :
  ws_normal_from b s = true -> ws_normal_from false s = true.
Proof.
  destruct s as [|c t]; cbn; [auto|]. destruct (isspace c); [|auto].
  destruct b; cbn; [|auto]. rewrite andb_false_r. discriminate.
Qed.

Lemma ws_normal_from_take b (s : str) : forall k,
  ws_normal_from b s = true -> ws_normal_from b (take k s) = true.
Proof.
  revert b. induction s as [|c t IH]; intros b k H; destruct k; cbn in *; auto.
  destruct (isspace c).
  - apply andb_prop in H as [H1 H2]. rewrite H1. cbn. now apply IH.
  - now apply IH.
Qed.

Lemma ws_normal_from_tail b c (t : str) :
  ws_normal_from b (c :: t) = true -> ws_normal_from false t = true.
Proof.
  cbn. destruct (isspace c).
  - intros H. apply andb_prop in H as [_ H]. now apply ws_normal_from_weaken in H.
  - auto.
Qed.

Lemma ws_normal_drop (s : str) : forall k,
  ws_normal s = true -> ws_normal (drop k s) = true.
Proof.
  unfold ws_normal. induction s as [|c t IH]; intros k H; destruct k; cbn [drop]; auto.
  apply IH. eapply ws_normal_from_tail; eauto.
Qed.

Lemma ws_normal_prefix (s w : str) : ws_normal (s ++ w) = true -> ws_normal s = true.
Proof.
  intros H. apply (ws_normal_from_take false _ (length s)) in H.
  now rewrite take_app_length in H.
Qed.

Lemma ws_normal_suffix (w s : str) : ws_normal (w ++ s) = true -> ws_normal s = true.
Proof.
  intros H. apply (ws_normal_drop _ (length w)) in H.
  now rewrite drop_app_length in H.
Qed.

Lemma ws_normal_strip (s : str) : ws_normal s = true -> ws_normal (strip s) = true.
Proof.
  intros H. destruct (strip_substring s) as (x & y & Hs). rewrite Hs in H.
  apply ws_normal_suffix, ws_normal_prefix in H. exact H.
Qed.

Lemma ws_normal_rstrip p (s : str) : ws_normal s = true -> ws_normal (rstrip_by p s) = true.
Proof.
  intros H. destruct (rstrip_by_prefix p s) as (w & Hs & _). rewrite Hs in H.
  now apply ws_normal_prefix in H.
Qed.

Lemma isspace_LF : isspace LF = true.
Proof. reflexivity. Qed.

(** Normalised text holds no line feed. *)
Lemma ws_normal_no_LF (s : str) : forall b,
  ws_normal_from b s = true -> forallb (fun c => negb (c =? LF)%N) s = true.
Proof.
  induction s as [|c t IH]; intros b H; cbn in *; [reflexivity|].
  destruct (isspace c) eqn:Hc.
  - apply andb_prop in H as [H1 H2]. apply andb_prop in H1 as [H1 _].
    apply N.eqb_eq in H1. subst c. cbn. eauto.
  - destruct (N.eqb_spec c LF) as [->|Hne]; [discriminate|]. cbn. eauto.
Qed.
End NormalFacts.

Section GreedyFacts.
Context `{U : unicode_tables}.

Lemma drop_take_while (p : char -> bool) (s : str) :
  drop (length (take_while p s)) s = drop_while p s.
Proof. induction s as [|c t IH]; cbn; [reflexivity|]. destruct (p c); cbn; auto. Qed.

Lemma take_while_length (p : char -> bool) (s : str) :
  length (take_while p s) <= length s.
Proof. induction s as [|c t IH]; cbn; [lia|]. destruct (p c); cbn; lia. Qed.

(** A greedy unbounded repetition first tries the whole run. *)
Lemma rep_greedy_head (p : char -> bool) : forall rest lo pos,
  lo <= length (take_while p rest) ->
  exists l, rep true p lo None pos rest =
            (pos + length (take_while p rest), drop_while p rest) :: l.
Proof.
  induction rest as [|c t IH]; intros lo pos Hlo;
    cbn [rep take_while drop_while] in *.
  - cbn in Hlo. assert (lo = 0) as -> by lia. cbn. rewrite Nat.add_0_r. eauto.
  - destruct (p c) eqn:Hc; cbn [andb hi_allows option_map length] in *.
    + destruct (IH (pred lo) (S pos) ltac:(lia)) as [l ->].
      replace (S pos + length (take_while p t))
        with (pos + S (length (take_while p t))) by lia.
      cbn [app]. eauto.
    + assert (lo = 0) as -> by lia. cbn. rewrite Nat.add_0_r. eauto.
Qed.

Lemma rep_too_short g (p : char -> bool) : forall rest lo pos,
  length (take_while p rest) < lo -> rep g p lo None pos rest = [].
Proof.
  induction rest as [|c t IH]; intros lo pos Hlo; cbn [rep take_while] in *.
  - destruct lo; [cbn in Hlo; lia|]. cbn. now destruct g.
  - destruct (p c) eqn:Hc; cbn [andb hi_allows option_map length] in *.
    + rewrite IH by lia. destruct lo; [lia|]. cbn. now destruct g.
    + destruct lo; [lia|]. cbn. now destruct g.
Qed.

(** After skipping, substitution goes on at the offset reached. *)
Lemma sub_from_skip ic r repl : forall k rest pos,
  k <= length rest ->
  sub_from ic r repl pos rest k = sub_from ic r repl (pos + k) (drop k rest) 0.
Proof.
  induction k as [|k IH]; intros rest pos Hk.
  - now rewrite Nat.add_0_r.
  - destruct rest as [|c t]; [cbn in Hk; lia|]. cbn [sub_from drop].
    rewrite IH by (cbn in Hk; lia). f_equal. lia.
Qed.

End GreedyFacts.

Section CollapseFacts.
Context `{U : unicode_tables}.

(** The whitespace pattern of [clean] at one offset: the whole run of
    whitespace there, if there is any. *)
Lemma ws_match_some pos (rest : str) :
  1 <= length (take_while isspace rest) ->
  exists mo, match_at false RE_WS pos rest = Some mo /\
             mo_end mo = pos + length (take_while isspace rest).
Proof.
  intros Hn. unfold match_at, RE_WS. cbn [run m_pos m_rest m_caps].
  change (atom_match false ASpace) with isspace.
  destruct (rep_greedy_head isspace rest 1 pos Hn) as [l ->]. cbn. eauto.
Qed.

Lemma ws_match_none pos (rest : str) :
  length (take_while isspace rest) = 0 -> match_at false RE_WS pos rest = None.
Proof.
  intros Hn. unfold match_at, RE_WS. cbn [run m_pos m_rest m_caps].
  change (atom_match false ASpace) with isspace.
  rewrite rep_too_short by lia. reflexivity.
Qed.

Lemma ws_normal_from_true (s : str) :
  ws_normal_from false s = true -> starts_clear isspace s ->
  ws_normal_from true s = true.
Proof.
  destruct s as [|c t]; cbn; [auto|]. intros H Hc. rewrite Hc in *. exact H.
Qed.

Lemma ws_normal_true_clear (s : str) :
  ws_normal_from true s = true -> starts_clear isspace s.
Proof.
  destruct s as [|c t]; cbn; [auto|]. destruct (isspace c); [|auto].
  rewrite andb_false_r. discriminate.
Qed.

Lemma take_while_clear (p : char -> bool) (s : str) :
  starts_clear p s -> take_while p s = [].
Proof. destruct s as [|c t]; cbn; [auto|]. now intros ->. Qed.

(** Collapsing leaves normalised text as it is. *)
Lemma collapse_normal_id (s : str) : forall pos,
  ws_normal s = true -> sub_from false RE_WS (lit " ") pos s 0 = s.
Proof.
  unfold ws_normal. induction s as [|c t IH]; intros pos H.
  - cbn [sub_from]. rewrite ws_match_none by reflexivity. reflexivity.
  - cbn [sub_from]. cbn [ws_normal_from] in H. destruct (isspace c) eqn:Hc.
    + apply andb_prop in H as [H1 H2]. apply andb_prop in H1 as [H1 _].
      apply N.eqb_eq in H1. subst c.
      assert (Htw : take_while isspace (SPACE :: t) = [SPACE]).
      { cbn [take_while]. rewrite Hc.
        now rewrite (take_while_clear _ _ (ws_normal_true_clear _ H2)). }
      destruct (ws_match_some pos (SPACE :: t)) as (mo & -> & He);
        [rewrite Htw; cbn; lia|].
      rewrite He, Htw. cbn [length].
      replace (pos + 1 - pos) with 1 by lia.
      rewrite IH by (eapply ws_normal_from_weaken; eauto). reflexivity.
    + rewrite ws_match_none by (cbn [take_while]; now rewrite Hc).
      now rewrite IH.
Qed.

(** Collapsing yields normalised text. *)
Lemma collapse_normal_aux : forall n (s : str) pos,
  length s <= n ->
  ws_normal (sub_from false RE_WS (lit " ") pos s 0) = true /\
  (starts_clear isspace s ->
   starts_clear isspace (sub_from false RE_WS (lit " ") pos s 0)).
Proof.
  unfold ws_normal. induction n as [|n IH]; intros s pos Hlen.
  - destruct s; [|cbn in Hlen; lia]. cbn [sub_from].
    rewrite ws_match_none by reflexivity. cbn. auto.
  - destruct s as [|c t].
    { cbn [sub_from]. rewrite ws_match_none by reflexivity. cbn. auto. }
    cbn [sub_from]. destruct (isspace c) eqn:Hc.
    + set (m := length (take_while isspace t)).
      assert (Htw : length (take_while isspace (c :: t)) = S m)
        by (cbn [take_while]; now rewrite Hc).
      destruct (ws_match_some pos (c :: t)) as (mo & -> & He); [lia|].
      rewrite He, Htw. replace (pos + S m - pos) with (S m) by lia.
      rewrite sub_from_skip by apply take_while_length.
      unfold m. rewrite drop_take_while.
      destruct (IH (drop_while isspace t) (S pos + length (take_while isspace t)))
        as [Hn Hs].
      { destruct (drop_while_suffix isspace t) as (w & Hw & _).
        cbn in Hlen. rewrite Hw in Hlen. rewrite length_app in Hlen. lia. }
      split.
      * change (lit " ") with [SPACE]. cbn [app ws_normal_from].
        change (isspace SPACE) with true. cbn [negb andb]. rewrite N.eqb_refl.
        cbn [andb]. apply ws_normal_from_true; [exact Hn|].
        apply Hs, drop_while_starts_clear.
      * cbn [starts_clear]. intros Hcl. congruence.
    + rewrite ws_match_none by (cbn [take_while]; now rewrite Hc).
      destruct (IH t (S pos)) as [Hn _]; [cbn in Hlen; lia|]. split.
      * cbn [ws_normal_from]. now rewrite Hc.
      * intros _. exact Hc.
Qed.

Lemma collapse_normal (s : str) : ws_normal (re_sub false RE_WS (lit " ") s) = true.
Proof. unfold re_sub. now apply (collapse_normal_aux (length s)). Qed.
End CollapseFacts.

Section HeadFacts.
Context `{U : unicode_tables}.

Lemma head_has_flat_map (P : mstate -> Prop) (f : mstate -> list mstate) l :
  (forall x, In x l -> head_has P (f x)) -> head_has P (flat_map f l).
Proof.
  induction l as [|x t IH]; intros H; cbn [flat_map]; [exact I|].
  pose proof (H x (or_introl eq_refl)) as Hx.
  destruct (f x) as [|h l'] eqn:Hf; cbn [app].
  - apply IH. intros y Hy. apply H. now right.
  - exact Hx.
Qed.

Lemma head_has_seq ic r1 r2 (P : mstate -> Prop) st :
  (forall mid, In mid (run ic r1 st) -> head_has P (run ic r2 mid)) ->
  head_has P (run ic (r1 >> r2) st).
Proof. intros H. cbn [run]. now apply head_has_flat_map. Qed.

Lemma head_has_group ic n r (P : mstate -> Prop) st :
  head_has (fun st' => forall caps, P (MState (m_pos st') (m_rest st') caps))
           (run ic r st) ->
  head_has P (run ic (RGroup n r) st).
Proof.
  cbn [run]. destruct (run ic r st) as [|h l]; cbn; [auto|]. intros H. apply H.
Qed.

Lemma drop_while_all (p : char -> bool) (s : str) :
  forallb p s = true -> drop_while p s = [].
Proof.
  induction s as [|c t IH]; cbn; [auto|]. intros H.
  apply andb_prop in H as [-> H]. auto.
Qed.

(** On a subject without line feed, [.*] first runs to the end. *)
Lemma head_star_dot ic st :
  no_LF (m_rest st) = true ->
  head_has (fun st' => m_rest st' = []) (run ic (RStar ADot) st).
Proof.
  intros H. cbn [run].
  destruct (rep_greedy_head (atom_match ic ADot) (m_rest st) 0 (m_pos st)
              ltac:(lia)) as [l ->].
  cbn. apply drop_while_all. exact H.
Qed.

Lemma no_LF_consumed st st' pre :
  consumed st st' pre -> no_LF (m_rest st) = true -> no_LF (m_rest st') = true.
Proof.
  intros [Hr _] H. unfold no_LF in *. rewrite Hr, forallb_app in H.
  now apply andb_prop in H as [_ H].
Qed.

Lemma no_LF_run ic r st st' :
  In st' (run ic r st) -> no_LF (m_rest st) = true -> no_LF (m_rest st') = true.
Proof.
  intros Hin. destruct (run_consumed ic r st st' Hin) as [pre Hc].
  now apply no_LF_consumed with pre.
Qed.

Lemma name_tail_head st :
  no_LF (m_rest st) = true ->
  head_has (fun st' => m_rest st' = []) (run true RE_NAME_TAIL st).
Proof.
  intros H. unfold RE_NAME_TAIL.
  apply head_has_seq. intros m1 H1. pose proof (no_LF_run _ _ _ _ H1 H) as N1.
  apply head_has_group.
  apply head_has_seq. intros m2 H2. pose proof (no_LF_run _ _ _ _ H2 N1) as N2.
  apply head_has_seq. intros m3 H3. pose proof (no_LF_run _ _ _ _ H3 N2) as N3.
  apply head_has_seq. intros m4 H4. pose proof (no_LF_run _ _ _ _ H4 N3) as N4.
  pose proof (head_star_dot true m4 N4) as Hh.
  destruct (run true (RStar ADot) m4); cbn in *; auto.
Qed.

(** On a subject without line feed a match of the trailing-label pattern
    runs to the end of the subject. *)
Lemma name_tail_match_end pos (rest : str) mo :
  no_LF rest = true ->
  match_at true RE_NAME_TAIL pos rest = Some mo ->
  mo_end mo = pos + length rest.
Proof.
  intros H Hm. apply match_at_some in Hm as (st' & l & Hrun & ->). cbn [mo_end].
  pose proof (name_tail_head (MState pos rest []) H) as Hh. rewrite Hrun in Hh.
  cbn in Hh.
  assert (Hin : In st' (run true RE_NAME_TAIL (MState pos rest [])))
    by (rewrite Hrun; now left).
  destruct (run_consumed _ _ _ _ Hin) as [pre [Hr Hp]]. cbn in Hr, Hp.
  rewrite Hh, app_nil_r in Hr. now subst pre.
Qed.

Lemma name_tail_anchor_free : anchor_free RE_NAME_TAIL = true.
Proof. reflexivity. Qed.

Lemma name_tail_not_empty pos : match_at true RE_NAME_TAIL pos [] = None.
Proof. reflexivity. Qed.

Lemma name_tail_pos pos (rest : str) :
  is_some (match_at true RE_NAME_TAIL pos rest)
  = is_some (match_at true RE_NAME_TAIL 0 rest).
Proof. apply match_at_pos_irrelevant, name_tail_anchor_free. Qed.

(** On a subject without line feed, removing the trailing label keeps the
    text before its first match. *)
Lemma name_tail_sub_cut (s : str) : forall pos,
  no_LF s = true -> sub_from true RE_NAME_TAIL [] pos s 0 = name_tail_cut s.
Proof.
  induction s as [|c t IH]; intros pos H.
  - cbn [sub_from]. now rewrite name_tail_not_empty.
  - cbn [sub_from name_tail_cut]. rewrite <- (name_tail_pos pos).
    destruct (match_at true RE_NAME_TAIL pos (c :: t)) as [mo|] eqn:Hm;
      cbn [is_some app].
    + rewrite (name_tail_match_end _ _ _ H Hm). cbn [length].
      replace (pos + S (length t) - pos) with (S (length t)) by lia.
      rewrite sub_from_skip by lia. rewrite drop_all. cbn [sub_from].
      now rewrite name_tail_not_empty.
    + rewrite IH; [reflexivity|]. cbn in H. now apply andb_prop in H as [_ H].
Qed.

Lemma name_tail_cut_prefix (s : str) : exists w, s = name_tail_cut s ++ w.
Proof.
  induction s as [|c t (w & Hw)]; cbn [name_tail_cut]; [now exists []|].
  destruct (is_some _); [now exists (c :: t)|].
  exists w. cbn. now rewrite Hw at 1.
Qed.

Lemma no_label_nil : no_label [].
Proof. intros j. now rewrite drop_nil. Qed.

Lemma name_tail_cut_no_label (s : str) : no_label (name_tail_cut s).
Proof.
  induction s as [|c t IH]; cbn [name_tail_cut]; [apply no_label_nil|].
  destruct (is_some (match_at true RE_NAME_TAIL 0 (c :: t))) eqn:Hm;
    [apply no_label_nil|].
  intros [|j]; cbn [drop]; [|apply IH].
  destruct (is_some (match_at true RE_NAME_TAIL 0 (c :: name_tail_cut t))) eqn:Hc;
    [|reflexivity].
  destruct (name_tail_cut_prefix t) as [w Hw].
  apply (match_at_extend true RE_NAME_TAIL 0 0 _ w name_tail_anchor_free) in Hc.
  cbn [app] in Hc. rewrite <- Hw in Hc. congruence.
Qed.

Lemma no_label_substring (x u y : str) : no_label (x ++ u ++ y) -> no_label u.
Proof.
  intros H j.
  destruct (is_some (match_at true RE_NAME_TAIL 0 (drop j u))) eqn:Hm;
    [|reflexivity].
  destruct (Nat.le_gt_cases j (length u)) as [Hj|Hj].
  - apply (match_at_extend true RE_NAME_TAIL 0 0 _ y name_tail_anchor_free) in Hm.
    specialize (H (length x + j)).
    rewrite <- drop_drop, drop_app_length, drop_app_le in H by exact Hj.
    congruence.
  - rewrite drop_ge in Hm by lia. discriminate.
Qed.

Lemma no_label_sub_id (u : str) : forall pos,
  no_label u -> sub_from true RE_NAME_TAIL [] pos u 0 = u.
Proof.
  induction u as [|c t IH]; intros pos H.
  - cbn [sub_from]. now rewrite name_tail_not_empty.
  - cbn [sub_from]. pose proof (H 0) as H0. cbn [drop] in H0.
    rewrite <- (name_tail_pos pos) in H0.
    destruct (match_at true RE_NAME_TAIL pos (c :: t)); [discriminate|].
    rewrite IH; [reflexivity|]. intros j. exact (H (S j)).
Qed.
End HeadFacts.

Section CleanFacts.
Context `{U : unicode_tables}.

Lemma clean_trimmed_normal (s : str) : ws_normal (clean_trimmed s) = true.
Proof.
  unfold clean_trimmed, rstrip_chars.
  apply ws_normal_strip, ws_normal_rstrip, ws_normal_strip, collapse_normal.
Qed.

Lemma ws_normal_no_LF' (s : str) : ws_normal s = true -> no_LF s = true.
Proof. apply ws_normal_no_LF. Qed.

Lemma clean_unfold (s : str) :
  s <> [] -> clean s = strip (name_tail_cut (clean_trimmed s)).
Proof.
  intros Hne. unfold clean. destruct s as [|c t]; [congruence|].
  cbn [truthy is_empty negb]. fold (clean_trimmed (c :: t)). unfold re_sub.
  rewrite name_tail_sub_cut; [reflexivity|].
  apply ws_normal_no_LF', clean_trimmed_normal.
Qed.

(** What every result of [clean] looks like. *)
Lemma clean_result (s : str) :
  ws_normal (clean s) = true /\
  starts_clear isspace (clean s) /\ ends_clear isspace (clean s) /\
  no_label (clean s).
Proof.
  destruct s as [|c t].
  - change (clean []) with (@nil char).
    split; [reflexivity|]. split; [exact I|]. split; [exact I|].
    apply no_label_nil.
  - rewrite clean_unfold by discriminate.
    generalize (clean_trimmed_normal (c :: t)).
    generalize (clean_trimmed (c :: t)) as v. intros v Hv.
    destruct (strip_clear (name_tail_cut v)) as [H1 H2].
    split; [|split; [exact H1|split; [exact H2|]]].
    + apply ws_normal_strip.
      destruct (name_tail_cut_prefix v) as [w Hw].
      apply (ws_normal_prefix _ w). now rewrite <- Hw.
    + destruct (strip_substring (name_tail_cut v)) as (x & y & Hu).
      apply (no_label_substring x _ y). rewrite <- Hu. apply name_tail_cut_no_label.
Qed.

(** On a result of [clean], a second [clean] only strips trailing hyphens
    and tildes and trims again. *)
Lemma clean_on_result (t : str) :
  ws_normal t = true -> starts_clear isspace t -> ends_clear isspace t ->
  no_label t ->
  clean t = strip (rstrip_chars (lit "-~") t).
Proof.
  intros Hn Hs He Hl. destruct t as [|c t']; [reflexivity|].
  set (t := c :: t') in *. unfold clean. cbn [truthy is_empty negb].
  unfold re_sub at 2. rewrite (collapse_normal_id t 0 Hn).
  rewrite (strip_id t Hs He).
  set (u := strip (rstrip_chars (lit "-~") t)).
  assert (Hu : no_label u).
  { destruct (rstrip_by_prefix (char_in (lit "-~")) t) as (w & Hw & _).
    destruct (strip_substring (rstrip_chars (lit "-~") t)) as (x & y & Hxy).
    fold u in Hxy. apply (no_label_substring x u (y ++ w)).
    unfold rstrip_chars in Hxy. rewrite Hxy in Hw.
    rewrite <- !app_assoc in Hw. now rewrite <- Hw. }
  unfold re_sub. rewrite (no_label_sub_id u 0 Hu). apply strip_strip.
Qed.

Lemma char_in_hyphen_tilde (c : N) :
  char_in (lit "-~") c = false <-> c <> code "-" /\ c <> code "~".
Proof.
  unfold char_in. change (lit "-~") with [45; 126]%N.
  change (code "-") with 45%N. change (code "~") with 126%N. cbn [existsb].
  destruct (N.eqb_spec c 45), (N.eqb_spec c 126); cbn; split; try tauto;
    try discriminate; intros [? ?]; congruence.
Qed.

(** C8 (amended).  For every string [s], cleaning the result of [clean]
    once more only removes trailing hyphens and tildes and trims again:
    clean(clean(s)) = strip(rstrip(clean(s), "-~")).  Hence
    clean(clean(s)) = clean(s) exactly when clean(s) does not end in a
    hyphen or a tilde. *)
Theorem C8_clean_twice (s : str) :
  clean (clean s) = strip (rstrip_chars (lit "-~") (clean s)) /\
  (clean (clean s) = clean s <->
   forall c, last (clean s) = Some c -> c <> code "-" /\ c <> code "~").
Proof.
  destruct (clean_result s) as (Hn & Hs & He & Hl).
  assert (Heq : clean (clean s) = strip (rstrip_chars (lit "-~") (clean s)))
    by now apply clean_on_result.
  split; [exact Heq|]. rewrite Heq. set (t := clean s) in *.
  assert (Hends : ends_clear (char_in (lit "-~")) t <->
                  forall c, last t = Some c -> c <> code "-" /\ c <> code "~").
  { unfold ends_clear. destruct (last t) as [c|].
    - rewrite char_in_hyphen_tilde. split.
      + intros H c' [= <-]. exact H.
      + intros H. now apply H.
    - split; [discriminate|auto]. }
  rewrite <- Hends. split.
  - intros H.
    destruct (rstrip_by_prefix (char_in (lit "-~")) t) as (w & Hw & _).
    fold (rstrip_chars (lit "-~") t) in Hw.
    assert (Hlen : length (strip (rstrip_chars (lit "-~") t))
                   <= length (rstrip_chars (lit "-~") t)) by apply strip_length.
    rewrite H in Hlen. rewrite Hw in Hlen at 1. rewrite length_app in Hlen.
    destruct w; [|cbn in Hlen; lia]. rewrite app_nil_r in Hw.
    rewrite Hw. apply rstrip_by_ends_clear.
  - intros H. unfold rstrip_chars. rewrite (rstrip_by_clear _ _ H).
    now apply strip_id.
Qed.
End CleanFacts.

(* ================================================================== *)
(** ** Labelled fields *)
(* ================================================================== *)

Section LabelFacts.
Context `{U : unicode_tables}.

Lemma lang_lit (s w : str) : lang false (re_lit s) w <-> w = s.
Proof.
  revert w. induction s as [|c t IH]; intros w; cbn [re_lit lang]; [tauto|].
  split.
  - intros (w1 & w2 & -> & (c' & -> & Hc) & L). apply IH in L. subst w2.
    cbn in Hc. apply N.eqb_eq in Hc. now subst c'.
  - intros ->. exists [c], t. split; [reflexivity|]. split.
    + exists c. split; [reflexivity|]. cbn. apply N.eqb_refl.
    + now apply IH.
Qed.

Lemma lang_seq_assoc ic r1 r2 r3 w :
  lang ic (r1 >> r2 >> r3) w <-> lang ic ((r1 >> r2) >> r3) w.
Proof.
  cbn [lang]. split.
  - intros (w1 & w23 & -> & L1 & w2 & w3 & -> & L2 & L3).
    exists (w1 ++ w2), w3. split; [now rewrite app_assoc|]. split; [|exact L3].
    exists w1, w2. auto.
  - intros (w12 & w3 & -> & (w1 & w2 & -> & L1 & L2) & L3).
    exists w1, (w2 ++ w3). split; [now rewrite app_assoc|]. split; [exact L1|].
    exists w2, w3. auto.
Qed.

Lemma lang_star_space (w : str) :
  lang false (RStar ASpace) w <-> forallb isspace w = true.
Proof.
  cbn [lang]. change (atom_match false ASpace) with isspace. split.
  - now intros (H & _).
  - intros H. repeat split; [exact H|lia|discriminate].
Qed.

Lemma lang_sep (w : str) :
  lang false (RAtom SEP) w <-> exists sep, w = [sep] /\ In sep [code ":"; code "+"; code "!"].
Proof.
  cbn [lang]. split.
  - intros (c & -> & Hc). exists c. split; [reflexivity|]. cbn in Hc.
    rewrite orb_false_r in Hc. apply orb_prop in Hc as [Hc|Hc].
    + apply N.eqb_eq in Hc. left. now subst c.
    + apply orb_prop in Hc as [Hc|Hc]; apply N.eqb_eq in Hc; subst c; cbn; auto.
  - intros (sep & -> & Hin). exists sep. split; [reflexivity|]. cbn.
    destruct Hin as [<-|[<-|[<-|[]]]]; reflexivity.
Qed.

(** The language of a labelled-field pattern. *)
Lemma lang_label_pattern (pre body : regex) (w : str) :
  lang false (pre >> label_sep >> RGroup 1 body) w <->
  exists lab ws1 sep ws2 v,
    w = lab ++ ws1 ++ [sep] ++ ws2 ++ v /\ lang false pre lab /\
    forallb isspace ws1 = true /\ In sep [code ":"; code "+"; code "!"] /\
    forallb isspace ws2 = true /\ lang false body v.
Proof.
  unfold label_sep. cbn [lang]. fold (lang false (RStar ASpace)).
  split.
  - intros (lab & w' & -> & Lp & ls & v & -> & (ws1 & w'' & -> & L1 & s & ws2 & -> & Ls & L2) & Lb).
    apply lang_sep in Ls as (sep & -> & Hsep).
    exists lab, ws1, sep, ws2, v. split.
    { now rewrite <- !app_assoc. }
    split; [exact Lp|]. split; [apply L1|]. split; [exact Hsep|].
    split; [apply L2|exact Lb].
  - intros (lab & ws1 & sep & ws2 & v & -> & Lp & H1 & Hsep & H2 & Lb).
    exists lab, (ws1 ++ [sep] ++ ws2 ++ v). split; [reflexivity|].
    split; [exact Lp|]. exists (ws1 ++ [sep] ++ ws2), v.
    split; [now rewrite <- !app_assoc|]. split; [|exact Lb].
    exists ws1, ([sep] ++ ws2). split; [reflexivity|].
    split; [repeat split; [exact H1|lia|discriminate]|].
    exists [sep], ws2. split; [reflexivity|]. split.
    + apply lang_sep. eauto.
    + repeat split; [exact H2|lia|discriminate].
Qed.

Lemma lang_plus (a : atom) (w : str) :
  lang false (RPlus a) w <-> run_of (atom_match false a) w.
Proof.
  cbn [lang]. unfold run_of. split.
  - intros (H & Hl & _). split; [|exact H]. intros ->. cbn in Hl. lia.
  - intros (Hne & H). repeat split; [exact H| |discriminate].
    destruct w; [congruence|cbn; lia].
Qed.

(** [re_search] finds a labelled-field pattern exactly in the windows that
    hold the label, a separator and a value. *)
Lemma search_label_pattern (pre body : regex) label_ok value_ok (window : str) :
  anchor_free pre = true -> anchor_free body = true ->
  (forall lab, lang false pre lab <-> label_ok lab) ->
  (forall v, lang false body v <-> value_ok v) ->
  (is_some (re_search false (pre >> label_sep >> RGroup 1 body) window) = true
   <-> labelled label_ok value_ok window).
Proof.
  intros Ap Ab Hl Hv. rewrite search_lang.
  2:{ cbn [anchor_free label_sep]. now rewrite Ap, Ab. }
  unfold labelled. split.
  - intros (x & w & y & -> & L). apply lang_label_pattern in L
      as (lab & ws1 & sep & ws2 & v & -> & Lp & H1 & Hsep & H2 & Lb).
    exists x, lab, ws1, sep, ws2, v, y. split.
    { now rewrite <- !app_assoc. }
    split; [now apply Hl|]. split; [exact H1|]. split; [exact Hsep|].
    split; [exact H2|now apply Hv].
  - intros (x & lab & ws1 & sep & ws2 & v & y & -> & Hlab & H1 & Hsep & H2 & Hval).
    exists x, (lab ++ ws1 ++ [sep] ++ ws2 ++ v), y. split.
    { now rewrite <- !app_assoc. }
    apply lang_label_pattern. exists lab, ws1, sep, ws2, v.
    split; [reflexivity|]. split; [now apply Hl|]. split; [exact H1|].
    split; [exact Hsep|]. split; [exact H2|now apply Hv].
Qed.
End LabelFacts.

Section LabelTheorem.
Context `{U : unicode_tables}.

(** From the language of a pattern to the windows [re_search] accepts. *)
Lemma search_labelled (P : regex) label_ok value_ok (window : str) :
  anchor_free P = true ->
  (forall u, lang false P u <->
     exists lab ws1 sep ws2 v,
       u = lab ++ ws1 ++ [sep] ++ ws2 ++ v /\ label_ok lab /\
       forallb isspace ws1 = true /\ In sep [code ":"; code "+"; code "!"] /\
       forallb isspace ws2 = true /\ value_ok v) ->
  (is_some (re_search false P window) = true <->
   labelled label_ok value_ok window).
Proof.
  intros Haf HL. rewrite (search_lang false P window Haf). unfold labelled. split.
  - intros (x & u & y & -> & L).
    apply HL in L as (lab & ws1 & sep & ws2 & v & -> & H).
    exists x, lab, ws1, sep, ws2, v, y. split; [|exact H].
    now rewrite <- !app_assoc.
  - intros (x & lab & ws1 & sep & ws2 & v & y & -> & H).
    exists x, (lab ++ ws1 ++ [sep] ++ ws2 ++ v), y. split.
    { now rewrite <- !app_assoc. }
    apply HL. exists lab, ws1, sep, ws2, v. split; [reflexivity|exact H].
Qed.

Lemma label_pattern_lang (pre body : regex) label_ok value_ok :
  (forall lab, lang false pre lab <-> label_ok lab) ->
  (forall v, lang false body v <-> value_ok v) ->
  forall u, lang false (pre >> label_sep >> RGroup 1 body) u <->
    exists lab ws1 sep ws2 v,
      u = lab ++ ws1 ++ [sep] ++ ws2 ++ v /\ label_ok lab /\
      forallb isspace ws1 = true /\ In sep [code ":"; code "+"; code "!"] /\
      forallb isspace ws2 = true /\ value_ok v.
Proof.
  intros Hl Hv u. rewrite lang_label_pattern. split.
  - intros (lab & ws1 & sep & ws2 & v & H0 & H1 & H2 & H3 & H4 & H5).
    exists lab, ws1, sep, ws2, v. split; [exact H0|]. split; [now apply Hl|].
    split; [exact H2|]. split; [exact H3|]. split; [exact H4|now apply Hv].
  - intros (lab & ws1 & sep & ws2 & v & H0 & H1 & H2 & H3 & H4 & H5).
    exists lab, ws1, sep, ws2, v. split; [exact H0|]. split; [now apply Hl|].
    split; [exact H2|]. split; [exact H3|]. split; [exact H4|now apply Hv].
Qed.

Lemma run_of_ext (p q : char -> bool) (v : str) :
  (forall c, p c = q c) -> run_of p v <-> run_of q v.
Proof. intros H. unfold run_of. now rewrite (forallb_ext_eq p q v H). Qed.

Lemma lang_text_value (v : str) :
  lang false (RPlus NOT_LF) v <-> run_of not_LF v.
Proof.
  rewrite lang_plus. apply run_of_ext. intros c. unfold not_LF. cbn.
  now rewrite orb_false_r.
Qed.

Lemma lang_house_value (v : str) :
  lang false (RPlus (ASet true [CChar LF; CChar SPACE])) v <-> run_of not_LF_blank v.
Proof.
  rewrite lang_plus. apply run_of_ext. intros c. unfold not_LF_blank. cbn.
  now rewrite orb_false_r.
Qed.

Lemma lang_age_value (v : str) :
  lang false (RPlus ADigit) v <-> run_of uni_decimal v.
Proof. rewrite lang_plus. reflexivity. Qed.

Lemma lang_gender_value (v : str) :
  lang false (RAlt (re_lit (lit "Male"))
             (RAlt (re_lit (lit "Female"))
             (RAlt (re_lit TAMIL_MALE) (re_lit TAMIL_FEMALE)))) v
  <-> is_gender_token v.
Proof.
  unfold is_gender_token. cbn [lang In]. rewrite !lang_lit.
  split; intros H; repeat destruct H as [H|H]; subst; auto; contradiction.
Qed.

Lemma lang_relation_label (who lab : str) :
  lang false ((re_lit who >> ROpt (re_lit (lit "'s"))) >> re_lit (lit " Name")) lab
  <-> relation_label who lab.
Proof.
  unfold relation_label. cbn [lang]. split.
  - intros (w12 & w3 & -> & (w1 & w2 & -> & L1 & L2) & L3).
    apply lang_lit in L1, L3. subst w1 w3.
    destruct L2 as [L2| ->].
    + apply lang_lit in L2. subst w2. right. now rewrite <- app_assoc.
    + left. now rewrite app_nil_r.
  - intros [-> | ->].
    + exists who, (lit " Name"). split; [reflexivity|]. split; [|now apply lang_lit].
      exists who, []. split; [now rewrite app_nil_r|]. split; [now apply lang_lit|auto].
    + exists (who ++ lit "'s"), (lit " Name"). split; [now rewrite <- app_assoc|].
      split; [|now apply lang_lit]. exists who, (lit "'s").
      split; [reflexivity|]. split; [now apply lang_lit|]. left. now apply lang_lit.
Qed.

Lemma lang_house_label (lab : str) :
  lang false ((re_lit (lit "House") >> RStar ASpace) >> re_lit (lit "Number")) lab
  <-> house_label lab.
Proof.
  unfold house_label. cbn [lang]. change (atom_match false ASpace) with isspace.
  split.
  - intros (w12 & w3 & -> & (w1 & ws & -> & L1 & (Hws & _)) & L3).
    apply lang_lit in L1, L3. subst w1 w3. exists ws. split; [exact Hws|].
    now rewrite <- app_assoc.
  - intros (ws & Hws & ->). exists (lit "House" ++ ws), (lit "Number").
    split; [now rewrite <- app_assoc|]. split; [|now apply lang_lit].
    exists (lit "House"), ws. split; [reflexivity|]. split; [now apply lang_lit|].
    repeat split; [exact Hws|lia|discriminate].
Qed.

Lemma relation_pat_lang (who u : str) :
  lang false (relation_pat who) u <->
  lang false (((re_lit who >> ROpt (re_lit (lit "'s"))) >> re_lit (lit " Name"))
              >> label_sep >> RGroup 1 (RPlus NOT_LF)) u.
Proof. unfold relation_pat. now rewrite lang_seq_assoc, lang_seq_assoc. Qed.

Lemma house_pat_lang (u : str) :
  lang false RE_HOUSE u <->
  lang false (((re_lit (lit "House") >> RStar ASpace) >> re_lit (lit "Number"))
              >> label_sep >> RGroup 1 (RPlus (ASet true [CChar LF; CChar SPACE]))) u.
Proof. unfold RE_HOUSE. now rewrite lang_seq_assoc, lang_seq_assoc. Qed.

Lemma anchor_free_lit (s : str) : anchor_free (re_lit s) = true.
Proof. induction s; cbn; auto. Qed.

Lemma search_relation (who window : str) :
  is_some (re_search false (relation_pat who) window) = true <->
  labelled (relation_label who) (run_of not_LF) window.
Proof.
  apply search_labelled.
  - unfold relation_pat. cbn [anchor_free label_sep].
    now rewrite anchor_free_lit.
  - intros u. rewrite relation_pat_lang.
    apply label_pattern_lang; [apply lang_relation_label|apply lang_text_value].
Qed.

Lemma search_name (window : str) :
  is_some (re_search false RE_NAME window) = true <->
  labelled (eq (lit "Name")) (run_of not_LF) window.
Proof.
  apply search_labelled; [reflexivity|]. unfold RE_NAME.
  apply label_pattern_lang; [|apply lang_text_value].
  intros lab. rewrite lang_lit. split; congruence.
Qed.

Lemma search_house (window : str) :
  is_some (re_search false RE_HOUSE window) = true <->
  labelled house_label (run_of not_LF_blank) window.
Proof.
  apply search_labelled; [reflexivity|]. intros u. rewrite house_pat_lang.
  apply label_pattern_lang; [apply lang_house_label|apply lang_house_value].
Qed.

Lemma search_age (window : str) :
  is_some (re_search false RE_AGE window) = true <->
  labelled (eq (lit "Age")) (run_of uni_decimal) window.
Proof.
  apply search_labelled; [reflexivity|]. unfold RE_AGE.
  apply label_pattern_lang; [|apply lang_age_value].
  intros lab. rewrite lang_lit. split; congruence.
Qed.

Lemma search_gender (window : str) :
  is_some (re_search false RE_GENDER window) = true <->
  labelled (eq (lit "Gender")) is_gender_token window.
Proof.
  apply search_labelled; [reflexivity|]. unfold RE_GENDER.
  apply label_pattern_lang; [|apply lang_gender_value].
  intros lab. rewrite lang_lit. split; congruence.
Qed.

(** A labelled window spells its label out. *)
Lemma labelled_contains label_ok value_ok (word window : str) :
  (forall lab, label_ok lab -> exists a b, lab = a ++ word ++ b) ->
  labelled label_ok value_ok window -> contains word window = true.
Proof.
  intros H (x & lab & ws1 & sep & ws2 & v & y & -> & Hlab & _).
  destruct (H lab Hlab) as (a & b & ->).
  replace (x ++ (a ++ word ++ b) ++ ws1 ++ [sep] ++ ws2 ++ v ++ y)
    with ((x ++ a) ++ word ++ (b ++ ws1 ++ [sep] ++ ws2 ++ v ++ y))
    by now rewrite <- !app_assoc.
  apply contains_app.
Qed.

Lemma relation_label_Name who lab :
  relation_label who lab -> exists a b, lab = a ++ lit "Name" ++ b.
Proof.
  intros [-> | ->].
  - exists (who ++ [SPACE]), []. now rewrite <- app_assoc.
  - exists (who ++ lit "'s "), []. now rewrite <- app_assoc.
Qed.

(** Wherever a relation pattern matches, the name pattern matches too: at
    the [Name] that ends the relation label. *)
Lemma relation_label_matches_name (who window : str) :
  is_some (re_search false (relation_pat who) window) = true ->
  is_some (re_search false RE_NAME window) = true.
Proof.
  rewrite search_relation, search_name.
  intros (x & lab & ws1 & sep & ws2 & v & y & -> & Hlab & H).
  destruct Hlab as [-> | ->].
  - exists (x ++ who ++ [SPACE]), (lit "Name"), ws1, sep, ws2, v, y.
    split; [|split; [reflexivity|exact H]].
    change (lit " Name") with ([SPACE] ++ lit "Name").
    now rewrite <- !app_assoc.
  - exists (x ++ who ++ lit "'s "), (lit "Name"), ws1, sep, ws2, v, y.
    split; [|split; [reflexivity|exact H]].
    change (lit "'s Name") with (lit "'s " ++ lit "Name").
    now rewrite <- !app_assoc.
Qed.

Lemma not_some_none {A} (o : option A) : is_some o <> true -> o = None.
Proof. destruct o; cbn; [congruence|reflexivity]. Qed.

Lemma search_none_without (P : regex) label_ok value_ok (word window : str) :
  (is_some (re_search false P window) = true <-> labelled label_ok value_ok window) ->
  (forall lab, label_ok lab -> exists a b, lab = a ++ word ++ b) ->
  contains word window = false -> re_search false P window = None.
Proof.
  intros Hs Hl Hc. apply not_some_none. intros H. apply Hs in H.
  apply (labelled_contains _ _ word window Hl) in H. congruence.
Qed.

(** C4 (amended).  For every window, each labelled-field pattern of the
    extractor finds a match exactly when the window holds its label spelled
    as in the pattern (the match is case-sensitive), optional whitespace,
    one separator among [:], [+], [!], optional whitespace and a value.
    Hence a window in which the label does not occur in that spelling --
    such as one with [name:] or [NAME:] only -- yields an empty field. *)
Theorem C4_labels_exact_case_any_separator (window : str) :
  (is_some (re_search false RE_NAME window) = true <->
   labelled (eq (lit "Name")) (run_of not_LF) window) /\
  (is_some (re_search false RE_FATHER window) = true <->
   labelled (relation_label (lit "Father")) (run_of not_LF) window) /\
  (is_some (re_search false RE_HUSBAND window) = true <->
   labelled (relation_label (lit "Husband")) (run_of not_LF) window) /\
  (is_some (re_search false RE_MOTHER window) = true <->
   labelled (relation_label (lit "Mother")) (run_of not_LF) window) /\
  (is_some (re_search false RE_HOUSE window) = true <->
   labelled house_label (run_of not_LF_blank) window) /\
  (is_some (re_search false RE_AGE window) = true <->
   labelled (eq (lit "Age")) (run_of uni_decimal) window) /\
  (is_some (re_search false RE_GENDER window) = true <->
   labelled (eq (lit "Gender")) is_gender_token window) /\
  (exists r, parse_block window = Ok r /\
     (contains (lit "Name") window = false ->
      name r = [] /\ relation_type r = [] /\ relation_name r = []) /\
     (contains (lit "House") window = false -> house_number r = []) /\
     (contains (lit "Age") window = false -> age r = []) /\
     (contains (lit "Gender") window = false -> gender r = [])).
Proof.
  split; [apply search_name|]. split; [apply search_relation|].
  split; [apply search_relation|]. split; [apply search_relation|].
  split; [apply search_house|]. split; [apply search_age|].
  split; [apply search_gender|].
  destruct (parse_block_fields window) as (r & Hr & Hn & Hrel & Hh & Hg & Ha).
  exists r. split; [exact Hr|].
  unfold name_field, relation_fields, house_field, gender_field, age_field in *.
  split; [|split; [|split]].
  - intros Hc.
    rewrite (search_none_without _ _ _ (lit "Name") window (search_name window)) in Hn;
      [|intros lab <-; now exists [], []|exact Hc].
    unfold RE_FATHER, RE_HUSBAND, RE_MOTHER in Hrel.
    rewrite !(search_none_without _ _ _ (lit "Name") window (search_relation _ window))
      in Hrel by (apply relation_label_Name || exact Hc).
    tauto.
  - intros Hc.
    rewrite (search_none_without _ _ _ (lit "House") window (search_house window)) in Hh;
      [exact Hh| |exact Hc].
    intros lab (ws & _ & ->). now exists [], (ws ++ lit "Number").
  - intros Hc.
    rewrite (search_none_without _ _ _ (lit "Age") window (search_age window)) in Ha;
      [exact Ha| |exact Hc].
    intros lab <-. now exists [], [].
  - intros Hc.
    rewrite (search_none_without _ _ _ (lit "Gender") window (search_gender window)) in Hg;
      [exact Hg| |exact Hc].
    intros lab <-. now exists [], [].
Qed.
End LabelTheorem.

(** ** Concrete runs, on ASCII input *)

Section Scenarios.
#[local] Existing Instance ascii_tables.

Lemma scenario_raw :
  exists v1 v2, all_voters scenario = Ok [v1; v2] /\
    name (best v1) = captured_name /\ name (best v2) = captured_name.
Proof.
  eexists _, _. split; [vm_compute; reflexivity|].
  split; vm_compute; reflexivity.
Qed.

Lemma scenario_full_raw :
  exists v1 v2, all_voters scenario_full = Ok [v1; v2] /\
    name (best v1) = captured_name /\ name (best v2) = captured_name.
Proof.
  eexists _, _. split; [vm_compute; reflexivity|].
  split; vm_compute; reflexivity.
Qed.

(** C1, as stated, fails: both records carry as name the value up to the
    end of the line, not RAMESH KUMAR. *)
Lemma C1_counterexample :
  ~ end_to_end_as_stated scenario /\ ~ end_to_end_as_stated scenario_full.
Proof.
  split.
  - intros (raw & Hraw & _ & _ & _ & Hall).
    destruct scenario_raw as (v1 & v2 & Hv & Hn1 & _).
    rewrite Hv in Hraw. injection Hraw as <-.
    apply Forall_cons in Hall as [[_ Hn] _]. rewrite Hn1 in Hn.
    vm_compute in Hn. discriminate Hn.
  - intros (raw & Hraw & _ & _ & _ & Hall).
    destruct scenario_full_raw as (v1 & v2 & Hv & Hn1 & _).
    rewrite Hv in Hraw. injection Hraw as <-.
    apply Forall_cons in Hall as [[_ Hn] _]. rewrite Hn1 in Hn.
    vm_compute in Hn. discriminate Hn.
Qed.

Lemma end_to_end_scenario : end_to_end_amended scenario.
Proof.
  unfold end_to_end_amended.
  eexists _, _. split; [vm_compute; reflexivity|].
  split; [vm_compute; reflexivity|].
  repeat (split; [vm_compute; reflexivity|]).
  repeat constructor.
Qed.

Lemma end_to_end_scenario_full : end_to_end_amended scenario_full.
Proof.
  unfold end_to_end_amended.
  eexists _, _. split; [vm_compute; reflexivity|].
  split; [vm_compute; reflexivity|].
  repeat (split; [vm_compute; reflexivity|]).
  repeat constructor.
Qed.

(** C1 (amended).  On the two-page document the raw output has exactly two
    records, AB1234567 from page 1 and CD7654321 from page 2; the cleaned
    output has exactly one, the first; both have house number 45A, age 34,
    gender Male, and as name the whole rest of the line after the name
    label, RAMESH KUMAR Age:34 Gender:Male House Number:45A.  This holds
    whether page 2 is the voter block alone or the whole text of page 1
    with the other identifier. *)
Theorem C1_end_to_end :
  end_to_end_amended scenario /\ end_to_end_amended scenario_full.
Proof. split; [exact end_to_end_scenario|exact end_to_end_scenario_full]. Qed.

(** C4, as stated, fails: the patterns are case-sensitive, so [name: X]
    and [NAME: X] give no name while [Name: X] gives X. *)
Lemma C4_counterexample :
  ~ (exists r1 r2, parse_block (lit "name: X") = Ok r1 /\
       parse_block (lit "Name: X") = Ok r2 /\ name r1 = name r2) /\
  ~ (exists r1 r2, parse_block (lit "NAME: X") = Ok r1 /\
       parse_block (lit "Name: X") = Ok r2 /\ name r1 = name r2).
Proof.
  split; intros (r1 & r2 & H1 & H2 & Hn); vm_compute in H1, H2;
    injection H1 as <-; injection H2 as <-; vm_compute in Hn; discriminate Hn.
Qed.

(** The three separators give the same record. *)
Lemma separators_agree :
  parse_block (lit "Name+ X") = parse_block (lit "Name: X") /\
  parse_block (lit "Name! X") = parse_block (lit "Name: X") /\
  exists r, parse_block (lit "Name: X") = Ok r /\ name r = lit "X".
Proof.
  split; [vm_compute; reflexivity|]. split; [vm_compute; reflexivity|].
  eexists. split; vm_compute; reflexivity.
Qed.

(** C5, as stated, fails: [45a] does not have the shape with an upper-case
    letter, yet it is not rejected but canonicalised to [45A]. *)
Lemma C5_counterexample : ~ house_claim_as_stated (lit "45a").
Proof.
  intros (v & Hv & _ & Hrej). vm_compute in Hv. injection Hv as <-.
  assert (Hs : house_shape ascii_is_upper (house_prepared (lit "45a")) = false)
    by (vm_compute; reflexivity).
  specialize (Hrej Hs). vm_compute in Hrej. discriminate Hrej.
Qed.

(** The validation pattern ends in [$], which also matches before a final
    line feed: such an input is accepted. *)
Lemma house_trailing_line_feed :
  normalize_house_no (lit "12" ++ [LF] ++ lit ",") = Ok (lit "12").
Proof. vm_compute. reflexivity. Qed.

Lemma house_examples :
  normalize_house_no (lit "12-5,") = Ok (lit "12/5") /\
  normalize_house_no (lit "45a") = Ok (lit "45A") /\
  normalize_house_no (lit "12//5") = Ok (lit "12/5") /\
  normalize_house_no (lit "House#9") = Ok [] /\
  normalize_house_no [] = Ok [].
Proof. repeat (split; [vm_compute; reflexivity|]). vm_compute. reflexivity. Qed.

(** C6, as stated, fails: a lower-case [male] after the label is not
    captured, so the gender is empty, not Male. *)
Lemma C6_counterexample :
  ~ (exists r, parse_block (lit "Gender: male") = Ok r /\ gender r = lit "Male").
Proof.
  intros (r & Hr & Hg). vm_compute in Hr. injection Hr as <-.
  vm_compute in Hg. discriminate Hg.
Qed.

(** C7, as stated, fails: a relation label whose value cleans to the empty
    string leaves a relation type without a name. *)
Lemma C7_counterexample :
  exists r, parse_block (lit "Father Name: -") = Ok r /\
    relation_type r = lit "S/O" /\ relation_name r = [] /\
    ~ ((relation_type r <> [] /\ relation_name r <> []) \/
       (relation_type r = [] /\ relation_name r = [])).
Proof.
  eexists. split; [vm_compute; reflexivity|].
  split; [vm_compute; reflexivity|]. split; [vm_compute; reflexivity|].
  intros [[_ H]|[H _]]; [apply H; vm_compute; reflexivity|].
  vm_compute in H. discriminate H.
Qed.

(** C8, as stated, fails: cleaning [a- -] gives [a-], and cleaning that
    gives [a]. *)
Lemma C8_counterexample :
  clean (lit "a- -") = lit "a-" /\ clean (clean (lit "a- -")) = lit "a" /\
  clean (clean (lit "a- -")) <> clean (lit "a- -").
Proof.
  split; [vm_compute; reflexivity|]. split; [vm_compute; reflexivity|].
  intros H. vm_compute in H. discriminate H.
Qed.

(** C10.  The name field can be populated from a relation label.  For
    every window, wherever the father, husband or mother pattern matches,
    the unanchored name pattern matches as well (at the [Name] that ends
    the relation label, if not earlier).  On the window
    [Father Name: RAJAN], which has no name label of its own,
    [parse_block] returns RAJAN both as name and as relation name: the name
    pattern matches at offset 7, inside the relation label that the father
    pattern matches from offset 0, and nowhere before it. *)
Theorem C10_name_from_relation_label :
  (forall (U : unicode_tables) (window : str),
     is_some (@re_search U false RE_FATHER window) = true \/
     is_some (@re_search U false RE_HUSBAND window) = true \/
     is_some (@re_search U false RE_MOTHER window) = true ->
     is_some (@re_search U false RE_NAME window) = true) /\
  exists r m_name m_father,
    parse_block (lit "Father Name: RAJAN") = Ok r /\
    name r = lit "RAJAN" /\ relation_type r = lit "S/O" /\
    relation_name r = lit "RAJAN" /\
    re_search false RE_NAME (lit "Father Name: RAJAN") = Some m_name /\
    re_search false RE_FATHER (lit "Father Name: RAJAN") = Some m_father /\
    mo_start m_name = 7 /\ mo_text m_name = lit "Name: RAJAN" /\
    mo_start m_father = 0 /\ mo_end m_father = 18 /\
    re_search false RE_NAME (lit "Father ") = None.
Proof.
  split.
  - intros U window [H|[H|H]];
      exact (@relation_label_matches_name U _ window H).
  - eexists _, _, _. split; [vm_compute; reflexivity|].
    repeat (split; [vm_compute; reflexivity|]). vm_compute. reflexivity.
Qed.

(** C5: the hypothesis on the Unicode tables holds of the ASCII tables, and
    there the theorem gives [45A] for [45a]. *)
Lemma C5_house_number_shape_witness :
  ascii_exact ascii_tables /\
  exists v, normalize_house_no (lit "45a") = Ok v /\ v = lit "45A".
Proof.
  split; [exact ascii_tables_exact|].
  destruct (@C5_house_number_shape ascii_tables ascii_tables_exact (lit "45a"))
    as (v & Hv & _ & _ & Hacc).
  exists v. split; [exact Hv|].
  assert (Hne : lit "45a" <> []) by (vm_compute; intros H; discriminate H).
  assert (Hs : house_shape ascii_letter (house_prepared (lit "45a")) = true)
    by (vm_compute; reflexivity).
  rewrite (Hacc Hne Hs). vm_compute. reflexivity.
Defined.

(** C6: on the ASCII tables the theorem gives Male for the Tamil token. *)
Lemma C6_gender_values_witness :
  ascii_exact ascii_tables /\
  exists r, parse_block (lit "Gender: " ++ TAMIL_MALE) = Ok r /\
    (gender r = lit "Male" \/ gender r = lit "Female" \/ gender r = []).
Proof.
  split; [exact ascii_tables_exact|].
  destruct (@C6_gender_values ascii_tables ascii_tables_exact
              (lit "Gender: " ++ TAMIL_MALE)) as (r & Hr & Hg & _).
  exists r. split; [exact Hr|exact Hg].
Defined.
End Scenarios.

(* ================================================================== *)
(** ** Anchors, captures and collapsed runs *)
(* ================================================================== *)

Section AnchorFacts.
Context `{U : unicode_tables}.

Lemma lookup_In {A} (l : list A) i x : l !! i = Some x -> In x l.
Proof. intros H. apply list_elem_of_In. exact (list_elem_of_lookup_2 _ _ _ H). Qed.

Lemma match_at_span ic r pos rest mo :
  match_at ic r pos rest = Some mo ->
  mo_start mo = pos /\ mo_end mo = pos + length (mo_text mo) /\
  exists rest', rest = mo_text mo ++ rest'.
Proof.
  intros H. destruct (match_at_some _ _ _ _ _ H) as (st' & l & Hrun & ->).
  assert (Hin : In st' (run ic r (MState pos rest []))) by (rewrite Hrun; left; reflexivity).
  destruct (run_consumed _ _ _ _ Hin) as (pre & Hc).
  pose proof (consumed_take _ _ _ Hc) as Ht. destruct Hc as [Hr Hp].
  cbn [m_rest m_pos] in *. cbn [mo_start mo_end mo_text].
  rewrite Ht. split; [reflexivity|]. split; [exact Hp|].
  exists (m_rest st'). exact Hr.
Qed.

Lemma finditer_from_spec ic r : forall rest pos skip mo,
  In mo (finditer_from ic r pos rest skip) ->
  exists k, skip <= k /\ k <= length rest /\
    match_at ic r (pos + k) (drop k rest) = Some mo.
Proof.
  induction rest as [|c t IH]; intros pos skip mo Hin.
  - destruct skip as [|k]; cbn in Hin; [|contradiction].
    destruct (match_at ic r pos []) as [m|] eqn:Hm; [|contradiction].
    destruct Hin as [<-|[]]. exists 0. rewrite Nat.add_0_r. cbn. auto.
  - destruct skip as [|k]; cbn [finditer_from] in Hin.
    + destruct (match_at ic r pos (c :: t)) as [m|] eqn:Hm.
      * destruct Hin as [<-|Hin].
        { exists 0. rewrite Nat.add_0_r. cbn [drop]. split; [lia|]. split; [cbn; lia|exact Hm]. }
        destruct (IH _ _ _ Hin) as (k & _ & Hk & Hmk).
        exists (S k). cbn [drop length]. rewrite Nat.add_succ_r. split; [lia|]. split; [lia|exact Hmk].
      * destruct (IH _ _ _ Hin) as (k & _ & Hk & Hmk).
        exists (S k). cbn [drop length]. rewrite Nat.add_succ_r. split; [lia|]. split; [lia|exact Hmk].
    + destruct (IH _ _ _ Hin) as (k' & Hle & Hk & Hmk).
      exists (S k'). cbn [drop length]. rewrite Nat.add_succ_r. split; [lia|]. split; [lia|exact Hmk].
Qed.

Lemma finditer_from_start ic r rest pos skip mo :
  In mo (finditer_from ic r pos rest skip) -> pos + skip <= mo_start mo.
Proof.
  intros Hin. destruct (finditer_from_spec _ _ _ _ _ _ Hin) as (k & Hle & _ & Hm).
  destruct (match_at_span _ _ _ _ _ Hm) as (-> & _). lia.
Qed.

Lemma finditer_from_apart ic r : forall rest pos skip i m1 m2,
  finditer_from ic r pos rest skip !! i = Some m1 ->
  finditer_from ic r pos rest skip !! S i = Some m2 ->
  mo_start m1 < mo_start m2 /\ mo_end m1 <= mo_start m2.
Proof.
  induction rest as [|c t IH]; intros pos skip i m1 m2 H1 H2.
  - destruct skip; cbn in H1, H2; [|discriminate].
    destruct (match_at ic r pos []); cbn in H2; discriminate.
  - destruct skip as [|k]; cbn [finditer_from] in H1, H2.
    + destruct (match_at ic r pos (c :: t)) as [m|] eqn:Hm.
      * destruct i as [|i].
        { cbn in H1, H2. injection H1 as <-.
          apply lookup_In, finditer_from_start in H2.
          destruct (match_at_span _ _ _ _ _ Hm) as (Hs & He & _). lia. }
        cbn in H1, H2. exact (IH _ _ _ _ _ H1 H2).
      * exact (IH _ _ _ _ _ H1 H2).
    + exact (IH _ _ _ _ _ H1 H2).
Qed.

(** Every match that exists in the subject starts inside or at a reported
    match, or is itself reported. *)
Lemma finditer_from_complete ic r : forall rest pos skip k mo,
  skip <= k -> k <= length rest ->
  match_at ic r (pos + k) (drop k rest) = Some mo ->
  In mo (finditer_from ic r pos rest skip) \/
  exists m, In m (finditer_from ic r pos rest skip) /\
            mo_start m < pos + k < mo_end m.
Proof.
  induction rest as [|c t IH]; intros pos skip k mo Hle Hk Hm.
  - cbn in Hk. assert (k = 0) as -> by lia. assert (skip = 0) as -> by lia.
    rewrite Nat.add_0_r in Hm. cbn in Hm. left. cbn. rewrite Hm. left; reflexivity.
  - destruct skip as [|s]; cbn [finditer_from].
    + destruct k as [|k].
      * rewrite Nat.add_0_r in Hm. cbn [drop] in Hm. rewrite Hm. left. left. reflexivity.
      * cbn [drop length] in Hm, Hk. rewrite Nat.add_succ_r in Hm.
        destruct (match_at ic r pos (c :: t)) as [m|] eqn:Hm0.
        -- destruct (match_at_span _ _ _ _ _ Hm0) as (Hs & He & _).
           destruct (le_lt_dec (pred (mo_end m - pos)) k) as [Hge|Hlt].
           ++ destruct (IH (S pos) _ k mo Hge ltac:(lia) Hm) as [Hin|(m' & Hin & Hr)].
              ** left. right. exact Hin.
              ** right. exists m'. split; [right; exact Hin|lia].
           ++ right. exists m. split; [left; reflexivity|]. lia.
        -- destruct (IH (S pos) 0 k mo ltac:(lia) ltac:(lia) Hm) as [Hin|(m' & Hin & Hr)].
           ++ left. exact Hin.
           ++ right. exists m'. split; [exact Hin|lia].
    + destruct k as [|k]; [lia|].
      cbn [drop length] in Hm, Hk. rewrite Nat.add_succ_r in Hm.
      destruct (IH (S pos) s k mo ltac:(lia) ltac:(lia) Hm) as [Hin|(m' & Hin & Hr)].
      * left. exact Hin.
      * right. exists m'. split; [exact Hin|lia].
Qed.

Lemma upper_set_match (c : char) :
  atom_match false (ASet false [CRange (code "A") (code "Z")]) c = ascii_is_upper c.
Proof. cbn. unfold ascii_is_upper. rewrite orb_false_r. reflexivity. Qed.

Lemma voter_id_run st st' :
  In st' (run false VOTER_ID_PAT st) ->
  exists pre, consumed st st' pre /\ is_voter_id pre.
Proof.
  unfold VOTER_ID_PAT. intros H.
  apply in_run_group in H. destruct H as (inner & Hin & Hp & Hr & _).
  apply in_run_seq in Hin. destruct Hin as (mid & H1 & H2).
  apply in_run_rep in H1. destruct H1 as (_ & ls & Hl1 & Hl2 & Hl3 & Hl4 & Hl5).
  apply in_run_rep in H2. destruct H2 as (_ & ds & Hd1 & Hd2 & Hd3 & Hd4 & Hd5).
  exists (ls ++ ds). split.
  - split.
    + rewrite Hr, Hl1, Hd1. rewrite app_assoc. reflexivity.
    + rewrite Hp, Hd2, Hl2. rewrite length_app. lia.
  - exists ls, ds. split; [reflexivity|].
    specialize (Hl5 3 eq_refl). specialize (Hd5 7 eq_refl).
    split; [lia|]. split.
    + rewrite <- Hl3. apply forallb_ext_eq. intros c. symmetry. apply upper_set_match.
    + split; [lia|exact Hd3].
Qed.

Lemma voter_id_match pos rest mo :
  match_at false VOTER_ID_PAT pos rest = Some mo -> is_voter_id (mo_text mo).
Proof.
  intros H. destruct (match_at_some _ _ _ _ _ H) as (st' & l & Hrun & ->).
  assert (Hin : In st' (run false VOTER_ID_PAT (MState pos rest [])))
    by (rewrite Hrun; left; reflexivity).
  destruct (voter_id_run _ _ Hin) as (pre & Hc & Hv).
  pose proof (consumed_take _ _ _ Hc) as Ht. cbn [m_pos m_rest] in Ht.
  cbn [mo_text]. rewrite Ht. exact Hv.
Qed.

Lemma is_voter_id_length (v : str) : is_voter_id v -> 9 <= length v <= 10.
Proof.
  intros (ls & ds & -> & Hl & _ & Hd & _). rewrite length_app. lia.
Qed.

Lemma slice_app_here (s : str) k (v rest' : str) :
  drop k s = v ++ rest' -> k <= length s ->
  slice s k (k + length v) = v /\ k + length v <= length s.
Proof.
  intros H Hk. unfold slice. replace (k + length v - k) with (length v) by lia.
  rewrite H. rewrite take_app_length. split; [reflexivity|].
  assert (length (drop k s) = length v + length rest') by (rewrite H, length_app; reflexivity).
  rewrite length_drop in H0. lia.
Qed.

Lemma find_id_positions_lookup (tc : str) i pos vid :
  find_id_positions tc !! i = Some (pos, vid) ->
  exists mo, re_finditer false VOTER_ID_PAT tc !! i = Some mo /\
             mo_start mo = pos /\ mo_text mo = vid.
Proof.
  unfold find_id_positions. rewrite list_lookup_fmap.
  destruct (re_finditer false VOTER_ID_PAT tc !! i) as [mo|]; cbn; [|discriminate].
  intros [= <- <-]. exists mo. auto.
Qed.

Lemma anchor_facts (tc : str) i pos vid :
  find_id_positions tc !! i = Some (pos, vid) ->
  is_voter_id vid /\ slice tc pos (pos + length vid) = vid /\
  pos + length vid <= length tc /\
  forall pos' vid', find_id_positions tc !! S i = Some (pos', vid') ->
    pos + length vid <= pos'.
Proof.
  intros H. destruct (find_id_positions_lookup _ _ _ _ H) as (mo & Hmo & Hs & Ht).
  pose proof (lookup_In _ _ _ Hmo) as Hin.
  destruct (finditer_from_spec _ _ _ _ _ _ Hin) as (k & _ & Hk & Hm).
  cbn [Nat.add] in Hm.
  destruct (match_at_span _ _ _ _ _ Hm) as (Hs' & He & rest' & Hr).
  pose proof (voter_id_match _ _ _ Hm) as Hv.
  rewrite Ht in *. assert (k = pos) as -> by congruence.
  destruct (slice_app_here _ _ _ _ Hr Hk) as [Hsl Hlen].
  split; [exact Hv|]. split; [exact Hsl|]. split; [exact Hlen|].
  intros pos' vid' H'.
  destruct (find_id_positions_lookup _ _ _ _ H') as (mo' & Hmo' & Hs2 & Ht2).
  destruct (finditer_from_apart _ _ _ _ _ _ _ _ Hmo Hmo') as [_ Hle].
  lia.
Qed.
End AnchorFacts.

Section CaptureFacts.
Context `{U : unicode_tables}.

Lemma run_tail_group ic n g lo hi a : forall (rs : list regex) st st',
  In st' (run ic (fold_right RSeq (RGroup n (RRep g lo hi a)) rs) st) ->
  exists mid pre0 pre, consumed st mid pre0 /\ consumed mid st' pre /\
    forallb (atom_match ic a) pre = true /\ lo <= length pre /\
    (forall h, hi = Some h -> length pre <= h) /\
    cap_lookup n (m_caps st') = Some pre.
Proof.
  induction rs as [|r rs IH]; intros st st' H; cbn [fold_right] in H.
  - apply in_run_group_rep in H as (pre & Hc & Hf & Hlo & Hhi & Hcaps).
    exists st, [], pre. split; [apply consumed_refl|].
    split; [exact Hc|]. split; [exact Hf|]. split; [exact Hlo|]. split; [exact Hhi|].
    rewrite Hcaps. cbn [cap_lookup]. rewrite Nat.eqb_refl. reflexivity.
  - apply in_run_seq in H as (mid & H1 & H2).
    destruct (run_consumed _ _ _ _ H1) as [p1 Hp1].
    destruct (IH _ _ H2) as (mid' & pre0 & pre & Hc0 & Hc & Hrest).
    exists mid', (p1 ++ pre0), pre.
    split; [eapply consumed_trans; eauto|]. split; [exact Hc|exact Hrest].
Qed.

Lemma tail_group_capture rs g0 lo hi a block mo v :
  re_search false (fold_right RSeq (RGroup 1 (RRep g0 lo hi a)) rs) block = Some mo ->
  group (Some mo) 1 = Ok v ->
  forallb (atom_match false a) v = true /\ lo <= length v /\
  contains v block = true.
Proof.
  intros Hs Hg. apply group_of_caps in Hg.
  apply search_some_run in Hs as (k & st' & _ & Hin & _ & _ & Hc & _).
  rewrite Hc in Hg. clear Hc.
  apply run_tail_group in Hin as (mid & pre0 & pre & Hc0 & Hc & Hf & Hlo & _ & Hcap).
  rewrite Hcap in Hg. injection Hg as <-.
  split; [exact Hf|]. split; [exact Hlo|].
  assert (Hk0 : m_rest (MState k (drop k block) []) = drop k block) by reflexivity.
  destruct (consumed_suffix block k _ _ _ Hk0 Hc0) as [k' Hk'].
  exact (consumed_contains block k' _ _ _ Hk' Hc).
Qed.

Lemma name_capture block mo g :
  re_search false RE_NAME block = Some mo -> group (Some mo) 1 = Ok g ->
  run_of not_LF g /\ contains g block = true.
Proof.
  intros Hs Hg.
  destruct (tail_group_capture [re_lit (lit "Name"); label_sep] _ _ _ _ _ _ _ Hs Hg)
    as (Hf & Hlo & Hc).
  split; [|exact Hc]. split.
  - intros ->. cbn in Hlo. lia.
  - rewrite <- Hf. apply forallb_ext_eq. intros c. cbn. now rewrite orb_false_r.
Qed.

Lemma age_capture block mo g :
  re_search false RE_AGE block = Some mo -> group (Some mo) 1 = Ok g ->
  run_of uni_decimal g /\ contains g block = true.
Proof.
  intros Hs Hg.
  destruct (tail_group_capture [re_lit (lit "Age"); label_sep] _ _ _ _ _ _ _ Hs Hg)
    as (Hf & Hlo & Hc).
  split; [|exact Hc]. split.
  - intros ->. cbn in Hlo. lia.
  - exact Hf.
Qed.

Lemma house_capture block mo g :
  re_search false RE_HOUSE block = Some mo -> group (Some mo) 1 = Ok g ->
  run_of not_LF_blank g /\ contains g block = true.
Proof.
  intros Hs Hg.
  destruct (tail_group_capture
              [re_lit (lit "House"); RStar ASpace; re_lit (lit "Number"); label_sep]
              _ _ _ _ _ _ _ Hs Hg) as (Hf & Hlo & Hc).
  split; [|exact Hc]. split.
  - intros ->. cbn in Hlo. lia.
  - rewrite <- Hf. apply forallb_ext_eq. intros c. cbn. now rewrite orb_false_r.
Qed.

Lemma relation_capture who block mo g :
  re_search false (relation_pat who) block = Some mo -> group (Some mo) 1 = Ok g ->
  run_of not_LF g /\ contains g block = true.
Proof.
  intros Hs Hg.
  destruct (tail_group_capture
              [re_lit who; ROpt (re_lit (lit "'s")); re_lit (lit " Name"); label_sep]
              _ _ _ _ _ _ _ Hs Hg) as (Hf & Hlo & Hc).
  split; [|exact Hc]. split.
  - intros ->. cbn in Hlo. lia.
  - rewrite <- Hf. apply forallb_ext_eq. intros c. cbn. now rewrite orb_false_r.
Qed.

Lemma contains_single (c : char) (s : str) : contains [c] s = true <-> In c s.
Proof.
  induction s as [|a t IH]; cbn [contains is_prefix In].
  - split; [discriminate|contradiction].
  - rewrite andb_true_r. rewrite orb_true_iff, IH, N.eqb_eq. intuition congruence.
Qed.

Lemma contains_single_false (c : char) (s : str) : contains [c] s = false <-> ~ In c s.
Proof.
  rewrite <- contains_single. destruct (contains [c] s); intuition congruence.
Qed.

Lemma str_in_In (s : str) (l : list str) : str_in s l = true <-> In s l.
Proof.
  unfold str_in. rewrite existsb_exists. split.
  - intros (x & Hx & He). unfold str_eqb in He. apply bool_decide_eq_true in He. now subst.
  - intros H. exists s. split; [exact H|]. unfold str_eqb. now apply bool_decide_eq_true.
Qed.

Lemma leading_digit (n : str) :
  is_some (re_match false RE_LEADING_DIGIT n) = false <->
  match n with [] => True | c :: _ => uni_decimal c = false end.
Proof.
  unfold re_match, match_at, RE_LEADING_DIGIT. destruct n as [|c t]; cbn.
  - tauto.
  - destruct (uni_decimal c); cbn; intuition congruence.
Qed.

Lemma name_guards_hold (n0 : str) :
  name_guarded
    (if str_in (upper (if contains (lit "NAME") (upper n0) || contains (lit "-") n0
                          || contains (lit "=") n0 then [] else n0)) BAD_NAMES
        || is_some (re_match false RE_LEADING_DIGIT
                      (if contains (lit "NAME") (upper n0) || contains (lit "-") n0
                          || contains (lit "=") n0 then [] else n0))
     then [] else
       if contains (lit "NAME") (upper n0) || contains (lit "-") n0
          || contains (lit "=") n0 then [] else n0).
Proof.
  assert (Hnil : name_guarded []).
  { unfold name_guarded. cbn. repeat split; auto; intuition discriminate. }
  destruct (contains (lit "NAME") (upper n0)) eqn:H1; cbn [orb].
  { match goal with |- name_guarded (if ?b then _ else _) => destruct b end; exact Hnil. }
  destruct (contains (lit "-") n0) eqn:H2; cbn [orb].
  { match goal with |- name_guarded (if ?b then _ else _) => destruct b end; exact Hnil. }
  destruct (contains (lit "=") n0) eqn:H3; cbn [orb].
  { match goal with |- name_guarded (if ?b then _ else _) => destruct b end; exact Hnil. }
  destruct (str_in (upper n0) BAD_NAMES) eqn:H4; cbn [orb]; [exact Hnil|].
  destruct (is_some (re_match false RE_LEADING_DIGIT n0)) eqn:H5; [exact Hnil|].
  unfold name_guarded. split; [now apply contains_single_false|].
  split; [now apply contains_single_false|]. split; [exact H1|].
  split.
  - intros Hin. apply str_in_In in Hin. congruence.
  - now apply leading_digit.
Qed.

Lemma parse_block_name block :
  exists r, parse_block block = Ok r /\
    name_guarded (name r) /\
    (name r <> [] -> exists mo g,
       re_search false RE_NAME block = Some mo /\ group (Some mo) 1 = Ok g /\
       name r = clean g).
Proof.
  unfold parse_block.
  destruct (re_search false RE_NAME block) as [m1|] eqn:H1; cbn [is_some];
    [group_of H1|cbn [bind]].
  all: destruct (re_search false RE_FATHER block) as [m2|] eqn:H2; cbn [is_some];
    [group_of H2|
     destruct (re_search false RE_HUSBAND block) as [m3|] eqn:H3; cbn [is_some];
     [group_of H3|
      destruct (re_search false RE_MOTHER block) as [m4|] eqn:H4; cbn [is_some];
      [group_of H4|cbn [bind]]]].
  all: destruct (re_search false RE_HOUSE block) as [m5|] eqn:H5; cbn [is_some];
    [group_of H5;
     match goal with |- context [normalize_house_no ?x] =>
       destruct (normalize_house_no_total x) as [hv Hhv]; rewrite Hhv end;
     cbn [bind]
    |cbn [bind]].
  all: destruct (re_search false RE_GENDER block) as [m6|] eqn:H6; cbn [is_some];
    [group_of H6|cbn [bind]].
  all: destruct (re_search false RE_AGE block) as [m7|] eqn:H7; cbn [is_some];
    [group_of H7|cbn [bind]].
  all: eexists; split; [reflexivity|]; cbn [name].
  all: split; [apply name_guards_hold|].
  all: intros Hne.
  all: try (exists m1, g; split; [reflexivity|]; split; [assumption|];
            repeat match goal with
                   | H : context [if ?b then _ else _] |- _ => destruct b
                   | |- context [if ?b then _ else _] => destruct b
                   end; congruence).
  all: exfalso; apply Hne;
    repeat match goal with |- context [if ?b then _ else _] => destruct b end;
    reflexivity.
Qed.
End CaptureFacts.

(** Substitution of one code point for every run matched by a pattern of
    the form  a+ . *)
Section RunCollapse.
Context `{U : unicode_tables}.
Variable a : atom.
Variable x : char.
Let p := atom_match false a.
Hypothesis p_x : atom_match false a x = true.

Lemma plus_match_some pos (rest : str) :
  1 <= length (take_while p rest) ->
  exists mo, match_at false (RPlus a) pos rest = Some mo /\
             mo_end mo = pos + length (take_while p rest).
Proof.
  intros Hn. unfold match_at. cbn [run m_pos m_rest m_caps].
  destruct (rep_greedy_head p rest 1 pos Hn) as [l Hl].
  unfold p in Hl. rewrite Hl. cbn. eauto.
Qed.

Lemma plus_match_none pos (rest : str) :
  length (take_while p rest) = 0 -> match_at false (RPlus a) pos rest = None.
Proof.
  intros Hn. unfold match_at. cbn [run m_pos m_rest m_caps].
  fold p. rewrite rep_too_short by lia. reflexivity.
Qed.

Lemma run_normal_from_weaken b (s : str) :
  run_normal_from p x b s = true -> run_normal_from p x false s = true.
Proof.
  destruct s as [|c t]; cbn; [auto|]. destruct (p c); [|auto].
  destruct b; cbn; [|auto]. rewrite andb_false_r. discriminate.
Qed.

Lemma run_normal_from_true (s : str) :
  run_normal_from p x false s = true -> starts_clear p s ->
  run_normal_from p x true s = true.
Proof.
  destruct s as [|c t]; cbn; [auto|]. intros H Hc. rewrite Hc in *. exact H.
Qed.

Lemma run_normal_true_clear (s : str) :
  run_normal_from p x true s = true -> starts_clear p s.
Proof.
  destruct s as [|c t]; cbn; [auto|]. destruct (p c); [|auto].
  rewrite andb_false_r. discriminate.
Qed.

(** A step of the substitution at a code point of a run. *)
Lemma sub_plus_run pos c (t : str) :
  p c = true ->
  sub_from false (RPlus a) [x] pos (c :: t) 0 =
  x :: sub_from false (RPlus a) [x] (S pos + length (take_while p t))
         (drop_while p t) 0.
Proof.
  intros Hc. cbn [sub_from].
  set (m := length (take_while p t)).
  assert (Htw : length (take_while p (c :: t)) = S m)
    by (cbn [take_while]; now rewrite Hc).
  destruct (plus_match_some pos (c :: t)) as (mo & -> & He); [lia|].
  rewrite He, Htw. replace (pos + S m - pos) with (S m) by lia.
  rewrite sub_from_skip by apply take_while_length.
  unfold m. rewrite drop_take_while. reflexivity.
Qed.

Lemma sub_plus_other pos c (t : str) :
  p c = false ->
  sub_from false (RPlus a) [x] pos (c :: t) 0 =
  c :: sub_from false (RPlus a) [x] (S pos) t 0.
Proof.
  intros Hc. cbn [sub_from].
  rewrite plus_match_none by (cbn [take_while]; now rewrite Hc). reflexivity.
Qed.

Lemma sub_plus_nil pos : sub_from false (RPlus a) [x] pos [] 0 = [].
Proof. cbn [sub_from]. rewrite plus_match_none by reflexivity. reflexivity. Qed.

Lemma drop_while_length_le (q : char -> bool) (t : str) :
  length (drop_while q t) <= length t.
Proof.
  destruct (drop_while_suffix q t) as (w & Hw & _).
  rewrite Hw at 2. rewrite length_app. lia.
Qed.

Lemma filter_drop_while (q : char -> bool) (t : str) :
  List.filter (fun c => negb (q c)) (drop_while q t)
  = List.filter (fun c => negb (q c)) t.
Proof.
  induction t as [|d t IH]; [reflexivity|]. cbn [drop_while].
  destruct (q d) eqn:Hd.
  - cbn [List.filter]. rewrite Hd. cbn [negb]. exact IH.
  - reflexivity.
Qed.

(** Collapsing leaves collapsed text as it is. *)
Lemma collapse_run_id (s : str) : forall pos,
  run_normal p x s = true -> sub_from false (RPlus a) [x] pos s 0 = s.
Proof.
  unfold run_normal. induction s as [|c t IH]; intros pos H.
  - apply sub_plus_nil.
  - cbn [run_normal_from] in H. destruct (p c) eqn:Hc.
    + apply andb_prop in H as [H1 H2]. apply andb_prop in H1 as [H1 _].
      apply N.eqb_eq in H1. subst c. rewrite sub_plus_run by exact Hc.
      pose proof (run_normal_true_clear _ H2) as Hcl.
      rewrite (take_while_clear _ _ Hcl), (drop_while_clear _ _ Hcl).
      rewrite IH by (eapply run_normal_from_weaken; eauto). reflexivity.
    + rewrite sub_plus_other by exact Hc. now rewrite IH.
Qed.

(** Collapsing yields collapsed text, never longer than the subject, with
    the code points outside the runs kept in order. *)
Lemma collapse_run_aux : forall n (s : str) pos,
  length s <= n ->
  let out := sub_from false (RPlus a) [x] pos s 0 in
  run_normal p x out = true /\
  (starts_clear p s -> starts_clear p out) /\
  length out <= length s /\
  List.filter (fun c => negb (p c)) out = List.filter (fun c => negb (p c)) s.
Proof.
  unfold run_normal. induction n as [|n IH]; intros s pos Hlen.
  - destruct s; [|cbn in Hlen; lia]. cbn zeta. rewrite sub_plus_nil. cbn. auto.
  - destruct s as [|c t].
    { cbn zeta. rewrite sub_plus_nil. cbn. auto. }
    cbn zeta. destruct (p c) eqn:Hc.
    + rewrite sub_plus_run by exact Hc.
      destruct (IH (drop_while p t) (S pos + length (take_while p t)))
        as (Hn & Hs & Hl & Hf).
      { pose proof (drop_while_length_le p t). cbn in Hlen. lia. }
      split; [|split; [|split]].
      * cbn [run_normal_from]. fold p in p_x. rewrite p_x. rewrite N.eqb_refl. cbn [negb andb].
        apply run_normal_from_true; [exact Hn|].
        apply Hs, drop_while_starts_clear.
      * cbn [starts_clear]. intros Hcl. congruence.
      * pose proof (drop_while_length_le p t). cbn [length]. lia.
      * cbn [List.filter]. fold p in p_x. rewrite p_x, Hc. cbn [negb]. rewrite Hf.
        apply filter_drop_while.
    + rewrite sub_plus_other by exact Hc.
      destruct (IH t (S pos)) as (Hn & _ & Hl & Hf); [cbn in Hlen; lia|].
      split; [|split; [|split]].
      * cbn [run_normal_from]. now rewrite Hc.
      * intros _. exact Hc.
      * cbn [length]. lia.
      * cbn [List.filter]. rewrite Hc. cbn [negb]. now rewrite Hf.
Qed.

Lemma collapse_run (s : str) :
  let out := re_sub false (RPlus a) [x] s in
  run_normal p x out = true /\ length out <= length s /\
  List.filter (fun c => negb (p c)) out = List.filter (fun c => negb (p c)) s.
Proof.
  cbn zeta. unfold re_sub.
  destruct (collapse_run_aux (length s) s 0 (Nat.le_refl _)) as (H1 & _ & H2 & H3).
  auto.
Qed.
End RunCollapse.

Section Preservation.
Context `{U : unicode_tables}.

Lemma replace_from_Forall (P : char -> Prop) (old new : str) :
  Forall P new -> forall (s : str) k, Forall P s -> Forall P (replace_from old new s k).
Proof.
  intros Hnew. induction s as [|c t IH]; intros k Hs; cbn [replace_from]; [constructor|].
  inversion Hs as [|? ? Hc Ht]; subst.
  destruct k as [|k]; [|now apply IH].
  destruct (is_prefix old (c :: t)).
  - apply Forall_app. split; [exact Hnew|now apply IH].
  - constructor; [exact Hc|now apply IH].
Qed.

Lemma replace_Forall (P : char -> Prop) (old new s : str) :
  Forall P new -> Forall P s -> Forall P (replace old new s).
Proof.
  intros Hnew Hs. unfold replace. destruct old as [|o old'].
  - apply Forall_app. split; [exact Hnew|].
    induction Hs as [|c t Hc Ht IH]; cbn [flat_map]; [constructor|].
    constructor; [exact Hc|]. apply Forall_app. split; [exact Hnew|exact IH].
  - now apply replace_from_Forall.
Qed.

Lemma sub_from_Forall (P : char -> Prop) ic r (repl : str) :
  Forall P repl -> forall (rest : str) pos k,
  Forall P rest -> Forall P (sub_from ic r repl pos rest k).
Proof.
  intros Hrepl. induction rest as [|c t IH]; intros pos k Hs.
  - destruct k; cbn [sub_from]; [|constructor].
    destruct (match_at ic r pos []); [|constructor].
    rewrite app_nil_r. exact Hrepl.
  - inversion Hs as [|? ? Hc Ht]; subst.
    destruct k as [|k]; cbn [sub_from]; [|now apply IH].
    destruct (match_at ic r pos (c :: t)) as [m|].
    + apply Forall_app. split; [exact Hrepl|].
      destruct (mo_end m - pos); [constructor; [exact Hc|]|]; now apply IH.
    + constructor; [exact Hc|now apply IH].
Qed.

Lemma strip_Forall (P : char -> Prop) (s : str) : Forall P s -> Forall P (strip s).
Proof.
  intros H. destruct (strip_substring s) as (u & v & Hs). rewrite Hs in H.
  apply Forall_app in H as [_ H]. apply Forall_app in H as [H _]. exact H.
Qed.

Lemma rstrip_by_Forall (P : char -> Prop) q (s : str) :
  Forall P s -> Forall P (rstrip_by q s).
Proof.
  intros H. destruct (rstrip_by_prefix q s) as (w & Hs & _). rewrite Hs in H.
  apply Forall_app in H as [H _]. exact H.
Qed.
End Preservation.

Section HouseMore.
Context `{U : unicode_tables}.

Lemma isspace_false_range (c : N) : (33 <= c < 133)%N -> isspace c = false.
Proof.
  intros Hc. unfold isspace.
  replace (c <=? 13)%N with false by (symmetry; apply N.leb_gt; lia).
  replace (c <=? 32)%N with false by (symmetry; apply N.leb_gt; lia).
  replace (c =? 0x85)%N with false by (symmetry; apply N.eqb_neq; lia).
  replace (c =? 0xA0)%N with false by (symmetry; apply N.eqb_neq; lia).
  replace (c =? 0x1680)%N with false by (symmetry; apply N.eqb_neq; lia).
  replace (0x2000 <=? c)%N with false by (symmetry; apply N.leb_gt; lia).
  replace (c =? 0x2028)%N with false by (symmetry; apply N.eqb_neq; lia).
  replace (c =? 0x2029)%N with false by (symmetry; apply N.eqb_neq; lia).
  replace (c =? 0x202F)%N with false by (symmetry; apply N.eqb_neq; lia).
  replace (c =? 0x205F)%N with false by (symmetry; apply N.eqb_neq; lia).
  replace (c =? 0x3000)%N with false by (symmetry; apply N.eqb_neq; lia).
  rewrite !andb_false_r. reflexivity.
Qed.

Lemma house_char_range (c : N) :
  digit_or_slash c || ascii_letter c = true -> (47 <= c <= 122)%N.
Proof.
  unfold ascii_letter, digit_or_slash, ascii_is_upper, ascii_is_lower,
    ascii_is_digit. change (code "/") with 47%N.
  destruct (N.leb_spec 48 c), (N.leb_spec c 57), (N.eqb_spec c 47),
    (N.leb_spec 65 c), (N.leb_spec c 90), (N.leb_spec 97 c), (N.leb_spec c 122);
    cbn; intros Hc; try discriminate; lia.
Qed.

Lemma house_chars_plain (v : str) :
  forallb (fun c => digit_or_slash c || ascii_letter c) v = true ->
  Forall (fun c : N => isspace c = false /\ c <> code "," /\ c <> code "-" /\ c <> LF) v.
Proof.
  intros H. apply List.Forall_forall. intros c Hin.
  rewrite forallb_forall in H. specialize (H c Hin).
  apply house_char_range in H.
  change (code ",") with 44%N. change (code "-") with 45%N. change LF with 10%N.
  split; [apply isspace_false_range; lia|]. repeat split; lia.
Qed.

Lemma last_In {A} (l : list A) x : last l = Some x -> In x l.
Proof.
  induction l as [|a [|b t] IH]; cbn; [discriminate| |].
  - intros [= ->]. now left.
  - intros H. right. apply IH. exact H.
Qed.

Lemma strip_plain (s : str) :
  Forall (fun c => isspace c = false) s -> strip s = s.
Proof.
  intros H. apply strip_id.
  - destruct s as [|c t]; cbn; [auto|]. now inversion H.
  - unfold ends_clear. destruct (last s) as [c|] eqn:Hl; [|auto].
    rewrite List.Forall_forall in H. apply H. now apply last_In.
Qed.

Lemma replace_from_absent (o : char) (old' new : str) : forall s : str,
  ~ In o s -> replace_from (o :: old') new s 0 = s.
Proof.
  induction s as [|c t IH]; intros Hni; cbn [replace_from]; [reflexivity|].
  cbn [is_prefix]. destruct (N.eqb_spec o c) as [->|Hne].
  - exfalso. apply Hni. now left.
  - cbn [andb]. rewrite IH; [reflexivity|]. intros Hin. apply Hni. now right.
Qed.

Lemma run_normal_from_app_clear p x (w : str) : forall (s : str) b,
  forallb (fun c => negb (p c)) w = true ->
  run_normal_from p x b (s ++ w) = run_normal_from p x b s.
Proof.
  intros s b Hw. revert b. induction s as [|c t IH]; intros b.
  - cbn [app run_normal_from]. revert b.
    induction w as [|d w IHw]; intros b; [reflexivity|]. cbn in Hw.
    apply andb_prop in Hw as [Hd Hw]. cbn [run_normal_from].
    destruct (p d); [discriminate|]. now apply IHw.
  - cbn [app run_normal_from]. destruct (p c); now rewrite IH.
Qed.

Lemma run_normal_from_prefix p x (s w : str) : forall b,
  run_normal_from p x b (s ++ w) = true -> run_normal_from p x b s = true.
Proof.
  induction s as [|c t IH]; intros b; [reflexivity|].
  cbn [app run_normal_from]. destruct (p c).
  - intros H. apply andb_prop in H as [H1 H2]. rewrite H1. cbn [andb]. now apply IH.
  - apply IH.
Qed.

Lemma house_prepared_normal (raw : str) :
  run_normal is_slash (code "/") (house_prepared raw) = true.
Proof.
  unfold house_prepared, RE_SLASHES.
  exact (proj1 (collapse_run (ALit (code "/")) (code "/") eq_refl _)).
Qed.

Lemma house_prepared_Forall (P : char -> Prop) (raw : str) :
  P (code "/") -> Forall P raw -> Forall P (house_prepared raw).
Proof.
  intros Hs H. unfold house_prepared, re_sub.
  apply sub_from_Forall; [repeat constructor; exact Hs|].
  apply replace_Forall; [repeat constructor; exact Hs|].
  apply replace_Forall; [constructor|]. now apply strip_Forall.
Qed.

Lemma house_prepared_plain (v : str) :
  forallb (fun c => digit_or_slash c || ascii_letter c) v = true ->
  run_normal is_slash (code "/") v = true ->
  house_prepared v = v.
Proof.
  intros Hv Hn. pose proof (house_chars_plain v Hv) as Hp.
  unfold house_prepared.
  rewrite strip_plain by (eapply Forall_impl; [exact Hp|]; cbn; tauto).
  unfold replace. change (lit ",") with [code ","]. change (lit "-") with [code "-"].
  cbv iota.
  rewrite List.Forall_forall in Hp.
  rewrite (replace_from_absent (code ",") [] [] v).
  2:{ intros Hin. destruct (Hp _ Hin) as (_ & Hc & _). now apply Hc. }
  rewrite (replace_from_absent (code "-") [] (lit "/") v).
  2:{ intros Hin. destruct (Hp _ Hin) as (_ & _ & Hc & _). now apply Hc. }
  unfold re_sub, RE_SLASHES. change (lit "/") with [code "/"].
  apply (collapse_run_id (ALit (code "/")) (code "/")). exact Hn.
Qed.

Lemma no_LF_last (s : str) : Forall (fun c : N => c <> LF) s -> last s <> Some LF.
Proof.
  intros H Hl. apply last_In in Hl. rewrite List.Forall_forall in H. now apply (H LF).
Qed.

Lemma toupper_upper (c : N) : ascii_is_upper c = true -> ascii_toupper c = c.
Proof.
  unfold ascii_toupper, ascii_is_upper, ascii_is_lower.
  destruct (N.leb_spec 65 c), (N.leb_spec c 90), (N.leb_spec 97 c), (N.leb_spec c 122);
    cbn; intros Hc; try discriminate; try reflexivity; exfalso; lia.
Qed.

Lemma house_shape_upper_letter (v : str) :
  house_shape ascii_is_upper v = true -> house_shape ascii_letter v = true.
Proof.
  unfold house_shape. intros H. apply andb_prop in H as [H1 H2]. rewrite H1.
  cbn [andb]. destruct (drop_while digit_or_slash v) as [|c [|c' t]]; auto.
  now apply upper_is_letter.
Qed.

Context `{!ascii_exact U}.

(** When the prepared string does not end in a line feed, the validation
    is exactly the shape test. *)
Lemma normalize_house_no_exact (raw : str) :
  last (house_prepared raw) <> Some LF ->
  normalize_house_no raw =
  Ok (if house_shape ascii_letter (house_prepared raw)
      then take_while digit_or_slash (house_prepared raw)
           ++ map ascii_toupper (drop_while digit_or_slash (house_prepared raw))
      else []).
Proof.
  intros Hlast.
  destruct (normalize_house_no_cases raw)
    as [[-> Hv]|[(Hne & Hm & Hv)|(Hne & num & suf & tail & Hp & Hv)]].
  - rewrite Hv. reflexivity.
  - rewrite Hv. destruct (house_shape ascii_letter (house_prepared raw)) eqn:Hs;
      [|reflexivity].
    exfalso. exact (house_match_none _ _ _ _ Hm (house_shape_parts _ Hs)).
  - rewrite Hv. pose proof Hp as (Hh & Hnum & Hn & Hs & Hl & Hend).
    destruct Hend as [->| ->].
    + rewrite (house_parts_shape ascii_letter _ num suf Hp Hs).
      destruct (house_parts_span _ _ _ _ Hp) as [-> ->]. now rewrite app_nil_r.
    + exfalso. apply Hlast. rewrite Hh, !app_assoc. apply last_app_LF.
Qed.

Lemma canonical_parts (v : str) :
  canonical_house v = true ->
  forallb (fun c => digit_or_slash c || ascii_letter c) v = true /\
  map ascii_toupper (drop_while digit_or_slash v) = drop_while digit_or_slash v.
Proof.
  unfold canonical_house. intros H. apply andb_prop in H as [Hs _].
  pose proof (house_shape_parts v (house_shape_upper_letter v Hs))
    as (Hv & _ & Hn & Hl & _ & _).
  rewrite app_nil_r in Hv. split.
  - rewrite Hv at 1. rewrite forallb_app. apply andb_true_intro. split.
    + apply forallb_forall. intros c Hc.
      rewrite forallb_forall in Hn. now rewrite (Hn c Hc).
    + apply forallb_forall. intros c Hc.
      rewrite forallb_forall in Hl. rewrite (Hl c Hc). apply orb_true_r.
  - unfold house_shape in Hs. apply andb_prop in Hs as [_ Hs].
    destruct (drop_while digit_or_slash v) as [|c [|c' t]];
      [reflexivity| |discriminate].
    cbn [map]. now rewrite toupper_upper.
Qed.

(** Canonical house numbers are fixed points. *)
Lemma canonical_fixed (v : str) :
  canonical_house v = true -> normalize_house_no v = Ok v.
Proof.
  intros Hc. destruct (canonical_parts v Hc) as [Hchars Hup].
  pose proof Hc as Hc'. unfold canonical_house in Hc'.
  apply andb_prop in Hc' as [Hs Hn].
  pose proof (house_prepared_plain v Hchars Hn) as Hprep.
  rewrite normalize_house_no_exact.
  - rewrite Hprep, (house_shape_upper_letter v Hs), Hup.
    now rewrite take_drop_while.
  - rewrite Hprep. apply no_LF_last.
    eapply Forall_impl; [exact (house_chars_plain v Hchars)|]. cbn. tauto.
Qed.

(** What [normalize_house_no] returns is empty or canonical. *)
Lemma normalize_house_no_canonical (raw v : str) :
  normalize_house_no raw = Ok v -> v = [] \/ canonical_house v = true.
Proof.
  intros Hv.
  destruct (normalize_house_no_cases raw)
    as [[-> Hv']|[(Hne & Hm & Hv')|(Hne & num & suf & tail & Hp & Hv')]];
    rewrite Hv' in Hv; injection Hv as <-; [auto|auto|].
  right. pose proof Hp as (Hh & Hnum & Hn & Hs & Hl & Hend).
  assert (Hsuf : forallb ascii_is_upper (map ascii_toupper suf) = true).
  { clear -Hs. induction suf as [|c t IH]; cbn in *; [reflexivity|].
    apply andb_prop in Hs as [Hc Ht]. now rewrite (toupper_is_upper c Hc), IH. }
  assert (Hsuf' : forallb ascii_letter (map ascii_toupper suf) = true).
  { clear -Hsuf. induction (map ascii_toupper suf) as [|c t IH]; cbn in *;
      [reflexivity|]. apply andb_prop in Hsuf as [Hc Ht].
    now rewrite (upper_is_letter c Hc), IH. }
  unfold canonical_house. apply andb_true_intro. split.
  - apply (house_parts_shape _ _ num (map ascii_toupper suf)); [|exact Hsuf].
    unfold house_parts. rewrite app_nil_r. repeat split; auto.
    now rewrite length_map.
  - unfold run_normal. rewrite run_normal_from_app_clear.
    + pose proof (house_prepared_normal raw) as Hnorm. unfold run_normal in Hnorm.
      rewrite Hh in Hnorm. now apply run_normal_from_prefix in Hnorm.
    + apply forallb_forall. intros c Hc. rewrite forallb_forall in Hsuf'.
      specialize (Hsuf' c Hc). apply letter_not_digit_or_slash in Hsuf'.
      unfold digit_or_slash in Hsuf'. apply orb_false_elim in Hsuf' as [_ Hsl].
      unfold is_slash. now rewrite Hsl.
Qed.
End HouseMore.

(* ================================================================== *)
(** ** Further properties: anchors and windows *)
(* ================================================================== *)

Section AnchorTheorems.
Context `{U : unicode_tables}.

Lemma anchor_drop (tc : str) i pos vid :
  find_id_positions tc !! i = Some (pos, vid) ->
  pos <= length tc /\ exists rest', drop pos tc = vid ++ rest'.
Proof.
  intros H. destruct (find_id_positions_lookup _ _ _ _ H) as (mo & Hmo & Hs & Ht).
  pose proof (lookup_In _ _ _ Hmo) as Hin.
  destruct (finditer_from_spec _ _ _ _ _ _ Hin) as (k & _ & Hk & Hm).
  cbn [Nat.add] in Hm.
  destruct (match_at_span _ _ _ _ _ Hm) as (Hs' & He & rest' & Hr).
  rewrite Ht in *. assert (k = pos) as -> by congruence.
  split; [exact Hk|]. exists rest'. exact Hr.
Qed.

Lemma drop_contains (s : str) k (v rest' : str) :
  drop k s = v ++ rest' -> contains v s = true.
Proof.
  intros H. rewrite <- (take_drop k s), H. apply contains_app.
Qed.

Lemma lang_voter_id (v : str) : lang false VOTER_ID_PAT v <-> is_voter_id v.
Proof.
  unfold VOTER_ID_PAT, is_voter_id. cbn [lang]. split.
  - intros (ls & ds & -> & (Hl1 & Hl2 & Hl3) & (Hd1 & Hd2 & Hd3)).
    exists ls, ds. split; [reflexivity|].
    specialize (Hl3 3 eq_refl). specialize (Hd3 7 eq_refl).
    split; [lia|]. split.
    + rewrite (forallb_ext_eq _ (atom_match false (ASet false [CRange (code "A") (code "Z")])));
        [exact Hl1|]. intros c. symmetry. apply upper_set_match.
    + split; [lia|exact Hd1].
  - intros (ls & ds & -> & Hl & Hu & Hd & Hdig).
    exists ls, ds. split; [reflexivity|]. split.
    + split; [|split; [lia|intros h [= <-]; lia]].
      rewrite (forallb_ext_eq _ ascii_is_upper); [exact Hu|].
      intros c. apply upper_set_match.
    + split; [exact Hdig|]. split; [lia|intros h [= <-]; lia].
Qed.

(** X1: every record of a page carries an identifier of the shape of
    VOTER_ID_PAT, two or three ASCII capitals followed by seven decimal
    digits, hence nine or ten code points and never empty; the identifiers
    are those of the anchors, in anchor order, and each occurs in the
    collapsed page text. *)
Theorem voter_ids_are_well_formed (text : str) (page_num : Z) :
  exists voters, parse_page text page_num = Ok voters /\
    map voter_id voters = map snd (find_id_positions (text_clean_of text)) /\
    Forall (fun v => is_voter_id (voter_id v) /\
                     9 <= length (voter_id v) <= 10 /\
                     contains (voter_id v) (text_clean_of text) = true) voters.
Proof.
  destruct (parse_page_spec text page_num) as (voters & Hp & Hlen & Hall).
  fold (text_clean_of text) in Hlen, Hall.
  exists voters. split; [exact Hp|].
  assert (Hid : forall i v, voters !! i = Some v ->
            exists pos, find_id_positions (text_clean_of text) !! i
                        = Some (pos, voter_id v)).
  { intros i v Hv. assert (Hi : i < length voters) by (eapply lookup_lt_Some; eauto).
    rewrite Hlen in Hi. apply lookup_lt_is_Some_2 in Hi as [[pos vid] Hpv].
    destruct (Hall i pos vid Hpv) as (v' & _ & _ & _ & Hv' & Hvid & _).
    rewrite Hv in Hv'. injection Hv' as <-. exists pos. now rewrite Hvid. }
  split.
  - apply list_eq. intros i. rewrite !list_lookup_fmap.
    destruct (voters !! i) as [v|] eqn:Hv.
    + destruct (Hid i v Hv) as [pos ->]. reflexivity.
    + apply lookup_ge_None in Hv. rewrite Hlen in Hv.
      apply lookup_ge_None in Hv. now rewrite Hv.
  - apply Forall_lookup. intros i v Hv. destruct (Hid i v Hv) as [pos Hpv].
    destruct (anchor_facts _ _ _ _ Hpv) as (Hshape & _).
    destruct (anchor_drop _ _ _ _ Hpv) as (_ & rest' & Hd).
    split; [exact Hshape|]. split; [now apply is_voter_id_length|].
    exact (drop_contains _ _ _ _ Hd).
Qed.

(** X2: the anchors of a page lie in the text where they say, left to
    right and without overlap: the text of an anchor is the slice of the
    collapsed page text at its offset, it ends inside the text, and the next
    anchor starts at or after its end. *)
Theorem anchors_in_order (tc : str) (i pos : nat) (vid : str) :
  find_id_positions tc !! i = Some (pos, vid) ->
  slice tc pos (pos + length vid) = vid /\
  pos + length vid <= length tc /\
  forall pos' vid', find_id_positions tc !! S i = Some (pos', vid') ->
    pos + length vid <= pos'.
Proof.
  intros H. destruct (anchor_facts _ _ _ _ H) as (_ & H1 & H2 & H3). auto.
Qed.

(** X3: no identifier is passed over: wherever the text holds two or three
    ASCII capitals followed by seven decimal digits, that offset is the
    offset of an anchor or lies strictly inside an anchor that started
    earlier. *)
Theorem no_identifier_is_skipped (tc : str) (k : nat) (v rest : str) :
  drop k tc = v ++ rest -> k <= length tc -> is_voter_id v ->
  (exists vid, In (k, vid) (find_id_positions tc)) \/
  (exists pos vid, In (pos, vid) (find_id_positions tc) /\
                   pos < k < pos + length vid).
Proof.
  intros Hd Hk Hv.
  assert (Hm : is_some (match_at false VOTER_ID_PAT k (drop k tc)) = true).
  { apply match_at_lang; [reflexivity|]. exists v, rest. split; [exact Hd|].
    now apply lang_voter_id. }
  destruct (match_at false VOTER_ID_PAT k (drop k tc)) as [mo|] eqn:Hmo;
    [clear Hm|discriminate].
  destruct (finditer_from_complete false VOTER_ID_PAT tc 0 0 k mo
              (Nat.le_0_l _) Hk Hmo) as [Hin|(m & Hin & Hr)].
  - left. exists (mo_text mo). unfold find_id_positions.
    apply in_map_iff. exists mo. split; [|exact Hin].
    destruct (match_at_span _ _ _ _ _ Hmo) as (-> & _). reflexivity.
  - right. exists (mo_start m), (mo_text m). split.
    + unfold find_id_positions. apply in_map_iff. exists m. split; [reflexivity|exact Hin].
    + destruct (finditer_from_spec _ _ _ _ _ _ Hin) as (k' & _ & _ & Hm').
      destruct (match_at_span _ _ _ _ _ Hm') as (Hs & He & _).
      cbn [Nat.add] in Hr. lia.
Qed.

Lemma slice_to_end (tc : str) p : slice tc p (length tc) = drop p tc.
Proof.
  unfold slice. apply take_ge. rewrite length_drop. lia.
Qed.

Lemma slice_glue (tc : str) p q :
  p <= q -> slice tc p q ++ drop q tc = drop p tc.
Proof.
  intros Hpq. unfold slice. replace (drop q tc) with (drop (q - p) (drop p tc)).
  - apply take_drop.
  - rewrite drop_drop. f_equal. lia.
Qed.

Lemma after_windows_glue (tc : str) (ids : list (nat * str)) :
  (forall i p v q w, ids !! i = Some (p, v) -> ids !! S i = Some (q, w) -> p <= q) ->
  forall suf pre p v, ids = pre ++ (p, v) :: suf ->
    concat (map (fun ia : nat * (nat * str) =>
                   after_window tc ids (fst ia) (fst (snd ia)))
                (enumerate_from (length pre) ((p, v) :: suf)))
    = drop p tc.
Proof.
  intros Hchain. induction suf as [|[q w] suf IH]; intros pre p v Hids.
  - cbn [enumerate_from map concat fst snd]. rewrite app_nil_r.
    unfold after_window, next_pos_of. rewrite nth_overflow.
    + apply slice_to_end.
    + rewrite length_map, Hids, length_app. cbn. lia.
  - cbn [enumerate_from map concat fst snd].
    assert (Hp : ids !! length pre = Some (p, v)).
    { rewrite Hids. now rewrite list_lookup_middle. }
    assert (Hq : ids !! S (length pre) = Some (q, w)).
    { rewrite Hids. rewrite (lookup_app_r pre) by lia.
      replace (S (length pre) - length pre) with 1 by lia. reflexivity. }
    specialize (IH (pre ++ [(p, v)]) q w).
    rewrite length_app in IH. cbn [length] in IH.
    replace (length pre + 1) with (S (length pre)) in IH by lia.
    cbn [enumerate_from map concat fst snd] in IH.
    rewrite IH by (rewrite Hids, <- app_assoc; reflexivity).
    unfold after_window at 1. unfold next_pos_of.
    rewrite (nth_fst_lookup _ _ _ _ Hq). cbn [fst].
    apply slice_glue. exact (Hchain _ _ _ _ _ Hp Hq).
Qed.

(** X4: the windows tile the page.  The after-window of an anchor starts
    with its identifier; the before-window of the next anchor is that same
    after-window; and the text before the first anchor followed by all the
    after-windows, in order, is the collapsed page text. *)
Theorem windows_tile_the_page (tc : str) :
  let ids := find_id_positions tc in
  (forall i pos vid, ids !! i = Some (pos, vid) ->
     exists w, after_window tc ids i pos = vid ++ w) /\
  (forall i pos vid pos' vid',
     ids !! i = Some (pos, vid) -> ids !! S i = Some (pos', vid') ->
     before_window tc ids (S i) pos' = after_window tc ids i pos) /\
  (forall pos vid, ids !! 0 = Some (pos, vid) ->
     before_window tc ids 0 pos ++ concat (after_windows tc ids) = tc).
Proof.
  intros ids.
  assert (Hchain : forall i p v q w,
            ids !! i = Some (p, v) -> ids !! S i = Some (q, w) -> p <= q).
  { intros i p v q w Hp Hq. destruct (anchor_facts _ _ _ _ Hp) as (_ & _ & _ & Hn).
    specialize (Hn _ _ Hq). lia. }
  split; [|split].
  - intros i pos vid Hi. destruct (anchor_facts _ _ _ _ Hi) as (_ & Hsl & Hlen & Hn).
    destruct (anchor_drop _ _ _ _ Hi) as (_ & rest' & Hd).
    unfold after_window, slice. rewrite Hd.
    assert (Hnext : pos + length vid <= next_pos_of tc ids i).
    { unfold next_pos_of. destruct (ids !! S i) as [[q w]|] eqn:Hq.
      - rewrite (nth_fst_lookup _ _ _ _ Hq). cbn [fst]. exact (Hn _ _ Hq).
      - rewrite nth_overflow; [exact Hlen|].
        rewrite length_map. now apply lookup_ge_None. }
    exists (take (next_pos_of tc ids i - pos - length vid) rest').
    rewrite take_app. f_equal.
    + apply take_ge. lia.
  - intros i pos vid pos' vid' Hi Hi'. unfold before_window, after_window.
    unfold prev_pos_of, next_pos_of.
    rewrite (nth_fst_lookup _ _ _ _ Hi), (nth_fst_lookup _ _ _ _ Hi').
    reflexivity.
  - intros pos vid H0. unfold after_windows, enumerate.
    pose proof (after_windows_glue tc ids Hchain) as Hg. clearbody ids.
    destruct ids as [|[p v] suf]; [discriminate|].
    cbn in H0. injection H0 as -> ->.
    specialize (Hg suf [] pos vid eq_refl). cbn [length] in Hg. rewrite Hg.
    unfold before_window, prev_pos_of, slice. cbn [drop].
    rewrite Nat.sub_0_r. apply take_drop.
Qed.
End AnchorTheorems.

(* ================================================================== *)
(** ** Further properties: the fields of a block *)
(* ================================================================== *)

Section BlockTheorems2.
Context `{U : unicode_tables}.

Lemma tidy_nil : tidy [].
Proof. split; [reflexivity|apply strip_nil]. Qed.

Lemma clean_tidy (s : str) : tidy (clean s).
Proof.
  destruct (clean_result s) as (Hn & Hs & He & _).
  split; [exact Hn|now apply strip_id].
Qed.

(** X5: the name of a block passes both guards of parse_block: it holds no
    hyphen and no equals sign, its upper-case form does not contain NAME and
    is not one of the header strings BAD_NAMES, and it does not start with a
    decimal digit.  It is trimmed with single blanks only, and when it is not
    empty it is the cleaned capture of the name pattern. *)
Theorem name_passes_the_guards (block : str) :
  exists r, parse_block block = Ok r /\
    name_guarded (name r) /\ tidy (name r) /\
    (name r <> [] -> exists mo g,
       re_search false RE_NAME block = Some mo /\ group (Some mo) 1 = Ok g /\
       run_of not_LF g /\ contains g block = true /\ name r = clean g).
Proof.
  destruct (parse_block_name block) as (r & Hr & Hg & Hn).
  exists r. split; [exact Hr|]. split; [exact Hg|].
  destruct (name r) as [|c t] eqn:Hname.
  - split; [apply tidy_nil|]. intros Hne. now elim Hne.
  - destruct (Hn ltac:(discriminate)) as (mo & g & Hs & Hgr & Hcl).
    split; [rewrite Hcl; apply clean_tidy|].
    intros _. exists mo, g. destruct (name_capture _ _ _ Hs Hgr) as [Hrun Hc].
    repeat split; auto; apply Hrun.
Qed.

(** X6: the age of a block is empty or a run of decimal digits that occurs
    in the block, and it is not empty exactly when the block holds the label
    Age, a separator and at least one digit. *)
Theorem age_is_a_run_of_digits (block : str) :
  exists r, parse_block block = Ok r /\
    (age r = [] \/ run_of uni_decimal (age r)) /\
    contains (age r) block = true /\
    (age r <> [] <-> labelled (eq (lit "Age")) (run_of uni_decimal) block).
Proof.
  destruct (parse_block_fields block) as (r & Hr & _ & _ & _ & _ & Ha).
  exists r. split; [exact Hr|]. unfold age_field in Ha.
  rewrite <- search_age.
  destruct (re_search false RE_AGE block) as [m|] eqn:Hs.
  - destruct (age_capture _ _ _ Hs Ha) as [Hrun Hc].
    split; [now right|]. split; [exact Hc|]. cbn [is_some].
    split; [reflexivity|]. intros _. apply Hrun.
  - rewrite Ha. split; [now left|]. split; [now destruct block|].
    cbn [is_some]. split; [intros H; now elim H|discriminate].
Qed.

(** X7: the relation follows the order of the tests in parse_block: a
    father label gives S/O whatever else the block holds, a husband label
    gives W/O only without a father label, a mother label gives C/O only
    without the other two, and without any of them type and name are empty.
    The relation name is trimmed with single blanks only. *)
Theorem relation_priority (block : str) :
  let has who := labelled (relation_label (lit who)) (run_of not_LF) block in
  exists r, parse_block block = Ok r /\
    (has "Father" -> relation_type r = lit "S/O") /\
    (~ has "Father" -> has "Husband" -> relation_type r = lit "W/O") /\
    (~ has "Father" -> ~ has "Husband" -> has "Mother" ->
     relation_type r = lit "C/O") /\
    (~ has "Father" -> ~ has "Husband" -> ~ has "Mother" ->
     relation_type r = [] /\ relation_name r = []) /\
    tidy (relation_name r).
Proof.
  intros has.
  destruct (parse_block_fields block) as (r & Hr & _ & Hrel & _).
  exists r. split; [exact Hr|]. unfold relation_fields in Hrel.
  assert (HF : has "Father" <-> is_some (re_search false RE_FATHER block) = true)
    by (symmetry; apply search_relation).
  assert (HH : has "Husband" <-> is_some (re_search false RE_HUSBAND block) = true)
    by (symmetry; apply search_relation).
  assert (HM : has "Mother" <-> is_some (re_search false RE_MOTHER block) = true)
    by (symmetry; apply search_relation).
  rewrite HF, HH, HM. clear HF HH HM.
  destruct (re_search false RE_FATHER block) as [m1|]; cbn [is_some].
  { destruct Hrel as (g & _ & Ht & Hn). rewrite Hn.
    split; [intros _; exact Ht|].
    split; [intros H; elim H; reflexivity|].
    split; [intros H; elim H; reflexivity|].
    split; [intros H; elim H; reflexivity|apply clean_tidy]. }
  destruct (re_search false RE_HUSBAND block) as [m2|]; cbn [is_some].
  { destruct Hrel as (g & _ & Ht & Hn). rewrite Hn.
    split; [intros H; discriminate H|].
    split; [intros _ _; exact Ht|].
    split; [intros _ H; elim H; reflexivity|].
    split; [intros _ H; elim H; reflexivity|apply clean_tidy]. }
  destruct (re_search false RE_MOTHER block) as [m3|]; cbn [is_some].
  { destruct Hrel as (g & _ & Ht & Hn). rewrite Hn.
    split; [intros H; discriminate H|].
    split; [intros _ H; discriminate H|].
    split; [intros _ _ _; exact Ht|].
    split; [intros _ _ H; elim H; reflexivity|apply clean_tidy]. }
  destruct Hrel as [Ht Hn]. rewrite Hn.
  split; [intros H; discriminate H|].
  split; [intros _ H; discriminate H|].
  split; [intros _ _ H; discriminate H|].
  split; [intros _ _ _; split; [exact Ht|reflexivity]|apply tidy_nil].
Qed.

Lemma labelled_separator label_ok value_ok (window : str) :
  labelled label_ok value_ok window ->
  exists sep, In sep window /\ is_separator sep = true.
Proof.
  intros (x & lab & ws1 & sep & ws2 & v & y & -> & _ & _ & Hsep & _).
  exists sep. split.
  - apply in_or_app. right. apply in_or_app. right. apply in_or_app. right.
    apply in_or_app. left. now left.
  - unfold is_separator. cbn [In] in Hsep.
    destruct Hsep as [<-|[<-|[<-|[]]]]; reflexivity.
Qed.

Lemma no_separator_no_label label_ok value_ok P (window : str) :
  forallb (fun c => negb (is_separator c)) window = true ->
  (is_some (re_search false P window) = true <-> labelled label_ok value_ok window) ->
  re_search false P window = None.
Proof.
  intros Hw Hiff. apply not_some_none. intros Hs. apply Hiff in Hs.
  destruct (labelled_separator _ _ _ Hs) as (sep & Hin & Hsep).
  rewrite forallb_forall in Hw. specialize (Hw sep Hin). rewrite Hsep in Hw.
  discriminate.
Qed.

(** X8: a block without any of the separators ':', '+' and '!' yields the
    record with six empty fields, whatever labels it holds. *)
Theorem no_separator_no_fields (block : str) :
  forallb (fun c => negb (is_separator c)) block = true ->
  parse_block block = Ok empty_record /\ completeness empty_record = 0.
Proof.
  intros Hw. split; [|reflexivity]. unfold parse_block.
  unfold RE_FATHER, RE_HUSBAND, RE_MOTHER.
  rewrite (no_separator_no_label _ _ _ _ Hw (search_name block)).
  rewrite (no_separator_no_label _ _ _ _ Hw (search_relation (lit "Father") block)).
  rewrite (no_separator_no_label _ _ _ _ Hw (search_relation (lit "Husband") block)).
  rewrite (no_separator_no_label _ _ _ _ Hw (search_relation (lit "Mother") block)).
  rewrite (no_separator_no_label _ _ _ _ Hw (search_house block)).
  rewrite (no_separator_no_label _ _ _ _ Hw (search_age block)).
  rewrite (no_separator_no_label _ _ _ _ Hw (search_gender block)).
  reflexivity.
Qed.
End BlockTheorems2.

(* ================================================================== *)
(** ** Further properties: house numbers *)
(* ================================================================== *)

(** What the substitution of one code point for the runs of  a+  removed
    was matched by [a]. *)
Section CollapseBack.
Context `{U : unicode_tables}.
Variable a : atom.
Variable x : char.

Lemma take_while_Forall (q : char -> bool) (Q : char -> Prop) (t : str) :
  (forall c, q c = true -> Q c) -> Forall Q (drop_while q t) -> Forall Q t.
Proof.
  intros Hq. induction t as [|c t IH]; cbn [drop_while]; [auto|].
  destruct (q c) eqn:Hc; [|auto]. intros H. constructor; auto.
Qed.

Lemma collapse_back (Q : char -> Prop) :
  (forall c, atom_match false a c = true -> Q c) ->
  forall n (s : str) pos, length s <= n ->
    Forall Q (sub_from false (RPlus a) [x] pos s 0) -> Forall Q s.
Proof.
  intros Hq. induction n as [|n IH]; intros s pos Hlen H.
  - destruct s; [constructor|cbn in Hlen; lia].
  - destruct s as [|c t]; [constructor|].
    destruct (atom_match false a c) eqn:Hc.
    + rewrite (sub_plus_run a x pos c t Hc) in H.
      inversion H as [|? ? _ Ht]; subst. constructor; [now apply Hq|].
      apply (take_while_Forall (atom_match false a)); [exact Hq|].
      assert (Hl : length (drop_while (atom_match false a) t) <= n).
      { pose proof (drop_while_length_le (atom_match false a) t). cbn in Hlen. lia. }
      exact (IH _ _ Hl Ht).
    + rewrite (sub_plus_other a x pos c t Hc) in H.
      inversion H as [|? ? Hc' Ht]; subst. constructor; [exact Hc'|].
      assert (Hl : length t <= n) by (cbn in Hlen; lia).
      exact (IH _ _ Hl Ht).
Qed.
End CollapseBack.

Section HouseTheorems2.
Context `{U : unicode_tables}.

Lemma replace_single_back (Q : char -> Prop) (o : char) (new : str) :
  Q o -> forall s : str, Forall Q (replace_from [o] new s 0) -> Forall Q s.
Proof.
  intros Ho. induction s as [|c t IH]; intros H; [constructor|].
  cbn [replace_from is_prefix length] in H. rewrite andb_true_r in H.
  destruct (N.eqb_spec o c) as [<-|Hne].
  - cbn [Nat.sub] in H. apply Forall_app in H as [_ H]. constructor; auto.
  - inversion H; subst. constructor; auto.
Qed.

Lemma strip_back (Q : char -> Prop) (s : str) :
  (forall c, isspace c = true -> Q c) -> Forall Q (strip s) -> Forall Q s.
Proof.
  intros Hq H. unfold strip, lstrip_by in H.
  destruct (drop_while_suffix isspace s) as (w1 & Hs & Hw1).
  destruct (rstrip_by_prefix isspace (drop_while isspace s)) as (w2 & Hs2 & Hw2).
  rewrite Hs, Hs2. apply Forall_app. split.
  - apply List.Forall_forall. intros c Hc. apply Hq.
    rewrite forallb_forall in Hw1. now apply Hw1.
  - apply Forall_app. split; [exact H|].
    apply List.Forall_forall. intros c Hc. apply Hq.
    rewrite forallb_forall in Hw2. now apply Hw2.
Qed.

(** X11: normalize_house_no accepts no other code points than digits,
    '/', ASCII letters, whitespace, ',' and '-': an input that holds any
    other code point is rejected to the empty string. *)
Theorem house_number_alphabet (raw v : str) :
  normalize_house_no raw = Ok v -> v <> [] ->
  forallb house_input_char raw = true.
Proof.
  intros Hv Hne.
  assert (Hm : exists mo, re_match false RE_HOUSE_SHAPE (house_prepared raw) = Some mo).
  { unfold normalize_house_no in Hv. destruct raw as [|c raw].
    - cbn in Hv. injection Hv as <-. now elim Hne.
    - cbn [truthy is_empty negb] in Hv. fold (house_prepared (c :: raw)) in Hv.
      destruct (re_match false RE_HOUSE_SHAPE (house_prepared (c :: raw))) as [mo|];
        [eauto|]. cbn in Hv. injection Hv as <-. now elim Hne. }
  destruct Hm as [mo Hm].
  destruct (house_match_some _ _ Hm) as (num & suf & tail & Hp & _).
  destruct Hp as (Hh & _ & Hn & Hs & _ & Ht).
  set (Q := fun c : char => house_input_char c = true).
  assert (Hprep : Forall Q (house_prepared raw)).
  { rewrite Hh. apply Forall_app. split; [|apply Forall_app; split].
    - apply List.Forall_forall. intros c Hc. rewrite forallb_forall in Hn.
      unfold Q, house_input_char. now rewrite (Hn c Hc).
    - apply List.Forall_forall. intros c Hc. rewrite forallb_forall in Hs.
      unfold Q, house_input_char. rewrite (Hs c Hc). now rewrite orb_true_r.
    - destruct Ht as [->| ->]; repeat constructor. }
  apply forallb_forall, List.Forall_forall.
  apply (strip_back Q).
  { intros c Hc. unfold Q, house_input_char. rewrite Hc.
    now rewrite orb_true_r. }
  apply (replace_single_back Q (code ",") []); [reflexivity|].
  apply (replace_single_back Q (code "-") (lit "/")); [reflexivity|].
  unfold house_prepared, re_sub, RE_SLASHES in Hprep.
  refine (collapse_back (ALit (code "/")) (code "/") Q _ _ _ 0 (Nat.le_refl _) Hprep).
  intros c Hc. cbn in Hc. apply N.eqb_eq in Hc. subst c. reflexivity.
Qed.

Context `{!ascii_exact U}.

(** X10: normalize_house_no is idempotent: what it returns is empty or a
    canonical house number (digits and slashes without a repeated slash, then
    at most one ASCII capital), and it returns every canonical house number
    unchanged. *)
Theorem normalize_house_no_is_idempotent (raw : str) :
  exists v, normalize_house_no raw = Ok v /\
    (v = [] \/ canonical_house v = true) /\
    normalize_house_no v = Ok v.
Proof.
  destruct (normalize_house_no_total raw) as [v Hv]. exists v.
  split; [exact Hv|].
  destruct (normalize_house_no_canonical raw v Hv) as [->|Hc].
  - split; [now left|reflexivity].
  - split; [now right|now apply canonical_fixed].
Qed.

Lemma clean_no_LF (s : str) : Forall (fun c : N => c <> LF) (clean s).
Proof.
  destruct (clean_result s) as (Hn & _).
  apply ws_normal_no_LF' in Hn. unfold no_LF in Hn.
  apply List.Forall_forall. intros c Hc. rewrite forallb_forall in Hn.
  specialize (Hn c Hc). intros ->. discriminate.
Qed.

(** X9: inside parse_block the house number is decided by the shape test
    alone: with [g] the capture of the house pattern, the field is the digits
    and slashes of the prepared form of clean(g) followed by its letter in
    upper case when that form is one or more digits and slashes and at most
    one ASCII letter, and empty otherwise; either way it is empty or
    canonical. *)
Theorem house_number_of_a_block (block : str) :
  exists r, parse_block block = Ok r /\
    (house_number r = [] \/ canonical_house (house_number r) = true) /\
    match re_search false RE_HOUSE block with
    | None => house_number r = []
    | Some m =>
        exists g, group (Some m) 1 = Ok g /\ run_of not_LF_blank g /\
          house_number r =
          let h := house_prepared (clean g) in
          if house_shape ascii_letter h
          then take_while digit_or_slash h
               ++ map ascii_toupper (drop_while digit_or_slash h)
          else []
    end.
Proof.
  destruct (parse_block_fields block) as (r & Hr & _ & _ & Hh & _).
  exists r. split; [exact Hr|]. unfold house_field in Hh.
  destruct (re_search false RE_HOUSE block) as [m|] eqn:Hs.
  - destruct Hh as (g & Hg & Hn). split.
    + exact (normalize_house_no_canonical _ _ Hn).
    + exists g. split; [exact Hg|].
      split; [exact (proj1 (house_capture _ _ _ Hs Hg))|].
      cbn zeta. rewrite normalize_house_no_exact in Hn.
      * now injection Hn as <-.
      * apply no_LF_last. apply house_prepared_Forall; [discriminate|].
        apply clean_no_LF.
  - split; [now left|exact Hh].
Qed.
End HouseTheorems2.

(* ================================================================== *)
(** ** Further properties: cleaned text and page text *)
(* ================================================================== *)

Section TextTheorems.
Context `{U : unicode_tables}.

Lemma no_label_search (s : str) :
  no_label s -> re_search true RE_NAME_TAIL s = None.
Proof.
  intros H. unfold re_search. apply search_from_none. intros k _.
  specialize (H k). rewrite <- (name_tail_pos (0 + k)) in H.
  destruct (match_at true RE_NAME_TAIL (0 + k) (drop k s)); [discriminate|reflexivity].
Qed.

Lemma rstrip_by_length q (s : str) : length (rstrip_by q s) <= length s.
Proof.
  destruct (rstrip_by_prefix q s) as (w & Hs & _). rewrite Hs at 2.
  rewrite length_app. lia.
Qed.

Lemma name_tail_cut_length (s : str) : length (name_tail_cut s) <= length s.
Proof.
  destruct (name_tail_cut_prefix s) as (w & Hs). rewrite Hs at 2.
  rewrite length_app. lia.
Qed.

Lemma collapse_ws_length (s : str) :
  length (re_sub false RE_WS (lit " ") s) <= length s.
Proof.
  exact (proj1 (proj2 (collapse_run ASpace SPACE eq_refl s))).
Qed.

Lemma collapse_ws_blank (c : char) (t : str) :
  forallb isspace (c :: t) = true ->
  re_sub false RE_WS (lit " ") (c :: t) = [SPACE].
Proof.
  intros H. cbn [forallb] in H. apply andb_prop in H as [Hc Ht].
  unfold re_sub, RE_WS. change (lit " ") with [SPACE].
  rewrite (sub_plus_run ASpace SPACE 0 c t Hc).
  change (atom_match false ASpace) with isspace.
  rewrite (drop_while_all isspace t Ht). now rewrite sub_plus_nil.
Qed.

(** X12: what clean returns is in normal form: it is trimmed, its only
    whitespace is single blanks (so it holds no line feed), the trailing-label
    pattern of clean (Name, separator, rest, in any letter case) matches
    nowhere in it, and it is never longer than the input.  Text made of
    whitespace only is cleaned to the empty string. *)
Theorem clean_normal_form (s : str) :
  tidy (clean s) /\ no_LF (clean s) = true /\
  re_search true RE_NAME_TAIL (clean s) = None /\
  length (clean s) <= length s /\
  (forallb isspace s = true -> clean s = []).
Proof.
  destruct (clean_result s) as (Hn & _ & _ & Hlab).
  split; [apply clean_tidy|]. split; [now apply ws_normal_no_LF'|].
  split; [now apply no_label_search|]. split.
  - destruct s as [|c t]; [cbn; lia|].
    rewrite clean_unfold by discriminate. unfold clean_trimmed, rstrip_chars.
    etransitivity; [apply strip_length|].
    etransitivity; [apply name_tail_cut_length|].
    etransitivity; [apply strip_length|].
    etransitivity; [apply rstrip_by_length|].
    etransitivity; [apply strip_length|].
    apply collapse_ws_length.
  - intros Hws. destruct s as [|c t]; [reflexivity|].
    unfold clean. cbn [truthy is_empty negb].
    rewrite (collapse_ws_blank c t Hws). reflexivity.
Qed.

Lemma blank_set_match (c : char) :
  atom_match false (ASet false [CChar SPACE; CChar TAB]) c = is_blank c.
Proof. cbn. unfold is_blank. now rewrite orb_false_r. Qed.

Lemma run_normal_from_ext (p q : char -> bool) x (s : str) :
  (forall c, p c = q c) -> forall b,
  run_normal_from p x b s = run_normal_from q x b s.
Proof.
  intros Hpq. induction s as [|c t IH]; intros b; [reflexivity|].
  cbn [run_normal_from]. rewrite Hpq, !IH. reflexivity.
Qed.

Lemma filter_ext_eq {A} (p q : A -> bool) (l : list A) :
  (forall c, p c = q c) -> List.filter p l = List.filter q l.
Proof.
  intros Hpq. induction l as [|c t IH]; [reflexivity|].
  cbn [List.filter]. now rewrite Hpq, IH.
Qed.

Lemma text_clean_facts (text : str) :
  run_normal is_blank SPACE (text_clean_of text) = true /\
  length (text_clean_of text) <= length text /\
  List.filter (fun c => negb (is_blank c)) (text_clean_of text)
  = List.filter (fun c => negb (is_blank c)) text.
Proof.
  destruct (collapse_run (ASet false [CChar SPACE; CChar TAB]) SPACE eq_refl text)
    as (H1 & H2 & H3).
  unfold text_clean_of, RE_BLANKS. change (lit " ") with [SPACE].
  split; [|split; [exact H2|]].
  - unfold run_normal in *.
    rewrite (run_normal_from_ext is_blank
               (atom_match false (ASet false [CChar SPACE; CChar TAB])));
      [exact H1|]. intros c. symmetry. apply blank_set_match.
  - rewrite (filter_ext_eq (fun c => negb (is_blank c))
               (fun c => negb (atom_match false (ASet false [CChar SPACE; CChar TAB]) c)))
      by (intros c; now rewrite blank_set_match).
    rewrite H3. apply filter_ext_eq. intros c. now rewrite blank_set_match.
Qed.

Lemma text_clean_fixed (tc : str) :
  run_normal is_blank SPACE tc = true -> text_clean_of tc = tc.
Proof.
  intros H. unfold text_clean_of, re_sub, RE_BLANKS. change (lit " ") with [SPACE].
  apply collapse_run_id. unfold run_normal in *.
  rewrite (run_normal_from_ext _ is_blank); [exact H|].
  intros c. apply blank_set_match.
Qed.

(** X13: the first step of parse_page replaces every run of blanks and
    tabs by one blank: the collapsed text holds no tab and no two blanks in a
    row, is never longer than the page text, and keeps every other code point,
    line feeds included, in order.  Collapsing again changes nothing, so a page
    text and its collapsed form are parsed to the same records. *)
Theorem page_text_is_collapsed_once (text : str) (page_num : Z) :
  let tc := text_clean_of text in
  run_normal is_blank SPACE tc = true /\
  length tc <= length text /\
  List.filter (fun c => negb (is_blank c)) tc
  = List.filter (fun c => negb (is_blank c)) text /\
  text_clean_of tc = tc /\
  parse_page tc page_num = parse_page text page_num.
Proof.
  cbn zeta. destruct (text_clean_facts text) as (H1 & H2 & H3).
  pose proof (text_clean_fixed _ H1) as Hfix.
  split; [exact H1|]. split; [exact H2|]. split; [exact H3|].
  split; [exact Hfix|].
  unfold parse_page. fold (text_clean_of (text_clean_of text)).
  fold (text_clean_of text). rewrite Hfix. reflexivity.
Qed.
End TextTheorems.

(* ================================================================== *)
(** ** Further properties: the cleaning stage and the whole document *)
(* ================================================================== *)

Section DocumentFacts.
Context `{U : unicode_tables}.

Lemma cleaning_spec (rows : list voter_record) : cleaning rows = spec_cleaned rows.
Proof.
  unfold cleaning. rewrite cleaning_loop_spec. cbn [app].
  rewrite <- (filter_ext (fun _ => true)).
  - clear. induction (spec_cleaned rows); cbn; congruence.
  - intros x. rewrite bool_decide_eq_false_2; [reflexivity|].
    apply not_elem_of_empty.
Qed.

Lemma filter_all_true {A} (p : A -> bool) (l : list A) :
  (forall x, In x l -> p x = true) -> List.filter p l = l.
Proof.
  induction l as [|a t IH]; intros H; [reflexivity|]. cbn [List.filter].
  rewrite (H a (or_introl eq_refl)). f_equal. apply IH.
  intros x Hx. apply H. now right.
Qed.

Lemma first_per_key_nodup (l : list voter_record) :
  NoDup (map dedup_key l) -> first_per_key l = l.
Proof.
  induction l as [|r t IH]; intros Hnd; [reflexivity|].
  cbn [map] in Hnd. apply NoDup_cons in Hnd as [Hni Hnd].
  cbn [first_per_key]. rewrite (IH Hnd). f_equal.
  apply filter_all_true. intros x Hx. unfold other_key.
  rewrite bool_decide_eq_false_2; [reflexivity|].
  intros He. apply Hni. rewrite <- He. apply list_elem_of_In.
  apply in_map. exact Hx.
Qed.

Lemma sublist_In {A} (l k : list A) x : sublist l k -> In x l -> In x k.
Proof.
  intros Hs Hx. apply list_elem_of_In. apply (sublist_subseteq _ _ Hs).
  now apply list_elem_of_In.
Qed.

Lemma spec_cleaned_complete rows r :
  In r (spec_cleaned rows) -> has_name_and_house r = true.
Proof.
  intros Hin. apply (sublist_In _ _ _ (first_per_key_sublist _)) in Hin.
  now apply filter_In in Hin as [_ Hc].
Qed.

Lemma cleaning_loop_app (a b : list voter_record) : forall seen acc,
  exists seen', cleaning_loop (a ++ b) seen acc
                = cleaning_loop b seen' (cleaning_loop a seen acc).
Proof.
  induction a as [|r t IH]; intros seen acc; cbn [app cleaning_loop].
  - exists seen. reflexivity.
  - destruct (negb (truthy (strip (name (best r))))
              || negb (truthy (strip (house_number (best r))))); [apply IH|].
    destruct (bool_decide
                ((upper (strip (name (best r))), strip (house_number (best r)))
                 ∈ seen)); apply IH.
Qed.

(** X14: the cleaning stage is stable.  Cleaning a cleaned list changes
    nothing, and records that come later never remove or reorder what was
    kept before: the cleaned form of a longer list starts with the cleaned form
    of the shorter one, followed by records taken from the cleaned form of its
    later part. *)
Theorem cleaning_is_stable (rows more : list voter_record) :
  cleaning (cleaning rows) = cleaning rows /\
  exists extra, cleaning (rows ++ more) = cleaning rows ++ extra /\
                sublist extra (cleaning more).
Proof.
  split.
  - rewrite !cleaning_spec. unfold spec_cleaned at 1.
    rewrite filter_all_true by (intros x; apply spec_cleaned_complete).
    apply first_per_key_nodup. apply first_per_key_keys_nodup.
  - unfold cleaning at 1.
    destruct (cleaning_loop_app rows more ∅ []) as [seen' ->].
    fold (cleaning rows). rewrite cleaning_loop_spec.
    eexists. split; [reflexivity|]. rewrite cleaning_spec. apply filter_sublist.
Qed.

Lemma all_voters_total (pages : list page_record) :
  exists raw, all_voters pages = Ok raw.
Proof.
  induction pages as [|p t [raw IH]]; cbn [all_voters]; [eauto|].
  destruct (parse_page_spec (pg_text p) (pg_page p)) as (vs & -> & _).
  rewrite IH. cbn [bind]. eauto.
Qed.

Lemma all_voters_app (pages more : list page_record) raw raw' :
  all_voters pages = Ok raw -> all_voters more = Ok raw' ->
  all_voters (pages ++ more) = Ok (raw ++ raw').
Proof.
  revert raw. induction pages as [|p t IH]; intros raw H H'; cbn [app all_voters] in *.
  - injection H as <-. exact H'.
  - destruct (parse_page (pg_text p) (pg_page p)) as [vs|e]; [|discriminate].
    cbn [bind] in *. destruct (all_voters t) as [rest|e]; [|discriminate].
    cbn [bind] in *. injection H as <-. rewrite (IH rest eq_refl H').
    cbn [bind]. now rewrite app_assoc.
Qed.

Lemma all_voters_origin (pages : list page_record) raw v :
  all_voters pages = Ok raw -> In v raw ->
  exists p vs, In p pages /\ parse_page (pg_text p) (pg_page p) = Ok vs /\ In v vs.
Proof.
  revert raw. induction pages as [|p t IH]; intros raw H Hin; cbn [all_voters] in H.
  - injection H as <-. contradiction.
  - destruct (parse_page (pg_text p) (pg_page p)) as [vs|e] eqn:Hp; [|discriminate].
    cbn [bind] in H. destruct (all_voters t) as [rest|e]; [|discriminate].
    cbn [bind] in H. injection H as <-. apply in_app_or in Hin as [Hin|Hin].
    + exists p, vs. split; [now left|]. auto.
    + destruct (IH rest eq_refl Hin) as (p' & vs' & Hp' & Hvs & Hv).
      exists p', vs'. split; [now right|]. auto.
Qed.

Lemma all_voters_length (pages : list page_record) raw :
  all_voters pages = Ok raw ->
  length raw
  = list_sum (map (fun p => length (find_id_positions (text_clean_of (pg_text p))))
                  pages).
Proof.
  revert raw. induction pages as [|p t IH]; intros raw H; cbn [all_voters] in H.
  - injection H as <-. reflexivity.
  - destruct (parse_page_spec (pg_text p) (pg_page p)) as (vs & Hp & Hlen & _).
    rewrite Hp in H. cbn [bind] in H.
    destruct (all_voters t) as [rest|e]; [|discriminate].
    cbn [bind] in H. injection H as <-. rewrite length_app, (IH rest eq_refl).
    cbn [map list_sum]. unfold text_clean_of. now rewrite Hlen.
Qed.

(** X15: the pages of a document are processed one by one.  The records
    of a document made of two parts are the records of the first part followed
    by those of the second; there is one record for every anchor of every
    page; and every record carries the page number of a page of the
    document. *)
Theorem pages_are_processed_one_by_one (pages more : list page_record) :
  exists raw raw', all_voters pages = Ok raw /\ all_voters more = Ok raw' /\
    all_voters (pages ++ more) = Ok (raw ++ raw') /\
    length raw
    = list_sum (map (fun p => length (find_id_positions (text_clean_of (pg_text p))))
                    pages) /\
    Forall (fun v => In (page v) (map pg_page pages)) raw.
Proof.
  destruct (all_voters_total pages) as [raw Hraw].
  destruct (all_voters_total more) as [raw' Hraw'].
  exists raw, raw'. split; [exact Hraw|]. split; [exact Hraw'|].
  split; [now apply all_voters_app|]. split; [now apply all_voters_length|].
  apply List.Forall_forall. intros v Hv.
  destruct (all_voters_origin _ _ _ Hraw Hv) as (p & vs & Hp & Hvs & Hin).
  destruct (parse_page_spec (pg_text p) (pg_page p)) as (vs' & Hvs' & Hlen & Hall).
  rewrite Hvs in Hvs'. injection Hvs' as <-.
  apply list_elem_of_In, list_elem_of_lookup in Hin as [i Hi].
  assert (Hlt : i < length vs) by (eapply lookup_lt_Some; eauto).
  rewrite Hlen in Hlt. apply lookup_lt_is_Some_2 in Hlt as [[pos vid] Hpv].
  destruct (Hall i pos vid Hpv) as (v' & _ & _ & _ & Hv' & _ & Hpage & _).
  rewrite Hi in Hv'. injection Hv' as <-. rewrite Hpage.
  apply in_map. exact Hp.
Qed.

End DocumentFacts.

Section PageMore.
Context `{U : unicode_tables}.

Lemma part_capture tc mo g :
  re_search false RE_PART tc = Some mo -> group (Some mo) 1 = Ok g ->
  run_of uni_word g /\ contains g tc = true.
Proof.
  intros Hs Hg.
  destruct (tail_group_capture [re_lit (lit "Part No.:")] _ _ _ _ _ _ _ Hs Hg)
    as (Hf & Hlo & Hc).
  split; [|exact Hc]. split.
  - intros ->. cbn in Hlo. lia.
  - exact Hf.
Qed.

Lemma first_max_In {A} (key : A -> nat) (l : list A) x :
  first_max key l x -> In x l.
Proof. intros (k & Hk & _). exact (lookup_In _ _ _ Hk). Qed.

Lemma parse_page_full text page_num :
  let tc := text_clean_of text in
  let ids := find_id_positions tc in
  exists part sect voters, parse_page text page_num = Ok voters /\
    (part = [] \/ run_of uni_word part) /\ tidy sect /\
    length voters = length ids /\
    forall i v, voters !! i = Some v ->
      exists pos c1 c2 c3, ids !! i = Some (pos, voter_id v) /\
        part_no v = part /\ section v = sect /\ page v = page_num /\
        constituency v = lit "26-VELACHERY" /\
        parliamentary_constituency v = lit "3-CHENNAI SOUTH" /\
        parse_block (after_window tc ids i pos) = Ok c1 /\
        parse_block (before_window tc ids i pos) = Ok c2 /\
        parse_block (combined_window tc ids i pos) = Ok c3 /\
        In (best v) [c1; c2; c3].
Proof.
  intros tc ids. unfold parse_page. fold (text_clean_of text). fold tc. fold ids.
  set (part := if is_some (re_search false RE_PART tc) then _ else _).
  assert (Hpart : exists p, part = Ok p /\ (p = [] \/ run_of uni_word p)).
  { subst part. destruct (re_search false RE_PART tc) as [m|] eqn:Hm;
      cbn [is_some]; [|eauto].
    destruct (search_group false RE_PART 1 _ m eq_refl ltac:(cbn; lia) Hm) as [g Hg].
    exists g. split; [exact Hg|]. right. exact (proj1 (part_capture _ _ _ Hm Hg)). }
  destruct Hpart as (p & -> & Hp). cbn [bind].
  set (sect := if is_some (re_search false RE_SECTION tc) then _ else _).
  assert (Hsect : exists s, sect = Ok s /\ tidy s).
  { subst sect. destruct (re_search false RE_SECTION tc) as [m|] eqn:Hm;
      cbn [is_some]; [|exists []; split; [reflexivity|apply tidy_nil]].
    destruct (search_group false RE_SECTION 1 _ m eq_refl ltac:(cbn; lia) Hm)
      as [g ->]. cbn [bind]. exists (clean g). split; [reflexivity|apply clean_tidy]. }
  destruct Hsect as (s & -> & Hs). cbn [bind].
  destruct (mapM_total (parse_anchor tc ids p s page_num) (enumerate ids))
    as [voters Hv].
  { intros [i [pos vid]] Hin. apply list_elem_of_In, list_elem_of_lookup in Hin.
    destruct Hin as [k Hk]. apply enumerate_from_lookup in Hk as [Hk1 Hk2].
    cbn in Hk1, Hk2. subst i.
    destruct (parse_anchor_spec tc ids p s page_num k pos vid Hk2)
      as (v & _ & _ & _ & Hpa & _). eauto. }
  exists p, s, voters. split; [exact Hv|]. split; [exact Hp|]. split; [exact Hs|].
  apply mapM_lookup in Hv as [Hlen Hl].
  assert (Hlen' : length voters = length ids).
  { rewrite Hlen. apply enumerate_from_length. }
  split; [exact Hlen'|].
  intros i v Hi.
  assert (Hlt : i < length ids).
  { rewrite <- Hlen'. eapply lookup_lt_Some; eauto. }
  apply lookup_lt_is_Some_2 in Hlt as [[pos vid] Hpv].
  destruct (Hl i (i, (pos, vid))) as (v0 & Hv0 & Hpa).
  { apply (enumerate_from_lookup_Some ids 0 i (pos, vid) Hpv). }
  rewrite Hi in Hv0. injection Hv0 as <-.
  destruct (parse_anchor_spec tc ids p s page_num i pos vid Hpv)
    as (v' & c1 & c2 & c3 & Hpa' & Hid & Hpn & Hsn & Hpg & Hc & Hpc & H1 & H2 & H3 & Hmax).
  rewrite Hpa in Hpa'. injection Hpa' as <-.
  exists pos, c1, c2, c3. rewrite Hid.
  split; [exact Hpv|]. split; [exact Hpn|]. split; [exact Hsn|].
  split; [exact Hpg|]. split; [exact Hc|]. split; [exact Hpc|].
  split; [exact H1|]. split; [exact H2|]. split; [exact H3|].
  exact (first_max_In _ _ _ Hmax).
Qed.

(** X17: the context of a page is shared by its records: every record of
    a page carries the same part number and section, the page number given to
    parse_page and the two fixed constituency strings.  The part number is
    empty or a run of word characters, the section is trimmed with single
    blanks only. *)
Theorem page_context_is_shared (text : str) (page_num : Z) :
  exists part sect voters, parse_page text page_num = Ok voters /\
    (part = [] \/ run_of uni_word part) /\ tidy sect /\
    Forall (fun v => part_no v = part /\ section v = sect /\
                     page v = page_num /\
                     constituency v = lit "26-VELACHERY" /\
                     parliamentary_constituency v = lit "3-CHENNAI SOUTH")
           voters.
Proof.
  destruct (parse_page_full text page_num)
    as (part & sect & voters & Hp & Hpart & Hsect & _ & Hall).
  exists part, sect, voters. split; [exact Hp|]. split; [exact Hpart|].
  split; [exact Hsect|]. apply Forall_lookup. intros i v Hv.
  destruct (Hall i v Hv) as (pos & c1 & c2 & c3 & _ & H1 & H2 & H3 & H4 & H5 & _).
  auto.
Qed.

Lemma canonical_strip (h : str) :
  h = [] \/ canonical_house h = true -> strip h = h.
Proof.
  intros [->|Hc]; [apply strip_nil|].
  destruct (canonical_parts h Hc) as [Hchars _].
  apply strip_plain. eapply Forall_impl; [exact (house_chars_plain h Hchars)|].
  cbn. tauto.
Qed.

Context `{!ascii_exact U}.

Lemma block_ok (w : str) (r : partial_record) :
  parse_block w = Ok r ->
  name_guarded (name r) /\ tidy (name r) /\ tidy (relation_name r) /\
  (house_number r = [] \/ canonical_house (house_number r) = true) /\
  (age r = [] \/ run_of uni_decimal (age r)) /\
  In (gender r) [lit "Male"; lit "Female"; []].
Proof.
  intros Hr.
  destruct (parse_block_name w) as (r1 & Hr1 & Hguard & Hname).
  rewrite Hr in Hr1. injection Hr1 as <-.
  destruct (parse_block_fields w) as (r2 & Hr2 & _ & Hrel & Hh & Hg & Ha).
  rewrite Hr in Hr2. injection Hr2 as <-.
  split; [exact Hguard|]. split.
  { destruct (name r) as [|c t] eqn:Hn; [apply tidy_nil|].
    destruct (Hname ltac:(discriminate)) as (mo & g & _ & _ & ->). apply clean_tidy. }
  split.
  { unfold relation_fields in Hrel.
    destruct (re_search false RE_FATHER w);
      [destruct Hrel as (g & _ & _ & ->); apply clean_tidy|].
    destruct (re_search false RE_HUSBAND w);
      [destruct Hrel as (g & _ & _ & ->); apply clean_tidy|].
    destruct (re_search false RE_MOTHER w);
      [destruct Hrel as (g & _ & _ & ->); apply clean_tidy|].
    destruct Hrel as [_ ->]. apply tidy_nil. }
  split.
  { unfold house_field in Hh. destruct (re_search false RE_HOUSE w).
    - destruct Hh as (g & _ & Hn). exact (normalize_house_no_canonical _ _ Hn).
    - now left. }
  split.
  { unfold age_field in Ha. destruct (re_search false RE_AGE w) as [m|] eqn:Hs.
    - right. exact (proj1 (age_capture _ _ _ Hs Ha)).
    - now left. }
  unfold gender_field in Hg.
  destruct (re_search false RE_GENDER w) as [m|] eqn:Hs.
  - destruct Hg as (tok & Htok & Hgen).
    pose proof (gender_token _ _ _ Hs Htok) as Hin.
    destruct Hin as [<-|[<-|[<-|[<-|[]]]]]; rewrite Hgen.
    + change (str_eqb (lit "Male") TAMIL_MALE) with false.
      change (str_eqb (lit "Male") TAMIL_FEMALE) with false.
      cbv iota. rewrite capitalize_Male. now left.
    + change (str_eqb (lit "Female") TAMIL_MALE) with false.
      change (str_eqb (lit "Female") TAMIL_FEMALE) with false.
      cbv iota. rewrite capitalize_Female. right. now left.
    + now left.
    + right. now left.
  - rewrite Hg. right. right. now left.
Qed.

Lemma page_records_ok text page_num voters v :
  parse_page text page_num = Ok voters -> In v voters -> record_ok v.
Proof.
  intros Hp Hin.
  destruct (parse_page_full text page_num)
    as (part & sect & voters' & Hp' & _ & _ & _ & Hall).
  rewrite Hp in Hp'. injection Hp' as <-.
  apply list_elem_of_In, list_elem_of_lookup in Hin as [i Hi].
  destruct (Hall i v Hi)
    as (pos & c1 & c2 & c3 & Hid & _ & _ & _ & Hc & Hpc & H1 & H2 & H3 & Hbest).
  destruct (anchor_facts _ _ _ _ Hid) as (Hshape & _).
  assert (Hb : exists w, parse_block w = Ok (best v)).
  { cbn [In] in Hbest. destruct Hbest as [<-|[<-|[<-|[]]]]; eauto. }
  destruct Hb as [w Hw].
  destruct (block_ok w _ Hw) as (B1 & B2 & B3 & B4 & B5 & B6).
  unfold record_ok. repeat split; auto; apply B1 || apply B2 || apply B3.
Qed.

(** X18: every record of every document keeps the invariants of the data
    model: a well-formed voter_id, a name that passed the guards, trimmed name
    and relation name with single blanks only, a house number that is empty or
    canonical, an age that is empty or decimal digits, a gender among Male,
    Female and the empty string, and the two fixed constituency strings.  On
    such records the trimming of the cleaning loop changes nothing: the key of
    a record is its upper-cased name and its house number as they are, and a
    record is kept for cleaning exactly when both are not empty. *)
Theorem records_keep_the_invariants (pages : list page_record) :
  exists raw, all_voters pages = Ok raw /\
    Forall record_ok raw /\
    Forall (fun v =>
              dedup_key v = (upper (name (best v)), house_number (best v)) /\
              has_name_and_house v
              = truthy (name (best v)) && truthy (house_number (best v))) raw.
Proof.
  destruct (all_voters_total pages) as [raw Hraw]. exists raw.
  split; [exact Hraw|].
  assert (Hok : Forall record_ok raw).
  { apply List.Forall_forall. intros v Hv.
    destruct (all_voters_origin _ _ _ Hraw Hv) as (p & vs & _ & Hvs & Hin).
    exact (page_records_ok _ _ _ _ Hvs Hin). }
  split; [exact Hok|].
  eapply Forall_impl; [exact Hok|]. intros v Hv. cbn beta.
  destruct Hv as (_ & _ & [_ Hn] & _ & Hh & _).
  apply canonical_strip in Hh.
  unfold dedup_key, has_name_and_house. rewrite Hn, Hh. split; reflexivity.
Qed.
End PageMore.

Section PdfFacts.
Context `{U : unicode_tables}.

Lemma mapM_ext {A B} (f g : A -> result B) (l : list A) :
  (forall x, f x = g x) -> mapM f l = mapM g l.
Proof.
  intros H. induction l as [|x t IH]; [reflexivity|].
  cbn [mapM]. now rewrite H, IH.
Qed.

Lemma numbered_pages {A} (f : A -> result str) : forall (l : list A) start ps,
  mapM (fun it : nat * A =>
          t <- f (snd it) ;;
          Ok {| pg_page := Z.of_nat (fst it) + 1; pg_text := t |})
       (enumerate_from start l) = Ok ps ->
  length ps = length l /\
  map pg_page ps = map (fun i => (Z.of_nat i + 1)%Z) (seq start (length l)) /\
  forall p, In p ps -> exists x, In x l /\ f x = Ok (pg_text p).
Proof.
  induction l as [|x t IH]; intros start ps H; cbn [enumerate_from mapM] in H.
  - injection H as <-. cbn. split; [reflexivity|]. split; [reflexivity|].
    intros p [].
  - cbn [fst snd] in H. destruct (f x) as [tx|e] eqn:Hx; [|discriminate].
    cbn [bind] in H.
    destruct (mapM _ (enumerate_from (S start) t)) as [ps'|e] eqn:Ht;
      [|discriminate].
    cbn [bind] in H. injection H as <-.
    destruct (IH _ _ Ht) as (Hl & Hn & Hp). cbn [length map seq pg_page].
    split; [now rewrite Hl|]. split; [now rewrite Hn|].
    intros p [<-|Hin].
    + exists x. split; [now left|exact Hx].
    + destruct (Hp p Hin) as (y & Hy & Hfy). exists y. split; [now right|exact Hfy].
Qed.

Lemma sorted_app (l1 l2 : list Z) :
  ascending l1 -> ascending l2 ->
  (forall x y, In x l1 -> In y l2 -> (x <= y)%Z) ->
  ascending (l1 ++ l2).
Proof.
  intros H1 H2 H. induction l1 as [|a l1 IH]; [exact H2|].
  cbn [app ascending] in *. destruct H1 as [Ha Hs]. split.
  - apply Forall_app. split; [exact Ha|].
    apply List.Forall_forall. intros y Hy. apply H; [now left|exact Hy].
  - apply IH; [exact Hs|]. intros x y Hx Hy. apply H; [now right|exact Hy].
Qed.

Lemma sorted_const (a : Z) (l : list Z) :
  (forall x, In x l -> x = a) -> ascending l.
Proof.
  induction l as [|b t IH]; intros H; cbn [ascending]; [exact I|]. split.
  - apply List.Forall_forall. intros y Hy.
    rewrite (H b (or_introl eq_refl)), (H y (or_intror Hy)). lia.
  - apply IH. intros x Hx. apply H. now right.
Qed.

Lemma page_records_page text page_num voters v :
  parse_page text page_num = Ok voters -> In v voters -> page v = page_num.
Proof.
  intros Hp Hin.
  destruct (parse_page_spec text page_num) as (vs' & Hvs' & Hlen & Hall).
  rewrite Hp in Hvs'. injection Hvs' as <-.
  apply list_elem_of_In, list_elem_of_lookup in Hin as [i Hi].
  assert (Hlt : i < length voters) by (eapply lookup_lt_Some; eauto).
  rewrite Hlen in Hlt. apply lookup_lt_is_Some_2 in Hlt as [[pos vid] Hpv].
  destruct (Hall i pos vid Hpv) as (v' & _ & _ & _ & Hv' & _ & Hpage & _).
  rewrite Hi in Hv'. now injection Hv' as <-.
Qed.

Lemma all_voters_sorted : forall (ps : list page_record) start raw,
  map pg_page ps = map (fun i => (Z.of_nat i + 1)%Z) (seq start (length ps)) ->
  all_voters ps = Ok raw ->
  ascending (map page raw) /\
  Forall (fun v => (Z.of_nat start + 1 <= page v <= Z.of_nat (start + length ps))%Z) raw.
Proof.
  induction ps as [|p t IH]; intros start raw Hn H; cbn [all_voters] in H.
  - injection H as <-. split; constructor.
  - destruct (parse_page (pg_text p) (pg_page p)) as [vs|e] eqn:Hp; [|discriminate].
    cbn [bind] in H. destruct (all_voters t) as [rest|e] eqn:Ht; [|discriminate].
    cbn [bind] in H. injection H as <-.
    cbn [map length seq] in Hn. injection Hn as Hp0 Hn.
    destruct (IH (S start) rest Hn eq_refl) as [Hs Hb].
    assert (Hvs : forall v, In v vs -> page v = (Z.of_nat start + 1)%Z).
    { intros v Hv. rewrite (page_records_page _ _ _ _ Hp Hv). exact Hp0. }
    split.
    + rewrite map_app. apply sorted_app; [|exact Hs|].
      * apply (sorted_const (Z.of_nat start + 1)). intros x Hx.
        apply in_map_iff in Hx as (v & <- & Hv). now apply Hvs.
      * intros x y Hx Hy. apply in_map_iff in Hx as (v & <- & Hv).
        apply in_map_iff in Hy as (w & <- & Hw). rewrite (Hvs v Hv).
        rewrite List.Forall_forall in Hb. specialize (Hb w Hw). lia.
    + apply Forall_app. split.
      * apply List.Forall_forall. intros v Hv. rewrite (Hvs v Hv). cbn [length]. lia.
      * eapply Forall_impl; [exact Hb|]. intros v Hv. cbn beta in *. cbn [length]. lia.
Qed.

(** X19: pdf_to_json numbers the pages 1, 2, ..., n in order, on the
    direct path and on the OCR path alike, and reports n as total_pages; on the
    OCR path every page text is trimmed.  Hence the records that json_to_csv
    reads off such a document carry page numbers between 1 and total_pages and
    come out in page order. *)
Theorem pdf_pages_are_numbered (embedded : embedded_text) (scanned : scanned_text)
    (d : document) :
  pdf_to_json embedded scanned = Ok d ->
  doc_total_pages d = Z.of_nat (length (doc_pages d)) /\
  map pg_page (doc_pages d) = page_numbers (length (doc_pages d)) /\
  (has_text embedded = false ->
   Forall (fun p => strip (pg_text p) = pg_text p) (doc_pages d)) /\
  exists raw, all_voters (doc_pages d) = Ok raw /\
    ascending (map page raw) /\
    Forall (fun v => (1 <= page v <= doc_total_pages d)%Z) raw.
Proof.
  unfold pdf_to_json. intros H.
  match type of H with bind ?m _ = _ => destruct m as [ps|e] eqn:Hps end;
    [|discriminate].
  cbn [bind] in H. injection H as <-. cbn [doc_total_pages doc_pages].
  assert (Hnum : map pg_page ps = page_numbers (length ps) /\
                 (has_text embedded = false ->
                  Forall (fun p => strip (pg_text p) = pg_text p) ps)).
  { destruct (has_text embedded).
    - destruct embedded as [pdf_pages|e]; [|discriminate]. cbn [bind] in Hps.
      destruct (numbered_pages (fun t : result (option str) => x <- t ;; Ok (or_empty x))
                  pdf_pages 0 ps) as (Hl & Hn & _).
      { rewrite <- Hps. unfold enumerate. apply mapM_ext.
        intros [i [[t|]|e]]; reflexivity. }
      split; [unfold page_numbers; now rewrite Hl|]. discriminate.
    - destruct scanned as [images|e]; [|discriminate]. cbn [bind] in Hps.
      destruct (numbered_pages (fun t : result str => x <- t ;; Ok (strip x))
                  images 0 ps) as (Hl & Hn & Hp).
      { rewrite <- Hps. unfold enumerate. apply mapM_ext.
        intros [i [t|e]]; reflexivity. }
      split; [unfold page_numbers; now rewrite Hl|]. intros _.
      apply List.Forall_forall. intros p Hin.
      destruct (Hp p Hin) as (x & _ & Hx). destruct x as [tx|e]; [|discriminate].
      cbn [bind] in Hx. injection Hx as <-. apply strip_strip. }
  destruct Hnum as [Hn Hstrip].
  split; [reflexivity|]. split; [exact Hn|]. split; [exact Hstrip|].
  destruct (all_voters_total ps) as [raw Hraw]. exists raw.
  split; [exact Hraw|].
  destruct (all_voters_sorted ps 0 raw Hn Hraw) as [Hs Hb].
  split; [exact Hs|]. eapply Forall_impl; [exact Hb|].
  intros v Hv. cbn beta in *. lia.
Qed.
End PdfFacts.

(* ================================================================== *)
(** ** Instances *)
(* ================================================================== *)

Section Instances.
#[local] Existing Instance ascii_tables.

Lemma anchors_in_order_witness :
  find_id_positions (lit "AB1234567 CDE7654321") !! 0 = Some (0, lit "AB1234567") /\
  slice (lit "AB1234567 CDE7654321") 0 (0 + length (lit "AB1234567"))
  = lit "AB1234567" /\
  0 + length (lit "AB1234567") <= length (lit "AB1234567 CDE7654321") /\
  forall pos' vid',
    find_id_positions (lit "AB1234567 CDE7654321") !! 1 = Some (pos', vid') ->
    0 + length (lit "AB1234567") <= pos'.
Proof.
  assert (H : find_id_positions (lit "AB1234567 CDE7654321") !! 0
              = Some (0, lit "AB1234567")) by (vm_compute; reflexivity).
  split; [exact H|].
  exact (anchors_in_order (lit "AB1234567 CDE7654321") 0 0 (lit "AB1234567") H).
Defined.

Lemma no_identifier_is_skipped_witness :
  drop 2 (lit "ABCD1234567 x") = lit "CD1234567" ++ lit " x" /\
  2 <= length (lit "ABCD1234567 x") /\
  is_voter_id (lit "CD1234567") /\
  ((exists vid, In (2, vid) (find_id_positions (lit "ABCD1234567 x"))) \/
   (exists pos vid, In (pos, vid) (find_id_positions (lit "ABCD1234567 x")) /\
                    pos < 2 < pos + length vid)).
Proof.
  assert (H1 : drop 2 (lit "ABCD1234567 x") = lit "CD1234567" ++ lit " x")
    by reflexivity.
  assert (H2 : 2 <= length (lit "ABCD1234567 x")) by (cbn; lia).
  assert (H3 : is_voter_id (lit "CD1234567")).
  { exists (lit "CD"), (lit "1234567"). split; [reflexivity|].
    split; [cbn; lia|]. split; [reflexivity|]. split; reflexivity. }
  split; [exact H1|]. split; [exact H2|]. split; [exact H3|].
  exact (no_identifier_is_skipped _ _ _ _ H1 H2 H3).
Defined.

Lemma no_separator_no_fields_witness :
  forallb (fun c => negb (is_separator c)) (lit "Name RAMESH Age 34 Gender Male") = true /\
  parse_block (lit "Name RAMESH Age 34 Gender Male") = Ok empty_record /\
  completeness empty_record = 0.
Proof.
  assert (H : forallb (fun c => negb (is_separator c))
                (lit "Name RAMESH Age 34 Gender Male") = true) by (vm_compute; reflexivity).
  split; [exact H|]. exact (no_separator_no_fields _ H).
Defined.

Lemma house_number_alphabet_witness :
  normalize_house_no (lit " 12-5a,") = Ok (lit "12/5A") /\
  lit "12/5A" <> [] /\
  forallb house_input_char (lit " 12-5a,") = true.
Proof.
  assert (H : normalize_house_no (lit " 12-5a,") = Ok (lit "12/5A"))
    by (vm_compute; reflexivity).
  assert (Hne : lit "12/5A" <> []) by (cbn; discriminate).
  split; [exact H|]. split; [exact Hne|].
  exact (house_number_alphabet _ _ H Hne).
Defined.

Lemma normalize_house_no_is_idempotent_witness :
  ascii_exact ascii_tables /\
  exists v, normalize_house_no (lit " 12--5a,") = Ok v /\
    (v = [] \/ canonical_house v = true) /\
    normalize_house_no v = Ok v.
Proof.
  split; [exact ascii_tables_exact|].
  exact (@normalize_house_no_is_idempotent ascii_tables ascii_tables_exact
           (lit " 12--5a,")).
Defined.

Lemma house_number_of_a_block_witness :
  ascii_exact ascii_tables /\
  exists r, parse_block (lit "House Number: 12-5a Age: 34") = Ok r /\
    (house_number r = [] \/ canonical_house (house_number r) = true).
Proof.
  split; [exact ascii_tables_exact|].
  destruct (@house_number_of_a_block ascii_tables ascii_tables_exact
              (lit "House Number: 12-5a Age: 34")) as (r & Hr & Hc & _).
  exists r. split; [exact Hr|exact Hc].
Defined.
Lemma records_keep_the_invariants_witness :
  ascii_exact ascii_tables /\
  exists raw, all_voters scenario = Ok raw /\ Forall record_ok raw.
Proof.
  split; [exact ascii_tables_exact|].
  destruct (@records_keep_the_invariants ascii_tables ascii_tables_exact scenario)
    as (raw & Hraw & Hok & _).
  exists raw. split; [exact Hraw|exact Hok].
Defined.

Lemma pdf_pages_are_numbered_witness :
  pdf_to_json (Raise ValueError)
              (Ok [Ok (lit " AB1234567 Name: X "); Ok (lit "CD7654321 ")])
  = Ok {| doc_total_pages := 2;
          doc_pages := [PageRecord 1 (lit "AB1234567 Name: X");
                        PageRecord 2 (lit "CD7654321")] |} /\
  exists raw,
    all_voters [PageRecord 1 (lit "AB1234567 Name: X"); PageRecord 2 (lit "CD7654321")]
    = Ok raw /\
    ascending (map page raw) /\
    Forall (fun v => (1 <= page v <= 2)%Z) raw.
Proof.
  assert (H : pdf_to_json (Raise ValueError)
                (Ok [Ok (lit " AB1234567 Name: X "); Ok (lit "CD7654321 ")])
              = Ok {| doc_total_pages := 2;
                      doc_pages := [PageRecord 1 (lit "AB1234567 Name: X");
                                    PageRecord 2 (lit "CD7654321")] |})
    by (vm_compute; reflexivity).
  split; [exact H|].
  exact (proj2 (proj2 (proj2 (pdf_pages_are_numbered _ _ _ H)))).
Defined.
End Instances.
